(** * Worldview quiz: retry wrapper, batched option fetch, quiz state,
      results sharing and saving, question card and voice answers.

    A shallow embedding of the orchestration code of the quiz application
    (App.tsx, Results.tsx, components/QuestionCard.tsx, questions.ts) and the
    properties its specification states about it.

    Conventions of the embedding.
    - A JavaScript string is the list of its UTF-16 code units ([jsstring]).
    - A JavaScript number is an integer ([Z]): question ids, indices and
      scores are declared INTEGER in the response schema.  The two places
      where the code computes with fractions (the backoff delay and
      [Math.random]) use exact rationals ([Q]).
    - A [Map] is an insertion-ordered association list with unique keys
      ([jsmap]), because the entry order is observable through
      [Array.from(answers.entries())].
    - An [await]ed promise is the outcome it settles to; a function that can
      throw returns a [result]; effects that the properties mention (calls
      of the wrapped operation, timer delays, console warnings, callbacks)
      are written to an explicit log.
    - [localStorage] is a finite map from keys to items. *)

From Stdlib Require Import ZArith NArith QArith Qround Lia List Bool Ascii String.
From Stdlib Require Import Permutation DecimalString.
From stdpp Require Import base option list gmap.

Import ListNotations.
Local Open Scope Z_scope.
Set Warnings "-register-all".

(* ===================================================================== *)
(** * Part I: definitions                                                 *)
(* ===================================================================== *)

(** ** JavaScript strings *)

Abbreviation jsstring := (list N).

(** A source literal, character by character. *)
Definition lit (s : string) : jsstring :=
  List.map N_of_ascii (list_ascii_of_string s).

Fixpoint startsWith (s p : jsstring) : bool :=
  match p, s with
  | [], _ => true
  | _ :: _, [] => false
  | a :: p', b :: s' => (a =? b)%N && startsWith s' p'
  end.

(** [String.prototype.includes]. *)
Fixpoint includes (s p : jsstring) : bool :=
  startsWith s p ||
  match s with
  | [] => false
  | _ :: s' => includes s' p
  end.

(** WhiteSpace and LineTerminator code units, as [trim] strips them. *)
Definition isWhiteSpace (c : N) : bool :=
  ((c =? 9) || (c =? 10) || (c =? 11) || (c =? 12) || (c =? 13) ||
   (c =? 32) || (c =? 160) || (c =? 5760) ||
   ((8192 <=? c) && (c <=? 8202)) ||
   (c =? 8232) || (c =? 8233) || (c =? 8239) || (c =? 8287) ||
   (c =? 12288) || (c =? 65279))%N.

Fixpoint trimStart (s : jsstring) : jsstring :=
  match s with
  | [] => []
  | c :: s' => if isWhiteSpace c then trimStart s' else s
  end.

Definition trimEnd (s : jsstring) : jsstring := rev (trimStart (rev s)).

(** [String.prototype.trim]. *)
Definition trim (s : jsstring) : jsstring := trimEnd (trimStart s).

(** Truthiness of a string: non-empty. *)
Definition truthy_string (s : jsstring) : bool :=
  match s with [] => false | _ => true end.

(** [s.indexOf(c)] for a single code unit, [-1] when absent. *)
Fixpoint indexOf_from (c : N) (s : jsstring) (i : Z) : Z :=
  match s with
  | [] => -1
  | d :: s' => if (d =? c)%N then i else indexOf_from c s' (i + 1)
  end.

Definition indexOf (s : jsstring) (c : N) : Z := indexOf_from c s 0.

(** [s.lastIndexOf(c)] for a single code unit, [-1] when absent. *)
Fixpoint lastIndexOf_from (c : N) (s : jsstring) (i : Z) (found : Z) : Z :=
  match s with
  | [] => found
  | d :: s' => lastIndexOf_from c s' (i + 1) (if (d =? c)%N then i else found)
  end.

Definition lastIndexOf (s : jsstring) (c : N) : Z := lastIndexOf_from c s 0 (-1).

(** [s.substring(a, b)]: both ends are clamped to the string and swapped
    when they come in the wrong order. *)
Definition substring (s : jsstring) (a b : Z) : jsstring :=
  let len := Z.of_nat (length s) in
  let a' := Z.max 0 (Z.min a len) in
  let b' := Z.max 0 (Z.min b len) in
  let lo := Z.min a' b' in
  let hi := Z.max a' b' in
  firstn (Z.to_nat (hi - lo)) (skipn (Z.to_nat lo) s).

(** ** Outcomes of code that can throw *)

Inductive result (E T : Type) : Type :=
| Returned (v : T)
| Threw (e : E).
Arguments Returned {E T} v.
Arguments Threw {E T} e.

Definition rbind {E A B} (r : result E A) (k : A -> result E B) : result E B :=
  match r with
  | Returned v => k v
  | Threw e => Threw e
  end.

(** [x ← r; k] runs [k] on the value of [r] and passes a throw on. *)
#[global] Instance result_ret {E} : MRet (result E) := fun _ v => Returned v.
#[global] Instance result_bind {E} : MBind (result E) :=
  fun _ _ k r => rbind r k.

(** ** The retry wrapper ([withRetry], App.tsx) *)

(** What [withRetry] can throw: an error of the wrapped operation, thrown
    again, or its own [new Error("Max retries reached. This should not
    happen.")] after the loop. *)
Inductive retry_error (E : Type) : Type :=
| Rethrown (e : E)
| MaxRetriesReached.
Arguments Rethrown {E} e.
Arguments MaxRetriesReached {E}.

Definition maxRetriesMessage : jsstring :=
  lit "Max retries reached. This should not happen.".

(** The string form of what [withRetry] throws, for a caller that inspects
    it in turn. *)
Definition retryErrorToString {E : Type} (toString : E -> jsstring)
    (e : retry_error E) : jsstring :=
  match e with
  | Rethrown e' => toString e'
  | MaxRetriesReached => lit "Error: " ++ maxRetriesMessage
  end.

(** Effects of one run of [withRetry]: how often the operation was invoked
    and the timer delays (milliseconds) that were awaited, oldest first. *)
Record retry_log : Type := RetryLog {
  calls : nat;
  sleeps : list Q
}.

Definition log_call (l : retry_log) : retry_log :=
  RetryLog (S (calls l)) (sleeps l).

Definition log_sleep (d : Q) (l : retry_log) : retry_log :=
  RetryLog (calls l) (sleeps l ++ [d]).

(** [initialDelay * Math.pow(2, attempt - 1) * (0.5 + Math.random())]. *)
Definition backoffDelay (initialDelay : Q) (attempt : Z) (random : Q) : Q :=
  (initialDelay * Qpower 2 (attempt - 1) * ((1 # 2) + random))%Q.

Section WithRetry.
(** The wrapped operation acts on a world [W] (the remote service, the
    network); each invocation settles to a value or to a thrown error.
    [toString] is [error.toString()], and [random k] is what the [k]-th
    call of [Math.random] returns. *)
Context {W E T : Type}.
Variable toString : E -> jsstring.
Variable apiCall : W -> result E T * W.
Variable random : nat -> Q.

Definition isRateLimitError (error : E) : bool :=
  includes (toString error) (lit "429") ||
  includes (toString error) (lit "RESOURCE_EXHAUSTED").

(** The [while (attempt < maxRetries)] loop.  [fuel] bounds the number of
    iterations; [None] means the bound was too small. *)
Fixpoint withRetry_loop (fuel : nat) (maxRetries : Z) (initialDelay : Q)
    (attempt : Z) (w : W) (l : retry_log)
    : option (result (retry_error E) T * W * retry_log) :=
  match fuel with
  | O => None
  | S fuel' =>
    if attempt <? maxRetries then
      match apiCall w with
      | (Returned v, w') => Some (Returned v, w', log_call l)
      | (Threw error, w') =>
        if isRateLimitError error && (attempt <? maxRetries - 1) then
          let attempt' := attempt + 1 in
          let delay :=
            backoffDelay initialDelay attempt' (random (length (sleeps l))) in
          withRetry_loop fuel' maxRetries initialDelay attempt' w'
            (log_sleep delay (log_call l))
        else Some (Threw (Rethrown error), w', log_call l)
      end
    else Some (Threw MaxRetriesReached, w, l)
  end.

Definition withRetry (maxRetries : Z) (initialDelay : Q) (w : W)
    : option (result (retry_error E) T * W * retry_log) :=
  withRetry_loop (S (Z.to_nat maxRetries)) maxRetries initialDelay 0 w
    (RetryLog 0 []).

(** The defaults of the signature: [maxRetries = 3, initialDelay = 1000]. *)
Definition withRetry_default (w : W) := withRetry 3 1000 w.

End WithRetry.

(** ** JSON values, as [JSON.parse] produces and [JSON.stringify] prints them *)

Inductive json : Type :=
| JNull
| JBool (b : bool)
| JNum (n : Z)
| JStr (s : jsstring)
| JArr (items : list json)
| JObj (props : list (jsstring * json)).

(** Exceptions raised by the language and the platform. *)
Inductive js_exn : Type :=
| TypeError
| SyntaxError
| InvalidCharacterError
| Error (message : jsstring).

Inductive jstype : Type :=
| TUndefined | TObject | TBoolean | TNumber | TString.

(** An own property of a parsed object; for a key that occurs twice the
    later binding holds, as in [JSON.parse]. *)
Fixpoint lookup_prop (name : jsstring) (props : list (jsstring * json))
    : option json :=
  match props with
  | [] => None
  | (k, v) :: props' =>
    match lookup_prop name props' with
    | Some v' => Some v'
    | None => if decide (k = name) then Some v else None
    end
  end.

(** [v.name], for the property names this program reads ([questionId],
    [options], [text], [score], [answers]): reading from [null] throws a
    TypeError, a primitive or an array has no such property ([None] is
    [undefined]). *)
Definition getProp (v : json) (name : jsstring) : result js_exn (option json) :=
  match v with
  | JNull => Threw TypeError
  | JObj props => Returned (lookup_prop name props)
  | _ => Returned None
  end.

Definition typeof (v : option json) : jstype :=
  match v with
  | None => TUndefined
  | Some JNull => TObject
  | Some (JBool _) => TBoolean
  | Some (JNum _) => TNumber
  | Some (JStr _) => TString
  | Some (JArr _) => TObject
  | Some (JObj _) => TObject
  end.

Definition isNumber (v : option json) : bool :=
  match typeof v with TNumber => true | _ => false end.

Definition isString (v : option json) : bool :=
  match typeof v with TString => true | _ => false end.

(** Truthiness of a parsed value. *)
Definition truthy (v : json) : bool :=
  match v with
  | JNull => false
  | JBool b => b
  | JNum n => negb (n =? 0)
  | JStr s => truthy_string s
  | JArr _ => true
  | JObj _ => true
  end.

(** *** [JSON.stringify] *)

Definition hexDigit (d : N) : N :=
  (if d <? 10 then 48 + d else 87 + d)%N.

(** [\uXXXX] with lowercase digits. *)
Definition unicodeEscape (c : N) : jsstring :=
  lit "\u" ++ [hexDigit (c / 4096 mod 16); hexDigit (c / 256 mod 16);
               hexDigit (c / 16 mod 16); hexDigit (c mod 16)]%N.

Definition isHighSurrogate (c : N) : bool := ((55296 <=? c) && (c <=? 56319))%N.
Definition isLowSurrogate (c : N) : bool := ((56320 <=? c) && (c <=? 57343))%N.

Definition escapeUnit (c : N) : jsstring :=
  (if c =? 8 then lit "\b"
   else if c =? 9 then lit "\t"
   else if c =? 10 then lit "\n"
   else if c =? 12 then lit "\f"
   else if c =? 13 then lit "\r"
   else if c =? 34 then [92; 34]
   else if c =? 92 then [92; 92]
   else if c <? 32 then unicodeEscape c
   else [c])%N.

Fixpoint quoteBody (s : jsstring) : jsstring :=
  match s with
  | [] => []
  | c :: s' =>
    if isHighSurrogate c then
      match s' with
      | d :: s'' =>
        if isLowSurrogate d then c :: d :: quoteBody s''
        else unicodeEscape c ++ quoteBody s'
      | [] => unicodeEscape c
      end
    else if isLowSurrogate c then unicodeEscape c ++ quoteBody s'
    else escapeUnit c ++ quoteBody s'
  end.

(** QuoteJSONString: only the quote, the backslash, control characters and
    lone surrogates are escaped; every other code unit is copied. *)
Definition quoteJSONString (s : jsstring) : jsstring :=
  [34%N] ++ quoteBody s ++ [34%N].

Definition numberToString (n : Z) : jsstring :=
  lit (DecimalString.NilZero.string_of_int (Z.to_int n)).

Fixpoint joinWith (sep : jsstring) (parts : list jsstring) : jsstring :=
  match parts with
  | [] => []
  | [p] => p
  | p :: parts' => p ++ sep ++ joinWith sep parts'
  end.

Fixpoint JSON_stringify (v : json) : jsstring :=
  match v with
  | JNull => lit "null"
  | JBool true => lit "true"
  | JBool false => lit "false"
  | JNum n => numberToString n
  | JStr s => quoteJSONString s
  | JArr items =>
    lit "[" ++ joinWith (lit ",") (List.map JSON_stringify items) ++ lit "]"
  | JObj props =>
    lit "{" ++
    joinWith (lit ",")
      (List.map (fun kv => quoteJSONString (fst kv) ++ lit ":" ++
                           JSON_stringify (snd kv)) props) ++
    lit "}"
  end.

(** ** [Map]: insertion-ordered, one binding per key *)

Section JsMap.
Context {K V : Type} `{EqDecision K}.

Definition jsmap : Type := list (K * V).

Definition Map_empty : jsmap := [].

Fixpoint Map_get (k : K) (m : jsmap) : option V :=
  match m with
  | [] => None
  | (k', v) :: m' => if decide (k = k') then Some v else Map_get k m'
  end.

Definition Map_has (k : K) (m : jsmap) : bool :=
  match Map_get k m with Some _ => true | None => false end.

(** [m.set(k, v)]: a key already present keeps its place and takes the new
    value; a new key goes to the end. *)
Fixpoint Map_set (k : K) (v : V) (m : jsmap) : jsmap :=
  match m with
  | [] => [(k, v)]
  | (k', v') :: m' =>
    if decide (k = k') then (k, v) :: m' else (k', v') :: Map_set k v m'
  end.

Definition Map_size (m : jsmap) : Z := Z.of_nat (length m).

(** [Array.from(m.entries())]. *)
Definition Map_entries (m : jsmap) : list (K * V) := m.

(** [new Map(entries)]. *)
Definition Map_new (entries : list (K * V)) : jsmap :=
  fold_left (fun m kv => Map_set (fst kv) (snd kv) m) entries Map_empty.

End JsMap.
Arguments jsmap K V : clear implicits.

(** ** The data model (types.ts) *)

Module GeneratedOption.
Record t : Type := mk { text : jsstring; score : Z }.
End GeneratedOption.

Module Answer.
Record t : Type := mk {
  questionId : Z;
  score : Z;
  optionText : jsstring;
  remark : jsstring
}.
End Answer.

Module Question.
Record t : Type := mk {
  id : Z;
  text : jsstring;
  categoryKey : jsstring;
  categoryTitle : jsstring
}.
End Question.

#[global] Instance GeneratedOption_eq_dec : EqDecision GeneratedOption.t.
Proof. solve_decision. Defined.

#[global] Instance Answer_eq_dec : EqDecision Answer.t.
Proof. solve_decision. Defined.

#[global] Instance Question_eq_dec : EqDecision Question.t.
Proof. solve_decision. Defined.

(** ** The batched option fetch ([generateBatchQuestionOptions], App.tsx) *)

(** The condition of the [every] callback:
    [typeof opt.text === 'string' && typeof opt.score === 'number']. *)
Definition optionIsValid (opt : json) : result js_exn bool :=
  text ← getProp opt (lit "text");
  if isString text then
    score ← getProp opt (lit "score");
    mret (isNumber score)
  else mret false.

(** [Array.prototype.every] with a callback that can throw: it stops at the
    first element the callback rejects. *)
Fixpoint every {A : Type} (f : A -> result js_exn bool) (l : list A)
    : result js_exn bool :=
  match l with
  | [] => mret true
  | x :: l' =>
    ok ← f x;
    if ok : bool then every f l' else mret false
  end.

(** The condition guarding [optionsMap.set]:
    [item && typeof item.questionId === 'number' &&
     Array.isArray(item.options) && item.options.every(...)]. *)
Definition itemIsValid (item : json) : result js_exn bool :=
  if truthy item then
    questionId ← getProp item (lit "questionId");
    if isNumber questionId then
      options ← getProp item (lit "options");
      match options with
      | Some (JArr opts) => every optionIsValid opts
      | _ => mret false
      end
    else mret false
  else mret false.

(** [item.questionId] and [item.options], read after the check. *)
Definition questionIdOf (item : json) : option Z :=
  match getProp item (lit "questionId") with
  | Returned (Some (JNum n)) => Some n
  | _ => None
  end.

Definition optionsOf (item : json) : option (list json) :=
  match getProp item (lit "options") with
  | Returned (Some (JArr opts)) => Some opts
  | _ => None
  end.

(** A checked array element seen through its static type
    [GeneratedOption]: the text and the score it carries. *)
Definition asGeneratedOption (opt : json) : option GeneratedOption.t :=
  match getProp opt (lit "text"), getProp opt (lit "score") with
  | Returned (Some (JStr s)), Returned (Some (JNum n)) =>
    Some (GeneratedOption.mk s n)
  | _, _ => None
  end.

Definition asGeneratedOptions (opts : list json) : list GeneratedOption.t :=
  omap asGeneratedOption opts.

Abbreviation options_map := (jsmap Z (list GeneratedOption.t)).

(** What the fetch writes to the console. *)
Inductive console_entry : Type :=
| WarnInvalidItem (item : json)
| WarnIncomplete (requested received : Z)
| ErrorGeneratingOptions.

(** The loop [for (const item of results)] over the parsed response.  The
    console keeps what was written before a throw. *)
Fixpoint collectOptions (results : list json) (optionsMap : options_map)
    (console : list console_entry)
    : result js_exn options_map * list console_entry :=
  match results with
  | [] => (Returned optionsMap, console)
  | item :: rest =>
    match itemIsValid item with
    | Threw e => (Threw e, console)
    | Returned true =>
      match questionIdOf item, optionsOf item with
      | Some questionId, Some opts =>
        collectOptions rest
          (Map_set questionId (asGeneratedOptions opts) optionsMap) console
      | _, _ => collectOptions rest optionsMap console
      end
    | Returned false =>
      collectOptions rest optionsMap (console ++ [WarnInvalidItem item])
    end
  end.

(** The size check that follows the loop. *)
Definition warnIfIncomplete (requested : Z) (optionsMap : options_map)
    (console : list console_entry) : list console_entry :=
  if Map_size optionsMap =? requested then console
  else console ++ [WarnIncomplete requested (Map_size optionsMap)].

(** From the parsed array to the returned map (the end of the [try] block). *)
Definition optionsFromResults (requested : Z) (results : list json)
    : result js_exn options_map * list console_entry :=
  match collectOptions results Map_empty [] with
  | (Returned optionsMap, console) =>
    (Returned optionsMap, warnIfIncomplete requested optionsMap console)
  | (Threw e, console) => (Threw e, console)
  end.

(** "Robust extraction of JSON array": the text between the first bracket
    that opens and the last that closes, when both occur. *)
Definition extractArrayText (jsonText : jsstring) : jsstring :=
  let start := indexOf jsonText 91 in
  let end_ := lastIndexOf jsonText 93 in
  if negb (start =? -1) && negb (end_ =? -1)
  then substring jsonText start (end_ + 1)
  else jsonText.

Definition apiKeyMissingMessage : jsstring :=
  [65; 80; 73; 45; 1082; 1083; 1102; 1095; 32; 1085; 1077; 32; 1087; 1088;
   1077; 1076; 1086; 1089; 1090; 1072; 1074; 1083; 1077; 1085; 46; 32; 1059;
   1073; 1077; 1076; 1080; 1090; 1077; 1089; 1100; 44; 32; 1095; 1090; 1086;
   32; 1087; 1077; 1088; 1077; 1084; 1077; 1085; 1085; 1072; 1103; 32; 1086;
   1082; 1088; 1091; 1078; 1077; 1085; 1080; 1103; 32; 65; 80; 73; 95; 75;
   69; 89; 32; 1091; 1089; 1090; 1072; 1085; 1086; 1074; 1083; 1077; 1085;
   1072; 46]%N.

Section BatchFetch.
(** What the repository takes from elsewhere: the display languages and the
    translation table [t] of i18n.ts, the platform's [JSON.parse] ([None]
    is a SyntaxError), the generative API ([generateContent] settles to the
    response's [text], which may be missing, or throws), the API key of the
    environment and the random source. *)
Context {Language W E : Type}.
Variable t : jsstring -> Language -> jsstring.
Variable JSON_parse : jsstring -> option json.
Variable toString : E -> jsstring.
Variable isSyntaxError : E -> bool.
Variable generateContent :
  Language -> jsstring -> W -> result E (option jsstring) * W.
Variable random : nat -> Q.
Variable apiKey : option jsstring.

(** What can be thrown inside the [try] block. *)
Inductive fetch_exn : Type :=
| FromApi (e : retry_error E)
| FromJs (e : js_exn).

(** [JSON.stringify(questions.map(({ id, text }) => ({ id, text })))]. *)
Definition batchPrompt (questions : list (Z * jsstring)) : jsstring :=
  JSON_stringify
    (JArr (List.map (fun q => JObj [(lit "id", JNum (fst q));
                                    (lit "text", JStr (snd q))]) questions)).

(** The [try] block after the awaited API call. *)
Definition readResponse (requested : Z)
    (response : result (retry_error E) (option jsstring))
    : result fetch_exn options_map * list console_entry :=
  match response with
  | Threw e => (Threw (FromApi e), [])
  | Returned text =>
    let jsonText :=
      match text with
      | Some s => if truthy_string s then trim s else []
      | None => []
      end in
    if negb (truthy_string jsonText)
    then (Threw (FromJs (Error (lit "Received empty response from API"))), [])
    else
      match JSON_parse (extractArrayText jsonText) with
      | None => (Threw (FromJs SyntaxError), [])
      | Some (JArr results) =>
        match optionsFromResults requested results with
        | (Returned m, console) => (Returned m, console)
        | (Threw e, console) => (Threw (FromJs e), console)
        end
      | Some _ =>
        (Threw (FromJs (Error (lit "API response is not an array."))), [])
      end
  end.

Definition instanceofSyntaxError (e : fetch_exn) : bool :=
  match e with
  | FromJs SyntaxError => true
  | FromJs _ => false
  | FromApi (Rethrown e') => isSyntaxError e'
  | FromApi MaxRetriesReached => false
  end.

(** The [catch] block: log, then throw a localized error. *)
Definition catchFetch (lang : Language)
    (r : result fetch_exn options_map * list console_entry)
    : result js_exn options_map * list console_entry :=
  match r with
  | (Returned m, console) => (Returned m, console)
  | (Threw e, console) =>
    (Threw (Error (if instanceofSyntaxError e
                   then t (lit "error_json_parse") lang
                   else t (lit "error_api_generation") lang)),
     console ++ [ErrorGeneratingOptions])
  end.

(** [generateBatchQuestionOptions(questions, lang)].  [None] only if the
    retry loop ran out of fuel. *)
Definition generateBatchQuestionOptions (questions : list (Z * jsstring))
    (lang : Language) (w : W)
    : option (result js_exn options_map * list console_entry * W) :=
  match questions with
  | [] => Some (Returned Map_empty, [], w)
  | _ :: _ =>
    match apiKey with
    | None => Some (Threw (Error apiKeyMissingMessage), [], w)
    | Some key =>
      if negb (truthy_string key)
      then Some (Threw (Error apiKeyMissingMessage), [], w)
      else
        match withRetry_default toString
                (generateContent lang (batchPrompt questions)) random w with
        | None => None
        | Some (response, w', _) =>
          let '(r, console) :=
            catchFetch lang
              (readResponse (Z.of_nat (length questions)) response) in
          Some (r, console, w')
        end
    end
  end.

End BatchFetch.

(** The merge of a fetched map into the cache:
    [generatedOptionsMap.forEach((opts, id) => newCache.set(id, opts))]. *)
Definition mergeOptions (prev generated : options_map) : options_map :=
  fold_left (fun cache kv => Map_set (fst kv) (snd kv) cache) generated prev.

(** ** The question list (questions.ts) *)

(** The ids [a, a+1, ..., a+n-1] of one category. *)
Definition idsFrom (a : Z) (n : nat) : list Z :=
  List.map (fun k => a + Z.of_nat k) (seq 0 n).

(** [questionCategoriesStructure]: nine categories, ids 1 to 140. *)
Definition questionCategoriesStructure : list (jsstring * list Z) :=
  [ (lit "A", idsFrom 1 19);
    (lit "B", idsFrom 20 19);
    (lit "C", idsFrom 39 19);
    (lit "D", idsFrom 58 19);
    (lit "E", idsFrom 77 19);
    (lit "F", idsFrom 96 14);
    (lit "G", idsFrom 110 14);
    (lit "H", idsFrom 124 9);
    (lit "I", idsFrom 133 8) ].

(** [initialQuestions]: the categories flattened, with empty texts. *)
Definition initialQuestions : list Question.t :=
  flat_map (fun category =>
    List.map (fun q => Question.mk q [] (fst category) []) (snd category))
    questionCategoriesStructure.

(** ** [localStorage] *)

Abbreviation storage := (gmap jsstring jsstring).

Definition getItem (key : jsstring) (s : storage) : option jsstring := s !! key.
Definition setItem (key value : jsstring) (s : storage) : storage :=
  <[key := value]> s.
Definition removeItem (key : jsstring) (s : storage) : storage := delete key s.

(** ** The application state (the [useState] cells and refs of [App]) *)

Inductive AppState : Type := introduction | quiz | results.

Abbreviation answers_map := (jsmap Z Answer.t).

Record QuizState : Type := mkQuiz {
  appState : AppState;
  currentQuestionIndex : Z;
  answers : answers_map;
  optionsCache : options_map;
  shuffledQuestions : list Question.t;
  error : option jsstring;
  worldviewImageHistory : list (option jsstring);
  viewingAnswers : option answers_map;
  viewingWorldviewImage : option jsstring
}.

Inductive ChatRole : Type := user | model.

Record ChatMessage : Type := mkChat { role : ChatRole; chatText : jsstring }.

Inductive VoiceModalStatus : Type :=
| idle | listening | processing | error_status | initializing.

Record VoiceState : Type := mkVoice {
  isVoiceModalOpen : bool;
  voiceModalStatus : VoiceModalStatus;
  voiceModalError : option jsstring;
  chatHistory : list ChatMessage;
  isAiSpeaking : bool
}.

Inductive AudioContextState : Type := suspended | running | closed.

(** The refs to the live session and to the audio graph; [None] is a ref
    holding [null].  A media stream is the list of its tracks, [true] for a
    track that is live. *)
Record AudioRefs : Type := mkRefs {
  liveSessionRef : option unit;
  inputAudioContextRef : option AudioContextState;
  outputAudioContextRef : option AudioContextState;
  mediaStreamRef : option (list bool);
  audioProcessorNodeRef : option unit;
  mediaStreamSourceRef : option unit
}.

(** Calls that leave the application, in the order they are made. *)
Inductive device_call (Language : Type) : Type :=
| TrackStop
| ProcessorDisconnect
| SourceDisconnect
| InputContextClose
| OutputContextClose
| SessionClose
| Speak (text : jsstring) (lang : Language)
| Alert (message : jsstring).
Arguments TrackStop {Language}.
Arguments ProcessorDisconnect {Language}.
Arguments SourceDisconnect {Language}.
Arguments InputContextClose {Language}.
Arguments OutputContextClose {Language}.
Arguments SessionClose {Language}.
Arguments Speak {Language} text lang.
Arguments Alert {Language} message.

Record App (Language : Type) : Type := mkApp {
  quizState : QuizState;
  voice : VoiceState;
  refs : AudioRefs;
  localStorage : storage;
  deviceCalls : list (device_call Language)
}.
Arguments mkApp {Language}.
Arguments quizState {Language}.
Arguments voice {Language}.
Arguments refs {Language}.
Arguments localStorage {Language}.
Arguments deviceCalls {Language}.

(** ** Starting the quiz ([handleStartQuiz], App.tsx) *)

(** [array[i]] for a numeric index: [undefined] outside the array. *)
Definition arrayGet {A : Type} (array : list A) (i : Z) : option A :=
  if 0 <=? i then array !! Z.to_nat i else None.

(** The destructuring swap [[array[i], array[j]] = [array[j], array[i]]]:
    both reads come first, then [array[i]] and [array[j]] are written.
    A read outside the array yields [undefined], which is not a question;
    the embedding stops there with [None]. *)
Definition swap {A : Type} (array : list A) (i j : Z) : option (list A) :=
  match arrayGet array j, arrayGet array i with
  | Some aj, Some ai =>
    Some (<[Z.to_nat j := ai]> (<[Z.to_nat i := aj]> array))
  | _, _ => None
  end.

Section Shuffle.
(** [random k] is what the [k]-th call of [Math.random] returns. *)
Variable random : nat -> Q.

(** [Math.floor(Math.random() * (i + 1))]. *)
Definition randomIndex (k : nat) (i : Z) : Z :=
  Qfloor (random k * inject_Z (i + 1)).

(** The loop [for (let i = array.length - 1; i > 0; i--)], entered with
    loop variable [i] after [k] draws. *)
Fixpoint shuffleFrom {A : Type} (i : nat) (k : nat) (array : list A)
    : option (list A) :=
  match i with
  | O => Some array
  | S i' =>
    match swap array (Z.of_nat i) (randomIndex k (Z.of_nat i)) with
    | Some array' => shuffleFrom i' (S k) array'
    | None => None
    end
  end.

Definition shuffle {A : Type} (array : list A) : option (list A) :=
  shuffleFrom (length array - 1) 0 array.

Definition quizProgressKey : jsstring := lit "quizProgress".

Definition handleStartQuiz {Language : Type} (st : App Language)
    : option (App Language) :=
  let localStorage' := removeItem quizProgressKey (localStorage st) in
  match shuffle initialQuestions with
  | None => None
  | Some array =>
    Some (mkApp
      (mkQuiz quiz            (* setAppState('quiz') *)
              0               (* setCurrentQuestionIndex(0) *)
              Map_empty       (* setAnswers(new Map()) *)
              Map_empty       (* setOptionsCache(new Map()) *)
              array           (* setShuffledQuestions(array) *)
              None            (* setError(null) *)
              []              (* setWorldviewImageHistory([]) *)
              None            (* setViewingAnswers(null) *)
              None)           (* setViewingWorldviewImage(null) *)
      (voice st) (refs st) localStorage' (deviceCalls st))
  end.

End Shuffle.

(** ** Recording answers and moving on (App.tsx) *)

Definition setAnswers (f : answers_map -> answers_map) (q : QuizState)
    : QuizState :=
  mkQuiz (appState q) (currentQuestionIndex q) (f (answers q))
    (optionsCache q) (shuffledQuestions q) (error q)
    (worldviewImageHistory q) (viewingAnswers q) (viewingWorldviewImage q).

Definition setCurrentQuestionIndex (f : Z -> Z) (q : QuizState) : QuizState :=
  mkQuiz (appState q) (f (currentQuestionIndex q)) (answers q)
    (optionsCache q) (shuffledQuestions q) (error q)
    (worldviewImageHistory q) (viewingAnswers q) (viewingWorldviewImage q).

Definition setAppState (s : AppState) (q : QuizState) : QuizState :=
  mkQuiz s (currentQuestionIndex q) (answers q)
    (optionsCache q) (shuffledQuestions q) (error q)
    (worldviewImageHistory q) (viewingAnswers q) (viewingWorldviewImage q).

Definition onQuiz {Language : Type} (f : QuizState -> QuizState)
    (st : App Language) : App Language :=
  mkApp (f (quizState st)) (voice st) (refs st) (localStorage st)
    (deviceCalls st).

(** [setAnswers(prev => new Map(prev).set(answer.questionId, answer))]. *)
Definition handleAnswer {Language : Type} (answer : Answer.t)
    (st : App Language) : App Language :=
  onQuiz (setAnswers (Map_set (Answer.questionId answer) answer)) st.

Definition handleNextQuestion {Language : Type} (st : App Language)
    : App Language :=
  let q := quizState st in
  if currentQuestionIndex q <? Z.of_nat (length (shuffledQuestions q)) - 1
  then onQuiz (setCurrentQuestionIndex (fun prev => prev + 1)) st
  else onQuiz (setAppState results) st.

Section Components.
(** The display languages and the translation table [t] come from i18n.ts,
    which is outside the repository's source files at hand. *)
Context {Language : Type}.
Variable t : jsstring -> Language -> jsstring.

(** ** The question card ([handleNext], components/QuestionCard.tsx) *)

(** What [handleNext] does to the outside: the [onAnswer] and [onNext]
    props and [alert]. *)
Inductive card_action : Type :=
| OnAnswer (answer : Answer.t)
| OnNext
| CardAlert (message : jsstring).

Definition handleNext (question : Question.t) (language : Language)
    (selectedOption : option GeneratedOption.t) (remark : jsstring)
    : list card_action :=
  match selectedOption with
  | Some option =>
    [ OnAnswer (Answer.mk (Question.id question)
                  (GeneratedOption.score option)
                  (GeneratedOption.text option)
                  remark);
      OnNext ]
  | None =>
    if truthy_string (trim remark) then
      [ OnAnswer (Answer.mk (Question.id question)
                    0
                    (t (lit "custom_answer_text") language)
                    (trim remark));
        OnNext ]
    else [ CardAlert (t (lit "alert_select_option") language) ]
  end.

(** The props as [App] passes them: [onAnswer={handleAnswer}],
    [onNext={handleNextQuestion}]. *)
Definition runCardAction (a : card_action) (st : App Language) : App Language :=
  match a with
  | OnAnswer answer => handleAnswer answer st
  | OnNext => handleNextQuestion st
  | CardAlert message =>
    mkApp (quizState st) (voice st) (refs st) (localStorage st)
      (deviceCalls st ++ [Alert message])
  end.

Definition runCardActions (l : list card_action) (st : App Language)
    : App Language :=
  fold_left (fun s a => runCardAction a s) l st.

(** ** Voice answers ([handleStartLiveConversation], App.tsx) *)

Definition call (c : device_call Language) (st : App Language) : App Language :=
  mkApp (quizState st) (voice st) (refs st) (localStorage st)
    (deviceCalls st ++ [c]).

Definition contextOpen (ctx : option AudioContextState) : bool :=
  match ctx with
  | Some closed => false
  | Some _ => true
  | None => false
  end.

(** [cleanupAudioResources]: stop the tracks, disconnect the nodes, null
    the three refs, and close each audio context that is not closed yet;
    its ref is nulled when the close has settled. *)
Definition cleanupAudioResources (st : App Language) : App Language :=
  let r := refs st in
  let stops :=
    match mediaStreamRef r with
    | Some tracks => List.map (fun _ => TrackStop) tracks
    | None => []
    end in
  let processor :=
    match audioProcessorNodeRef r with
    | Some _ => [ProcessorDisconnect]
    | None => []
    end in
  let source :=
    match mediaStreamSourceRef r with
    | Some _ => [SourceDisconnect]
    | None => []
    end in
  let input := if contextOpen (inputAudioContextRef r)
               then [InputContextClose] else [] in
  let output := if contextOpen (outputAudioContextRef r)
                then [OutputContextClose] else [] in
  mkApp (quizState st) (voice st)
    (mkRefs (liveSessionRef r)
       (if contextOpen (inputAudioContextRef r) then None
        else inputAudioContextRef r)
       (if contextOpen (outputAudioContextRef r) then None
        else outputAudioContextRef r)
       None None None)
    (localStorage st)
    (deviceCalls st ++ stops ++ processor ++ source ++ input ++ output).

Definition handleCloseVoiceModal (st : App Language) : App Language :=
  let v := voice st in
  (* setIsVoiceModalOpen(false) ... setChatHistory([]); setIsAiSpeaking(false) *)
  let v' := mkVoice false (voiceModalStatus v) (voiceModalError v) [] false in
  (* liveSessionRef.current?.close() *)
  let st1 :=
    match liveSessionRef (refs st) with
    | Some _ => call SessionClose st
    | None => st
    end in
  let st2 := cleanupAudioResources st1 in
  mkApp (quizState st2) v' (refs st2) (localStorage st2) (deviceCalls st2).

(** A function call of a tool-call message, with its arguments under the
    asserted type [{ selectedOptionIndex, comment, farewell }]. *)
Record FunctionCall : Type := mkCall {
  name : jsstring;
  selectedOptionIndex : Z;
  comment : jsstring;
  farewell : jsstring
}.

(** The body of [for (const fc of message.toolCall.functionCalls)], with
    the question and its options as the session captured them. *)
Definition onFunctionCall (currentQuestion : Question.t)
    (currentOptions : list GeneratedOption.t) (language : Language)
    (fc : FunctionCall) (st : App Language) : App Language :=
  if bool_decide (name fc = lit "submitAnswer") then
    let st1 :=
      match arrayGet currentOptions (selectedOptionIndex fc) with
      | Some option =>
        handleAnswer
          (Answer.mk (Question.id currentQuestion)
             (GeneratedOption.score option)
             (GeneratedOption.text option)
             (if truthy_string (comment fc) then comment fc else []))
          st
      | None => st
      end in
    let st2 :=
      if truthy_string (farewell fc)
      then call (Speak (farewell fc) language) st1
      else st1 in
    handleCloseVoiceModal st2
  else st.

(** [if (message.toolCall) { for ... }]. *)
Definition onToolCall (currentQuestion : Question.t)
    (currentOptions : list GeneratedOption.t) (language : Language)
    (functionCalls : list FunctionCall) (st : App Language) : App Language :=
  fold_left
    (fun s fc => onFunctionCall currentQuestion currentOptions language fc s)
    functionCalls st.

End Components.

(** ** Results: scores, saving and sharing (Results.tsx) *)

Definition MAX_SCORE_PER_QUESTION : Z := 5.

(** [answers.forEach(answer => score += answer.score)]. *)
Definition totalScore (answers : answers_map) : Z :=
  fold_left (fun score kv => score + Answer.score (snd kv))
    (Map_entries answers) 0.

(** The per-category sum of [categoryData]. *)
Definition userCategoryScore (answers : answers_map) (questions : list Z) : Z :=
  fold_left (fun score q =>
               match Map_get q answers with
               | Some a => score + Answer.score a
               | None => score
               end) questions 0.

(** [categoryData], without the display title and the rounded percentage:
    key, score and maximal score of each category. *)
Definition categoryData (answers : answers_map) : list (jsstring * Z * Z) :=
  List.map (fun category =>
              (fst category,
               userCategoryScore answers (snd category),
               Z.of_nat (length (snd category)) * MAX_SCORE_PER_QUESTION))
    questionCategoriesStructure.

(** An answer and a list of entries as [JSON.stringify] sees them. *)
Definition jsonOfAnswer (a : Answer.t) : json :=
  JObj [ (lit "questionId", JNum (Answer.questionId a));
         (lit "score", JNum (Answer.score a));
         (lit "optionText", JStr (Answer.optionText a));
         (lit "remark", JStr (Answer.remark a)) ].

Definition jsonOfEntries (entries : list (Z * Answer.t)) : json :=
  JArr (List.map (fun kv => JArr [JNum (fst kv); jsonOfAnswer (snd kv)]) entries).

(** [worldviewImageUrl || null]. *)
Definition jsonOfImageUrl (url : option jsstring) : json :=
  match url with
  | Some u => if truthy_string u then JStr u else JNull
  | None => JNull
  end.

Module SavedResult.
Record t : Type := mk {
  timestamp : Z;
  answers : list (Z * Answer.t);
  worldviewImageUrl : option jsstring
}.
End SavedResult.

Definition jsonOfSavedResult (r : SavedResult.t) : json :=
  JObj [ (lit "timestamp", JNum (SavedResult.timestamp r));
         (lit "answers", jsonOfEntries (SavedResult.answers r));
         (lit "worldviewImageUrl", jsonOfImageUrl (SavedResult.worldviewImageUrl r)) ].

(** *** [btoa] *)

Definition base64Char (n : N) : N :=
  (if n <? 26 then 65 + n
   else if n <? 52 then 97 + (n - 26)
   else if n <? 62 then 48 + (n - 52)
   else if n =? 62 then 43
   else 47)%N.

Fixpoint base64 (bytes : list N) : jsstring :=
  match bytes with
  | [] => []
  | [a] =>
    [base64Char (a / 4); base64Char (a mod 4 * 16); 61; 61]%N
  | [a; b] =>
    [base64Char (a / 4); base64Char (a mod 4 * 16 + b / 16);
     base64Char (b mod 16 * 4); 61]%N
  | a :: b :: c :: rest =>
    [base64Char (a / 4); base64Char (a mod 4 * 16 + b / 16);
     base64Char (b mod 16 * 4 + c / 64); base64Char (c mod 64)]%N
    ++ base64 rest
  end.

(** [btoa(s)]: a code unit above U+00FF raises InvalidCharacterError. *)
Definition btoa (s : jsstring) : result js_exn jsstring :=
  if forallb (fun c => c <=? 255)%N s then Returned (base64 s)
  else Threw InvalidCharacterError.

(** *** Sharing *)

(** [handleShare] up to the URL it hands to [navigator.share] or to the
    clipboard; a throw rejects the promise of the handler and nothing is
    shared. *)
Definition handleShare (origin pathname : jsstring) (answers : answers_map)
    (worldviewImageUrl : option jsstring) : result js_exn jsstring :=
  let dataToShare :=
    JObj [ (lit "answers", jsonOfEntries (Map_entries answers));
           (lit "worldviewImageUrl", jsonOfImageUrl worldviewImageUrl) ] in
  let jsonString := JSON_stringify dataToShare in
  encodedData ← btoa jsonString;
  mret (origin ++ pathname ++ lit "?r=" ++ encodedData).

(** *** Saving *)

Section Saving.
Context {Language : Type}.
Variable t : jsstring -> Language -> jsstring.
(** The platform's [JSON.parse]; [None] is a SyntaxError. *)
Variable JSON_parse : jsstring -> option json.

Definition savedResultsKey : jsstring := lit "quizSavedResults".

(** The state of the [Results] component that saving touches, and the
    storage. *)
Record ResultsState : Type := mkResults {
  isSaved : bool;
  saveButtonText : jsstring;
  store : storage
}.

(** [JSON.parse(localStorage.getItem('quizSavedResults') || '[]')];
    [JSON.parse('[]')] is the empty array. *)
Definition readSavedResults (s : storage) : result js_exn json :=
  match getItem savedResultsKey s with
  | Some raw =>
    if truthy_string raw then
      match JSON_parse raw with
      | Some v => Returned v
      | None => Threw SyntaxError
      end
    else Returned (JArr [])
  | None => Returned (JArr [])
  end.

(** [JSON.stringify(res.answers) === currentAnswersString]: reading from
    [null] throws; a missing property prints as [undefined], which equals
    no string. *)
Definition sameAnswers (currentAnswersString : jsstring) (res : json)
    : result js_exn bool :=
  a ← getProp res (lit "answers");
  match a with
  | Some v => mret (bool_decide (JSON_stringify v = currentAnswersString))
  | None => mret false
  end.

(** [Array.prototype.some] with a callback that can throw. *)
Fixpoint some {A : Type} (f : A -> result js_exn bool) (l : list A)
    : result js_exn bool :=
  match l with
  | [] => mret false
  | x :: l' =>
    found ← f x;
    if found : bool then mret true else some f l'
  end.

(** [savedResults.some(...)]; it is a TypeError when the parsed value is
    not an array. *)
Definition alreadySaved (savedResults : json) (answers : answers_map)
    : result js_exn bool :=
  let currentAnswersString :=
    JSON_stringify (jsonOfEntries (Map_entries answers)) in
  match savedResults with
  | JArr items => some (sameAnswers currentAnswersString) items
  | _ => Threw TypeError
  end.

(** The effect on [[answers, language]]. *)
Definition savedEffect (answers : answers_map) (language : Language)
    (st : ResultsState) : ResultsState :=
  match (savedResults ← readSavedResults (store st);
         alreadySaved savedResults answers) with
  | Returned true =>
    mkResults true (t (lit "results_saved_button") language) (store st)
  | Returned false =>
    mkResults false (t (lit "save_results_button") language) (store st)
  | Threw _ => st
  end.

(** [handleSaveResults]; [now] is [Date.now()]. *)
Definition handleSaveResults (answers : answers_map)
    (worldviewImageUrl : option jsstring) (language : Language) (now : Z)
    (st : ResultsState) : ResultsState :=
  if isSaved st then st
  else
    let newResult :=
      jsonOfSavedResult
        (SavedResult.mk now (Map_entries answers) worldviewImageUrl) in
    match (savedResults ← readSavedResults (store st);
           match savedResults with
           | JArr items => mret (JArr (items ++ [newResult]))
           | _ => Threw TypeError
           end) with
    | Returned savedResults' =>
      mkResults true (t (lit "results_saved_button") language)
        (setItem savedResultsKey (JSON_stringify savedResults') (store st))
    | Threw _ =>
      mkResults (isSaved st) (t (lit "save_results_error") language) (store st)
    end.

End Saving.

(** ** The accepted response entries, in the words of the specification *)

(** An answer option of the response that has a string [text] and a numeric
    [score]. *)
Definition specOption (opt : json) : option GeneratedOption.t :=
  match opt with
  | JObj props =>
    match lookup_prop (lit "text") props, lookup_prop (lit "score") props with
    | Some (JStr s), Some (JNum n) => Some (GeneratedOption.mk s n)
    | _, _ => None
    end
  | _ => None
  end.

(** A response entry whose [questionId] is a number and whose [options] is
    an array of such objects, as the binding it stands for. *)
Definition specEntry (item : json) : option (Z * list GeneratedOption.t) :=
  match item with
  | JObj props =>
    match lookup_prop (lit "questionId") props,
          lookup_prop (lit "options") props with
    | Some (JNum questionId), Some (JArr opts) =>
      opts' ← mapM specOption opts;
      Some (questionId, opts')
    | _, _ => None
    end
  | _ => None
  end.

Definition specEntries (results : list json)
    : list (Z * list GeneratedOption.t) :=
  omap specEntry results.

Definition rejectedItems (results : list json) : list json :=
  List.filter (fun item => match specEntry item with
                           | Some _ => false
                           | None => true
                           end) results.

(** The value of the last binding of [k] in a list of bindings. *)
Fixpoint lastEntry {V : Type} (k : Z) (entries : list (Z * V)) : option V :=
  match entries with
  | [] => None
  | (k', v) :: entries' =>
    match lastEntry k entries' with
    | Some v' => Some v'
    | None => if decide (k = k') then Some v else None
    end
  end.

(** No [options] array of the response holds a [null] element. *)
Definition nullFreeOptions (results : list json) : Prop :=
  forall item opts,
    In item results -> optionsOf item = Some opts -> ~ In JNull opts.

(** Every score the response carries lies between 0 and 5. *)
Definition scoresInRange (results : list json) : Prop :=
  forall item opts opt n,
    In item results -> optionsOf item = Some opts -> In opt opts ->
    getProp opt (lit "score") = Returned (Some (JNum n)) ->
    0 <= n <= 5.

(** The audio resources are released: no stream, no nodes, and no audio
    context that is still open. *)
Definition audioReleased (r : AudioRefs) : Prop :=
  mediaStreamRef r = None /\
  audioProcessorNodeRef r = None /\
  mediaStreamSourceRef r = None /\
  contextOpen (inputAudioContextRef r) = false /\
  contextOpen (outputAudioContextRef r) = false.

(** The quiz has moved on from [q]: to the next question, or to the results
    after the last one. *)
Definition advanced (q q' : QuizState) : Prop :=
  if currentQuestionIndex q <? Z.of_nat (length (shuffledQuestions q)) - 1
  then currentQuestionIndex q' = currentQuestionIndex q + 1 /\
       appState q' = appState q
  else currentQuestionIndex q' = currentQuestionIndex q /\
       appState q' = results.

(** ** Concrete inputs *)

(** Operations on a world that counts the invocations so far. *)
Definition error429 : jsstring := lit "Error: 429 Too Many Requests".
Definition error500 : jsstring := lit "Error: 500 Internal Server Error".

(** Fails twice with a rate-limit error, then succeeds with [7]. *)
Definition failsTwice (n : nat) : result jsstring Z * nat :=
  if (n <? 2)%nat then (Threw error429, S n) else (Returned 7, S n).

(** Fails at once with another error. *)
Definition failsOtherwise (n : nat) : result jsstring Z * nat :=
  (Threw error500, S n).

(** Fails with a rate-limit error on every invocation. *)
Definition alwaysRateLimited (n : nat) : result jsstring Z * nat :=
  (Threw error429, S n).

Definition noJitter (k : nat) : Q := 0%Q.
Definition halfJitter (k : nat) : Q := (1 # 2)%Q.


(** A generative API that answers every request with the same text. *)
Definition answersWith (text : jsstring) (lang : unit) (prompt : jsstring)
    (w : unit) : result jsstring (option jsstring) * unit :=
  (Returned (Some text), w).

(** [JSON.parse] on the one text it is asked about here: the printed form
    of [v] parses to [v]. *)
Definition parses (v : json) (s : jsstring) : option json :=
  if bool_decide (s = JSON_stringify v) then Some v else None.

Definition responseOption (text : string) (score : Z) : json :=
  JObj [(lit "text", JStr (lit text)); (lit "score", JNum score)].

Definition responseItem (questionId : Z) (options : list json) : json :=
  JObj [(lit "questionId", JNum questionId); (lit "options", JArr options)].

Definition twoQuestions : list (Z * jsstring) :=
  [(1, lit "q1"); (2, lit "q2")].

(** Question 1 answered twice and question 3, which was not asked. *)
Definition responseRepeated : list json :=
  [ responseItem 1 [responseOption "a" 1];
    responseItem 1 [responseOption "b" 2];
    responseItem 3 [responseOption "c" 3] ].

(** A complete response with one malformed entry. *)
Definition responseMixed : list json :=
  [ responseItem 1 [responseOption "a" 1; responseOption "b" 4];
    JObj [(lit "questionId", JStr (lit "2")); (lit "options", JArr [])];
    responseItem 2 [responseOption "c" 5] ].

(** An entry whose options hold [null]. *)
Definition responseNullOption : list json :=
  [ responseItem 1 [JNull] ].

(** A score outside the requested range. *)
Definition responseScore42 : list json :=
  [ responseItem 1 [responseOption "a" 42] ].

Definition englishKeys (key : jsstring) (lang : unit) : jsstring := key.

(** A session in the middle of a quiz, with a saved progress record. *)
Definition midQuiz : App unit :=
  mkApp
    (mkQuiz quiz 7
       [(3, Answer.mk 3 4 (lit "a") (lit "because")); (9, Answer.mk 9 0 (lit "b") [])]
       [(3, [GeneratedOption.mk (lit "a") 4]); (9, [GeneratedOption.mk (lit "b") 0])]
       (rev initialQuestions)
       (Some (lit "failed"))
       [Some (lit "data:image/jpeg;base64,AAAA")]
       None None)
    (mkVoice true listening None [mkChat user (lit "hello")] true)
    (mkRefs (Some ()) (Some running) (Some running) (Some [true]) (Some ()) (Some ()))
    (<[lit "quizProgress" := lit "{}"]> ∅)
    [].

Definition question7 : Question.t := Question.mk 7 (lit "q7") (lit "A") (lit "cat").

Definition options7 : list GeneratedOption.t :=
  [GeneratedOption.mk (lit "yes") 1; GeneratedOption.mk (lit "no") 4].

(** A [submitAnswer] call that names an option the question does not have. *)
Definition callOutOfRange : FunctionCall :=
  mkCall (lit "submitAnswer") 5 (lit "thinks so") (lit "bye").

(** One answer in Russian, the language the application starts in: the
    option text is the word for "yes", U+0414 U+0430. *)
Definition answersRussian : answers_map :=
  [(1, Answer.mk 1 3 [1044; 1072]%N [])].

(** The same session answered in English. *)
Definition answersEnglish : answers_map :=
  [(1, Answer.mk 1 3 (lit "Yes") [])].




(** Two answers, and the same two answers given in the other order. *)
Definition answersOneTwo : answers_map :=
  [(1, Answer.mk 1 3 (lit "Yes") []); (2, Answer.mk 2 5 (lit "No") [])].

Definition answersTwoOne : answers_map :=
  [(2, Answer.mk 2 5 (lit "No") []); (1, Answer.mk 1 3 (lit "Yes") [])].

Definition savedOneTwo : list SavedResult.t :=
  [SavedResult.mk 1700000000000 answersOneTwo None].

(** A results page over a storage that holds [savedOneTwo]. *)
Definition freshOneTwo : ResultsState :=
  mkResults false (lit "save_results_button")
    (<[lit "quizSavedResults" :=
         JSON_stringify (JArr (List.map jsonOfSavedResult savedOneTwo))]> ∅).

(* ===================================================================== *)
(** * Part I, continued: the rest of the code                             *)
(* ===================================================================== *)

From Stdlib Require Import Qpower Lqa.

(** ** The audio helpers [encode] and [decode] (App.tsx) *)

(** [String.fromCharCode(n)]: the code unit [n] modulo 2^16. *)
Definition fromCharCode (n : N) : N := (n mod 65536)%N.

(** [encode(bytes)]: the bytes as a binary string, through [btoa]. *)
Definition encode (bytes : list N) : result js_exn jsstring :=
  btoa (List.map fromCharCode bytes).

(** *** [atob], the forgiving base64 decoder of the platform *)

(** ASCII whitespace: tab, line feed, form feed, carriage return, space. *)
Definition isAsciiWhitespace (c : N) : bool :=
  ((c =? 9) || (c =? 10) || (c =? 12) || (c =? 13) || (c =? 32))%N.

(** The value of a character of the base64 alphabet. *)
Definition base64Value (c : N) : option N :=
  (if (65 <=? c) && (c <=? 90) then Some (c - 65)
   else if (97 <=? c) && (c <=? 122) then Some (c - 97 + 26)
   else if (48 <=? c) && (c <=? 57) then Some (c - 48 + 52)
   else if c =? 43 then Some 62
   else if c =? 47 then Some 63
   else None)%N.

(** One or two [=] at the end are removed. *)
Definition stripPadding (data : jsstring) : jsstring :=
  match rev data with
  | [] => data
  | c1 :: r1 =>
    if (c1 =? 61)%N then
      match r1 with
      | [] => rev r1
      | c2 :: r2 => if (c2 =? 61)%N then rev r2 else rev r1
      end
    else data
  end.

(** Four sextets give three bytes; of a rest of three or two sextets the
    surplus bits are dropped. *)
Fixpoint decodeSextets (values : list N) : list N :=
  match values with
  | a :: b :: c :: d :: rest =>
    [a * 4 + b / 16; b mod 16 * 16 + c / 4; c mod 4 * 64 + d]%N
    ++ decodeSextets rest
  | [a; b; c] => [a * 4 + b / 16; b mod 16 * 16 + c / 4]%N
  | [a; b] => [a * 4 + b / 16]%N
  | _ => []
  end.

(** [atob(data)]: whitespace is ignored, padding is removed from data whose
    length is a multiple of four, and a length of one more than a multiple
    of four or a character outside the alphabet raises
    InvalidCharacterError. *)
Definition atob (data : jsstring) : result js_exn jsstring :=
  let data1 := List.filter (fun c => negb (isAsciiWhitespace c)) data in
  let data2 := if (length data1 mod 4 =? 0)%nat then stripPadding data1
               else data1 in
  if (length data2 mod 4 =? 1)%nat then Threw InvalidCharacterError
  else
    match mapM base64Value data2 with
    | Some values => Returned (decodeSextets values)
    | None => Threw InvalidCharacterError
    end.

(** [decode(base64)]: the code units of [atob(base64)], stored in a
    [Uint8Array]. *)
Definition decode (base64 : jsstring) : result js_exn (list N) :=
  binaryString ← atob base64;
  mret (List.map (fun c => c mod 256)%N binaryString).

(** The sextets that [base64] prints, before the padding. *)
Fixpoint sextets (bytes : list N) : list N :=
  match bytes with
  | [] => []
  | [a] => [a / 4; a mod 4 * 16]%N
  | [a; b] => [a / 4; a mod 4 * 16 + b / 16; b mod 16 * 4]%N
  | a :: b :: c :: rest =>
    [a / 4; a mod 4 * 16 + b / 16; b mod 16 * 4 + c / 64; c mod 64]%N
    ++ sextets rest
  end.

Definition padding (bytes : list N) : jsstring :=
  match (length bytes mod 3)%nat with
  | 0%nat => []
  | 1%nat => [61; 61]%N
  | _ => [61%N]
  end.

(** ** Fetching the current batch and the next one (App.tsx) *)

Definition BATCH_SIZE : Z := 5.

(** [array.slice(start, end)]: a negative index counts from the end, and
    both are clamped to the array. *)
Definition slice {A : Type} (array : list A) (start end_ : Z) : list A :=
  let len := Z.of_nat (length array) in
  let k := if start <? 0 then Z.max (len + start) 0 else Z.min start len in
  let final := if end_ <? 0 then Z.max (len + end_) 0 else Z.min end_ len in
  firstn (Z.to_nat (final - k)) (skipn (Z.to_nat k) array).

(** [Math.floor(currentQuestionIndex / BATCH_SIZE) * BATCH_SIZE]. *)
Definition batchStartIndex (currentQuestionIndex : Z) : Z :=
  currentQuestionIndex / BATCH_SIZE * BATCH_SIZE.

(** [Math.min(batchStartIndex + BATCH_SIZE, questions.length)]. *)
Definition batchEndIndex (currentQuestionIndex : Z) (length : Z) : Z :=
  Z.min (batchStartIndex currentQuestionIndex + BATCH_SIZE) length.

(** [.filter(q => !optionsCache.has(q.id)).map(({ id, text }) => ({ id, text }))]. *)
Definition notCached (optionsCache : options_map) (questions : list Question.t)
    : list (Z * jsstring) :=
  List.map (fun q => (Question.id q, Question.text q))
    (List.filter (fun q => negb (Map_has (Question.id q) optionsCache)) questions).

Definition batchToFetch (questions : list Question.t) (optionsCache : options_map)
    (currentQuestionIndex : Z) : list (Z * jsstring) :=
  notCached optionsCache
    (slice questions (batchStartIndex currentQuestionIndex)
       (batchEndIndex currentQuestionIndex (Z.of_nat (length questions)))).

(** The window after the current one, looked up in the same cache as the
    current one; empty when the current window reaches the end. *)
Definition batchToPrefetch (questions : list Question.t)
    (optionsCache : options_map) (currentQuestionIndex : Z)
    : list (Z * jsstring) :=
  let len := Z.of_nat (length questions) in
  let prefetchStartIndex := batchEndIndex currentQuestionIndex len in
  if prefetchStartIndex <? len then
    let prefetchEndIndex := Z.min (prefetchStartIndex + BATCH_SIZE) len in
    notCached optionsCache (slice questions prefetchStartIndex prefetchEndIndex)
  else [].

(** What [fetchCurrentAndPrefetchNext] sets out to request. *)
Inductive fetch_plan : Type :=
| NoFetch
| Fetch (batch prefetch : list (Z * jsstring)).

(** The decisions of [fetchCurrentAndPrefetchNext] up to its requests.
    Outside the quiz, without questions, or with the current question in
    the cache it does nothing; reading the id of a question that is not
    there is a TypeError. *)
Definition fetchPlan (state : AppState) (questions : list Question.t)
    (optionsCache : options_map) (currentQuestionIndex : Z)
    : result js_exn fetch_plan :=
  match state with
  | quiz =>
    match questions with
    | [] => Returned NoFetch
    | _ :: _ =>
      match arrayGet questions currentQuestionIndex with
      | None => Threw TypeError
      | Some currentQuestion =>
        if Map_has (Question.id currentQuestion) optionsCache
        then Returned NoFetch
        else Returned (Fetch (batchToFetch questions optionsCache currentQuestionIndex)
                         (batchToPrefetch questions optionsCache currentQuestionIndex))
      end
    end
  | _ => Returned NoFetch
  end.

(** ** Moving through the quiz and leaving it (App.tsx) *)

Definition handlePreviousQuestion {Language : Type} (st : App Language)
    : App Language :=
  if 0 <? currentQuestionIndex (quizState st)
  then onQuiz (setCurrentQuestionIndex (fun prev => prev - 1)) st
  else st.

Definition handleViewSavedResult {Language : Type} (result : SavedResult.t)
    (st : App Language) : App Language :=
  let q := quizState st in
  onQuiz (fun _ =>
    mkQuiz results (currentQuestionIndex q) (answers q) (optionsCache q)
      (shuffledQuestions q) (error q) (worldviewImageHistory q)
      (Some (Map_new (SavedResult.answers result)))
      (SavedResult.worldviewImageUrl result)) st.

Definition handleReturnToHome {Language : Type} (st : App Language)
    : App Language :=
  let q := quizState st in
  onQuiz (fun _ =>
    mkQuiz introduction (currentQuestionIndex q) (answers q) (optionsCache q)
      (shuffledQuestions q) (error q) (worldviewImageHistory q)
      None None) st.

(** [confirmExit]; the flag of the confirmation dialog is not part of the
    embedded state. *)
Definition confirmExit {Language : Type} (st : App Language) : App Language :=
  let q := quizState st in
  mkApp
    (mkQuiz introduction 0 Map_empty Map_empty (shuffledQuestions q) (error q)
       [] (viewingAnswers q) (viewingWorldviewImage q))
    (voice st) (refs st)
    (removeItem quizProgressKey (localStorage st))
    (deviceCalls st).

(** *** The effect that persists the progress *)

Definition appStateName (s : AppState) : jsstring :=
  match s with
  | introduction => lit "introduction"
  | quiz => lit "quiz"
  | results => lit "results"
  end.

Definition jsonOfQuestion (q : Question.t) : json :=
  JObj [ (lit "id", JNum (Question.id q));
         (lit "text", JStr (Question.text q));
         (lit "categoryKey", JStr (Question.categoryKey q));
         (lit "categoryTitle", JStr (Question.categoryTitle q)) ].

(** An option prints the text and the score of its static type. *)
Definition jsonOfOption (o : GeneratedOption.t) : json :=
  JObj [ (lit "text", JStr (GeneratedOption.text o));
         (lit "score", JNum (GeneratedOption.score o)) ].

Definition jsonOfCache (entries : list (Z * list GeneratedOption.t)) : json :=
  JArr (List.map (fun kv => JArr [JNum (fst kv);
                                  JArr (List.map jsonOfOption (snd kv))])
          entries).

(** A hole of the image history prints as [null]. *)
Definition jsonOfHistory (history : list (option jsstring)) : json :=
  JArr (List.map (fun img => match img with
                             | Some url => JStr url
                             | None => JNull
                             end) history).

Definition jsonOfProgress (q : QuizState) : json :=
  JObj [ (lit "appState", JStr (appStateName (appState q)));
         (lit "currentQuestionIndex", JNum (currentQuestionIndex q));
         (lit "answers", jsonOfEntries (Map_entries (answers q)));
         (lit "optionsCache", jsonOfCache (Map_entries (optionsCache q)));
         (lit "shuffledQuestions",
          JArr (List.map jsonOfQuestion (shuffledQuestions q)));
         (lit "worldviewImageHistory",
          jsonOfHistory (worldviewImageHistory q)) ].

(** The effect on the quiz state: during the quiz the progress is written,
    on the introduction screen it is removed unless saved results are
    being viewed, on the results screen the storage is left alone. *)
Definition persistProgress {Language : Type} (st : App Language)
    : App Language :=
  let q := quizState st in
  let storage' :=
    match appState q with
    | quiz =>
      setItem quizProgressKey (JSON_stringify (jsonOfProgress q))
        (localStorage st)
    | introduction =>
      match viewingAnswers q with
      | None => removeItem quizProgressKey (localStorage st)
      | Some _ => localStorage st
      end
    | results => localStorage st
    end in
  mkApp (quizState st) (voice st) (refs st) storage' (deviceCalls st).

(** The current question index points into the question list. *)
Definition indexInBounds (q : QuizState) : Prop :=
  0 <= currentQuestionIndex q < Z.of_nat (length (shuffledQuestions q)).

(** *** The application as a transition system *)

(** The state [loadInitialState] falls back to when nothing is restored. *)
Definition defaultQuizState : QuizState :=
  mkQuiz introduction 0 Map_empty Map_empty initialQuestions None [] None None.

Section Transitions.
Context {Language : Type}.
Variable t : jsstring -> Language -> jsstring.

(** [localizedShuffledQuestions]: each question with its translated text
    and category title, under the keys [q_<id>] and [cat_<key>]. *)
Definition localizedShuffledQuestions (language : Language)
    (shuffledQuestions : list Question.t) : list Question.t :=
  List.map (fun q =>
    Question.mk (Question.id q)
      (t (lit "q_" ++ numberToString (Question.id q)) language)
      (Question.categoryKey q)
      (t (lit "cat_" ++ Question.categoryKey q) language))
    shuffledQuestions.

(** One event of the application: a handler as the rendered screen wires
    it, with the inputs the user or the platform supplies. *)
Inductive step : App Language -> App Language -> Prop :=
| step_start random st st' :
    (forall k, (0 <= random k)%Q /\ (random k < 1)%Q) ->
    handleStartQuiz random st = Some st' ->
    step st st'
| step_card language selectedOption remark currentQuestion st :
    appState (quizState st) = quiz ->
    arrayGet (localizedShuffledQuestions language
                (shuffledQuestions (quizState st)))
             (currentQuestionIndex (quizState st)) = Some currentQuestion ->
    step st (runCardActions
               (handleNext t currentQuestion language selectedOption remark) st)
| step_previous st :
    step st (handlePreviousQuestion st)
| step_voice language currentQuestion currentOptions functionCalls st :
    In (Question.id currentQuestion) (List.map Question.id initialQuestions) ->
    step st (onToolCall currentQuestion currentOptions language functionCalls st)
| step_exit st :
    step st (confirmExit st)
| step_view result st :
    step st (handleViewSavedResult result st)
| step_home st :
    step st (handleReturnToHome st)
| step_persist st :
    step st (persistProgress st).

(** The states the application reaches from a fresh start. *)
Inductive reachable : App Language -> Prop :=
| reachable_start v r s d :
    reachable (mkApp defaultQuizState v r s d)
| reachable_step st st' :
    reachable st -> step st st' -> reachable st'.

End Transitions.

(** What every reachable state satisfies. *)
Definition wellFormedQuiz (q : QuizState) : Prop :=
  Permutation (shuffledQuestions q) initialQuestions /\
  indexInBounds q /\
  List.NoDup (List.map fst (answers q)) /\
  (forall k a, In (k, a) (answers q) ->
     Answer.questionId a = k /\
     In k (List.map Question.id initialQuestions)) /\
  (appState q = quiz -> viewingAnswers q = None).

(** ** The worldview image (App.tsx) *)

(** [prompts.length]: the fourteen stages of the image. *)
Definition promptCount : Z := 14.

(** [Math.min(prompts.length - 1, Math.floor((answeredCount - 1) / 10))],
    the stage [updateWorldviewImage] draws. *)
Definition imageStage (answeredCount : Z) : Z :=
  Z.min (promptCount - 1) ((answeredCount - 1) / 10).

(** [Math.floor((answeredCount - 1) / 10)], the index the effect looks at. *)
Definition currentStageIndex (answeredCount : Z) : Z :=
  (answeredCount - 1) / 10.

(** The condition under which the effect asks for a new image. *)
Definition imageEffectFires (q : QuizState) : bool :=
  let answeredCount := Map_size (answers q) in
  match appState q with
  | quiz =>
    (0 <? answeredCount) && (Z.rem answeredCount 10 =? 0) &&
    match arrayGet (worldviewImageHistory q) (currentStageIndex answeredCount) with
    | Some (Some url) => negb (truthy_string url)
    | _ => true
    end
  | _ => false
  end.

(** [newHistory[stage] = imageUrl] on a copy, for a stage that is an array
    index: writing past the end leaves holes in between. *)
Definition setImage (history : list (option jsstring)) (stage : nat)
    (imageUrl : jsstring) : list (option jsstring) :=
  if (stage <? length history)%nat then <[stage := Some imageUrl]> history
  else history ++ replicate (stage - length history) None ++ [Some imageUrl].

(** [history.slice().reverse().find(img => img)]: the last image that is
    there, if any. *)
Definition latestImage (history : list (option jsstring)) : option jsstring :=
  match List.find (fun img => match img with
                              | Some url => truthy_string url
                              | None => false
                              end) (rev history) with
  | Some img => img
  | None => None
  end.

(** ** The personality type and the score levels (Results.tsx) *)








(** [initialQuestionsData.allQuestions.length * MAX_SCORE_PER_QUESTION]. *)
Definition maxScore : Z :=
  Z.of_nat (length initialQuestions) * MAX_SCORE_PER_QUESTION.


(** The sum of a list of integers. *)
Definition sumZ (l : list Z) : Z := fold_right Z.add 0 l.

(** The score of the answer to a question, 0 without an answer. *)
Definition scoreOf (answers : answers_map) (questionId : Z) : Z :=
  match Map_get questionId answers with
  | Some a => Answer.score a
  | None => 0
  end.





(** ** The state of the question card (components/QuestionCard.tsx) *)

Module Card.
Record t : Type := mk {
  selectedOption : option GeneratedOption.t;
  remark : jsstring
}.
End Card.

(** [currentOptions?.find(opt => opt.text === currentAnswer?.optionText)
    || null]: without an answer the text is compared with [undefined],
    which equals no string. *)
Definition previouslySelectedOption
    (currentOptions : option (list GeneratedOption.t))
    (currentAnswer : option Answer.t) : option GeneratedOption.t :=
  match currentOptions with
  | Some options =>
    List.find (fun opt =>
                 match currentAnswer with
                 | Some answer =>
                   bool_decide (GeneratedOption.text opt = Answer.optionText answer)
                 | None => false
                 end) options
  | None => None
  end.

(** What the effect on [[question.id, currentAnswer, currentOptions]] sets
    when its timer fires. *)
Definition preselect (currentOptions : option (list GeneratedOption.t))
    (currentAnswer : option Answer.t) : Card.t :=
  Card.mk (previouslySelectedOption currentOptions currentAnswer)
    match currentAnswer with
    | Some answer =>
      if truthy_string (Answer.remark answer) then Answer.remark answer else []
    | None => []
    end.

Definition handleOptionClick (option : GeneratedOption.t) (c : Card.t) : Card.t :=
  match Card.selectedOption c with
  | Some selected =>
    if bool_decide (GeneratedOption.text selected = GeneratedOption.text option)
    then Card.mk None (Card.remark c)
    else Card.mk (Some option) (Card.remark c)
  | None => Card.mk (Some option) (Card.remark c)
  end.

(** The [disabled] attribute of the Next button:
    [(!selectedOption && !remark.trim()) || isLoading || !!error]. *)
Definition nextDisabled (c : Card.t) (isLoading : bool)
    (error : option jsstring) : bool :=
  (negb (bool_decide (is_Some (Card.selectedOption c)))
   && negb (truthy_string (trim (Card.remark c))))
  || isLoading
  || match error with
     | Some message => truthy_string message
     | None => false
     end.

(** ** The language and the speech setting (App.tsx, i18n.ts) *)

(** The [code] fields of [supportedLanguages], in their order. *)
Definition supportedLanguageCodes : list jsstring :=
  [lit "ru"; lit "en"; lit "de"; lit "fr"; lit "es"; lit "zh"; lit "ko"].

(** [loadLanguage]: a missing item is [null], which is no code. *)
Definition loadLanguage (s : storage) : jsstring :=
  match getItem (lit "quizLanguage") s with
  | Some savedLang =>
    if existsb (fun code => bool_decide (code = savedLang)) supportedLanguageCodes
    then savedLang else lit "ru"
  | None => lit "ru"
  end.

(** The effect on [[language]], as far as the storage goes. *)
Definition persistLanguage (language : jsstring) (s : storage) : storage :=
  setItem (lit "quizLanguage") language s.

Definition loadTtsSetting (s : storage) : bool :=
  match getItem (lit "ttsEnabled") s with
  | Some saved => bool_decide (saved = lit "true")
  | None => false
  end.

(** The effect on [[isTtsEnabled]]: [String(isTtsEnabled)] is stored. *)
Definition persistTtsSetting (isTtsEnabled : bool) (s : storage) : storage :=
  setItem (lit "ttsEnabled") (lit (if isTtsEnabled then "true" else "false")) s.

(** ** The transcript of a voice turn ([onmessage], App.tsx) *)

(** The fields of [message.serverContent] that the transcript reads: the
    text of each transcription that is present, and [turnComplete]. *)
Record ServerContent : Type := mkContent {
  outputTranscription : option jsstring;
  inputTranscription : option jsstring;
  turnComplete : bool
}.

(** The two transcription buffers of a live session. *)
Record Transcripts : Type := mkTranscripts {
  currentInputTranscription : jsstring;
  currentOutputTranscription : jsstring
}.

(** The part of [onmessage] between the tool calls and the audio, on the
    buffers and the chat history. *)
Definition onServerContent (content : ServerContent)
    (state : Transcripts * list ChatMessage) : Transcripts * list ChatMessage :=
  let (buffers, history) := state in
  let output :=
    match outputTranscription content with
    | Some text => currentOutputTranscription buffers ++ text
    | None => currentOutputTranscription buffers
    end in
  let input :=
    match inputTranscription content with
    | Some text => currentInputTranscription buffers ++ text
    | None => currentInputTranscription buffers
    end in
  if turnComplete content then
    let userInput := trim input in
    let modelOutput := trim output in
    let newHistory :=
      (if truthy_string userInput then [mkChat user userInput] else []) ++
      (if truthy_string modelOutput then [mkChat model modelOutput] else []) in
    (mkTranscripts [] [],
     if (0 <? Z.of_nat (length newHistory)) then history ++ newHistory
     else history)
  else (mkTranscripts input output, history).

(** The messages of a session, in the order they arrive. *)
Definition onServerContents (contents : list ServerContent)
    (state : Transcripts * list ChatMessage) : Transcripts * list ChatMessage :=
  fold_left (fun s content => onServerContent content s) contents state.

(** The text of a transcription, nothing when it is absent. *)
Definition transcribed (piece : option jsstring) : jsstring :=
  match piece with
  | Some text => text
  | None => []
  end.
(* ===================================================================== *)
(** * Part II: properties                                                 *)
(* ===================================================================== *)

(** ** The retry wrapper *)

Section WithRetryFacts.
Context {W E T : Type}.
Variable toString : E -> jsstring.
Variable apiCall : W -> result E T * W.
Variable random : nat -> Q.

(** The loop needs one iteration per remaining attempt and one more to
    leave: with that much fuel it always produces an outcome. *)
Lemma withRetry_loop_total (fuel : nat) :
  forall maxRetries initialDelay attempt w l,
    (Z.to_nat (maxRetries - attempt) < fuel)%nat ->
    is_Some (withRetry_loop toString apiCall random fuel maxRetries
               initialDelay attempt w l).
Proof.
  induction fuel as [|fuel IH]; intros maxRetries initialDelay attempt w l Hfuel.
  - lia.
  - simpl. destruct (Z.ltb_spec attempt maxRetries) as [Hlt|Hge]; [|eauto].
    destruct (apiCall w) as [[v|e] w']; [eauto|].
    destruct (isRateLimitError toString e); simpl; [|eauto].
    destruct (Z.ltb_spec attempt (maxRetries - 1)); [|eauto].
    apply IH. lia.
Qed.

(** [withRetry] terminates, whatever the operation does. *)
Lemma withRetry_total maxRetries initialDelay w :
  is_Some (withRetry toString apiCall random maxRetries initialDelay w).
Proof. apply withRetry_loop_total. lia. Qed.

(** With no attempt left the loop is not entered and the generic error
    after the loop is thrown, without an invocation. *)
Lemma withRetry_no_budget maxRetries initialDelay w :
  maxRetries <= 0 ->
  withRetry toString apiCall random maxRetries initialDelay w
  = Some (Threw MaxRetriesReached, w, RetryLog 0 []).
Proof.
  intros Hle. unfold withRetry. simpl.
  destruct (Z.ltb_spec 0 maxRetries); [lia|reflexivity].
Qed.

(** An operation that keeps failing with rate-limit errors is invoked once
    per remaining attempt; the error of the last invocation is thrown. *)
Lemma withRetry_loop_all_rate_limited maxRetries initialDelay :
  (forall w, exists e w',
      apiCall w = (Threw e, w') /\ isRateLimitError toString e = true) ->
  forall (n fuel : nat) attempt w l,
    (n < fuel)%nat ->
    attempt + Z.of_nat (S n) = maxRetries ->
    exists e w' l',
      withRetry_loop toString apiCall random fuel maxRetries initialDelay
        attempt w l = Some (Threw (Rethrown e), w', l') /\
      apiCall (Nat.iter n (fun w => snd (apiCall w)) w) = (Threw e, w') /\
      isRateLimitError toString e = true /\
      calls l' = (calls l + S n)%nat /\
      length (sleeps l') = (length (sleeps l) + n)%nat.
Proof.
  intros Hfail n. induction n as [|n IH]; intros fuel attempt w l Hfuel Hatt.
  - destruct fuel as [|fuel]; [lia|]. simpl.
    destruct (Z.ltb_spec attempt maxRetries); [|lia].
    destruct (Hfail w) as (e & w' & Hcall & Hrl). rewrite Hcall, Hrl. simpl.
    destruct (Z.ltb_spec attempt (maxRetries - 1)); [lia|].
    exists e, w', (log_call l). simpl. repeat split; auto; lia.
  - destruct fuel as [|fuel]; [lia|]. rewrite Nat.iter_succ_r. simpl.
    destruct (Z.ltb_spec attempt maxRetries); [|lia].
    destruct (Hfail w) as (e & w' & Hcall & Hrl). rewrite Hcall, Hrl. simpl.
    destruct (Z.ltb_spec attempt (maxRetries - 1)); [|lia].
    edestruct (IH fuel (attempt + 1) w') as (e' & w'' & l' & Hrun & Hlast & Hrl' & Hc & Hs);
      [lia|lia|].
    exists e', w'', l'. rewrite Hrun. repeat split; auto.
    + rewrite Hc. simpl. lia.
    + rewrite Hs. simpl. rewrite length_app. simpl. lia.
Qed.

(** C1.  An operation that fails on its first two invocations with a
    rate-limit-shaped error and succeeds on the third: [withRetry] with the
    default budget returns that success; the operation has been invoked
    exactly three times, which is the configured maximum, with one backoff
    delay after each failure. *)
Theorem withRetry_succeeds_on_third_attempt
    (w0 w1 w2 w3 : W) (e1 e2 : E) (v : T) :
  apiCall w0 = (Threw e1, w1) ->
  isRateLimitError toString e1 = true ->
  apiCall w1 = (Threw e2, w2) ->
  isRateLimitError toString e2 = true ->
  apiCall w2 = (Returned v, w3) ->
  exists log,
    withRetry_default toString apiCall random w0 = Some (Returned v, w3, log) /\
    calls log = 3%nat /\
    (Z.of_nat (calls log) <= 3) /\
    sleeps log = [backoffDelay 1000 1 (random 0); backoffDelay 1000 2 (random 1)].
Proof.
  intros H1 Hrl1 H2 Hrl2 H3.
  eexists. unfold withRetry_default, withRetry. simpl.
  rewrite H1, Hrl1. simpl. rewrite H2, Hrl2. simpl. rewrite H3.
  repeat split. simpl. lia.
Qed.

(** C2.  When the first invocation fails with an error that is not
    rate-limit-shaped, [withRetry] throws that same error after exactly one
    invocation and without any backoff delay. *)
Theorem withRetry_rethrows_other_errors
    (maxRetries : Z) (initialDelay : Q) (w0 w1 : W) (e : E) :
  0 < maxRetries ->
  apiCall w0 = (Threw e, w1) ->
  isRateLimitError toString e = false ->
  withRetry toString apiCall random maxRetries initialDelay w0
  = Some (Threw (Rethrown e), w1, RetryLog 1 []).
Proof.
  intros Hpos Hcall Hrl. unfold withRetry. simpl.
  destruct (Z.ltb_spec 0 maxRetries); [|lia].
  rewrite Hcall, Hrl. reflexivity.
Qed.

(** C3, as the code has it.  When every invocation fails with a
    rate-limit-shaped error and the budget is at least one, the operation
    is invoked [maxRetries] times with [maxRetries - 1] backoff delays, and
    [withRetry] throws the operation's own error of the last invocation,
    the one made after [maxRetries - 1] failed ones. *)
Theorem withRetry_exhausted_rethrows_last_error
    (maxRetries : Z) (initialDelay : Q) (w0 : W) :
  0 < maxRetries ->
  (forall w, exists e w',
      apiCall w = (Threw e, w') /\ isRateLimitError toString e = true) ->
  exists e w' log,
    withRetry toString apiCall random maxRetries initialDelay w0
    = Some (Threw (Rethrown e), w', log) /\
    apiCall (Nat.iter (Z.to_nat (maxRetries - 1))
               (fun w => snd (apiCall w)) w0) = (Threw e, w') /\
    isRateLimitError toString e = true /\
    Z.of_nat (calls log) = maxRetries /\
    Z.of_nat (length (sleeps log)) = maxRetries - 1.
Proof.
  intros Hpos Hfail.
  destruct (withRetry_loop_all_rate_limited maxRetries initialDelay Hfail
              (Z.to_nat (maxRetries - 1)) (S (Z.to_nat maxRetries)) 0 w0
              (RetryLog 0 []))
    as (e & w' & l' & Hrun & Hlast & Hrl & Hc & Hs); [lia|lia|].
  exists e, w', l'. unfold withRetry. rewrite Hrun.
  repeat split; auto; simpl in *; lia.
Qed.

End WithRetryFacts.

(** C1 at [failsTwice]. *)
Lemma withRetry_succeeds_on_third_attempt_witness :
  exists log,
    withRetry_default id failsTwice noJitter 0%nat = Some (Returned 7, 3%nat, log) /\
    calls log = 3%nat /\
    (Z.of_nat (calls log) <= 3) /\
    sleeps log = [backoffDelay 1000 1 (noJitter 0); backoffDelay 1000 2 (noJitter 1)].
Proof.
  apply (withRetry_succeeds_on_third_attempt id failsTwice noJitter
           0%nat 1%nat 2%nat 3%nat error429 error429 7);
    reflexivity.
Defined.

(** C2 at [failsOtherwise], with the default budget. *)
Lemma withRetry_rethrows_other_errors_witness :
  withRetry id failsOtherwise noJitter 3 1000 0%nat
  = Some (Threw (Rethrown error500), 1%nat, RetryLog 1 []).
Proof.
  apply (withRetry_rethrows_other_errors id failsOtherwise noJitter
           3 1000 0%nat 1%nat error500); [lia|reflexivity|reflexivity].
Defined.

(** C3 at [alwaysRateLimited], with the default budget. *)
Lemma withRetry_exhausted_rethrows_last_error_witness :
  exists e w' log,
    withRetry id alwaysRateLimited noJitter 3 1000 0%nat
    = Some (Threw (Rethrown e), w', log) /\
    alwaysRateLimited (Nat.iter (Z.to_nat (3 - 1))
                         (fun w => snd (alwaysRateLimited w)) 0%nat)
    = (Threw e, w') /\
    isRateLimitError id e = true /\
    Z.of_nat (calls log) = 3 /\
    Z.of_nat (length (sleeps log)) = 3 - 1.
Proof.
  apply (withRetry_exhausted_rethrows_last_error id alwaysRateLimited noJitter
           3 1000 0%nat); [lia|].
  intros w. exists error429, (S w). split; reflexivity.
Defined.

(** C3 as stated fails: with the default budget an operation that is
    rate-limited on every invocation gets its own error back after three
    invocations, not the generic "max retries reached" error. *)
Lemma withRetry_exhaustion_counterexample :
  withRetry_default id alwaysRateLimited noJitter 0%nat
  = Some (Threw (Rethrown error429), 3%nat,
          RetryLog 3 [backoffDelay 1000 1 0; backoffDelay 1000 2 0]) /\
  forall w log,
    withRetry_default id alwaysRateLimited noJitter 0%nat
    <> Some (Threw MaxRetriesReached, w, log).
Proof.
  split; [reflexivity|]. intros w log H. vm_compute in H. discriminate H.
Qed.

(** ** [Map] *)

Section JsMapFacts.
Context {K V : Type} `{EqDecision K}.
Implicit Types (m : jsmap K V) (k : K) (v : V).

Lemma Map_get_set k' k v m :
  Map_get k' (Map_set k v m) = if decide (k' = k) then Some v else Map_get k' m.
Proof.
  induction m as [|[k0 v0] m IH]; simpl.
  - repeat case_decide; congruence.
  - destruct (decide (k = k0)) as [->|Hne]; simpl.
    + repeat case_decide; congruence.
    + rewrite IH. repeat case_decide; congruence.
Qed.

Lemma Map_get_set_eq k v m : Map_get k (Map_set k v m) = Some v.
Proof. rewrite Map_get_set. case_decide; congruence. Qed.

Lemma Map_get_set_ne k' k v m :
  k' <> k -> Map_get k' (Map_set k v m) = Map_get k' m.
Proof. intros. rewrite Map_get_set. case_decide; congruence. Qed.

(** Setting a key never removes another one. *)
Lemma Map_set_keys k v m :
  forall k', is_Some (Map_get k' m) -> is_Some (Map_get k' (Map_set k v m)).
Proof. intros k' Hk. rewrite Map_get_set. case_decide; eauto. Qed.

End JsMapFacts.

(** A fold of [set] over bindings with integer keys looks up to the last
    binding of the key, and to the old map for a key that is not bound. *)
Lemma Map_get_fold_set {V : Type} (entries : list (Z * V)) :
  forall (m : jsmap Z V) k,
    Map_get k (fold_left (fun m kv => Map_set (fst kv) (snd kv) m) entries m)
    = match lastEntry k entries with
      | Some v => Some v
      | None => Map_get k m
      end.
Proof.
  induction entries as [|[k0 v0] entries IH]; intros m k; simpl; [done|].
  rewrite IH. destruct (lastEntry k entries); [done|].
  rewrite Map_get_set. simpl. case_decide; done.
Qed.

Lemma Map_get_new {V : Type} (entries : list (Z * V)) k :
  Map_get k (Map_new entries) = lastEntry k entries.
Proof.
  unfold Map_new. rewrite Map_get_fold_set.
  destruct (lastEntry k entries); done.
Qed.

(** ** The batched option fetch *)

(** The typed view of an option reads what the specification reads. *)
Lemma asGeneratedOption_spec (opt : json) :
  asGeneratedOption opt = specOption opt.
Proof. destruct opt; reflexivity. Qed.

Lemma asGeneratedOptions_spec (opts : list json) :
  asGeneratedOptions opts = omap specOption opts.
Proof.
  unfold asGeneratedOptions. induction opts as [|o opts IH]; [done|].
  change (omap asGeneratedOption (o :: opts))
    with (match asGeneratedOption o with
          | Some g => g :: omap asGeneratedOption opts
          | None => omap asGeneratedOption opts
          end).
  rewrite asGeneratedOption_spec, IH. done.
Qed.

(** The check of one option accepts what the specification accepts; only a
    [null] makes it throw. *)
Lemma optionIsValid_spec (opt : json) :
  opt <> JNull ->
  optionIsValid opt = Returned (bool_decide (is_Some (specOption opt))).
Proof.
  intros Hnull. destruct opt as [| | | | |props]; try done.
  unfold optionIsValid, specOption. simpl.
  destruct (lookup_prop (lit "text") props) as [[]|]; simpl; try done.
  destruct (lookup_prop (lit "score") props) as [[]|]; simpl; done.
Qed.

Lemma optionIsValid_null : optionIsValid JNull = Threw TypeError.
Proof. reflexivity. Qed.

Lemma every_optionIsValid_spec (opts : list json) :
  ~ In JNull opts ->
  every optionIsValid opts
  = Returned (bool_decide (is_Some (mapM specOption opts))).
Proof.
  induction opts as [|o opts IH]; intros Hnull; simpl.
  - done.
  - rewrite optionIsValid_spec by (intros ->; apply Hnull; left; done).
    simpl. destruct (specOption o) as [g|] eqn:Hg; simpl.
    + rewrite IH by (intros Hin; apply Hnull; right; exact Hin).
      destruct (mapM specOption opts); simpl; done.
    + done.
Qed.

Lemma mapM_omap {A B : Type} (f : A -> option B) (l : list A) (k : list B) :
  mapM f l = Some k -> omap f l = k.
Proof.
  revert k. induction l as [|x l IH]; intros k; simpl.
  - intros [= <-]. done.
  - destruct (f x) as [y|]; simpl; [|done].
    destruct (mapM f l) as [k'|]; simpl; [|done].
    intros [= <-]. f_equal. apply IH. done.
Qed.

(** The check of one entry, when no option is [null]. *)
Lemma itemIsValid_spec (item : json) :
  (forall opts, optionsOf item = Some opts -> ~ In JNull opts) ->
  itemIsValid item = Returned (bool_decide (is_Some (specEntry item))).
Proof.
  intros Hnull. destruct item as [|b|n|s| |props]; simpl; try done.
  - destruct b; done.
  - unfold itemIsValid. simpl. destruct (negb (n =? 0)); done.
  - unfold itemIsValid. simpl. destruct (truthy_string s); done.
  - unfold itemIsValid, specEntry. simpl.
    destruct (lookup_prop (lit "questionId") props) as [[]|]; simpl; try done.
    destruct (lookup_prop (lit "options") props) as [[| | | |opts|]|] eqn:Hopts;
      simpl; try done.
    rewrite every_optionIsValid_spec.
    + destruct (mapM specOption opts); simpl; done.
    + apply Hnull. unfold optionsOf. simpl. rewrite Hopts. done.
Qed.

(** What an accepted entry writes to the map. *)
Lemma specEntry_binding (item : json) (questionId : Z)
    (opts' : list GeneratedOption.t) :
  specEntry item = Some (questionId, opts') ->
  exists opts,
    questionIdOf item = Some questionId /\
    optionsOf item = Some opts /\
    asGeneratedOptions opts = opts'.
Proof.
  destruct item as [| | | | |props]; simpl; try done.
  unfold questionIdOf, optionsOf. simpl.
  destruct (lookup_prop (lit "questionId") props) as [[]|]; simpl; try done.
  destruct (lookup_prop (lit "options") props) as [[| | | |opts|]|];
    simpl; try done.
  destruct (mapM specOption opts) as [k|] eqn:Hk; simpl; [|done].
  intros [= <- <-]. exists opts. repeat split.
  rewrite asGeneratedOptions_spec. apply mapM_omap. done.
Qed.

(** The loop over a response without [null] options: it never throws, sets
    the accepted entries in order and warns about each rejected one. *)
Lemma collectOptions_spec (results : list json) :
  nullFreeOptions results ->
  forall optionsMap console,
    collectOptions results optionsMap console
    = (Returned (fold_left (fun m kv => Map_set (fst kv) (snd kv) m)
                   (specEntries results) optionsMap),
       console ++ List.map WarnInvalidItem (rejectedItems results)).
Proof.
  induction results as [|item rest IH]; intros Hnull optionsMap console.
  - simpl. rewrite app_nil_r. done.
  - assert (Hrest : nullFreeOptions rest).
    { intros it opts Hin. apply Hnull. right. done. }
    simpl. rewrite itemIsValid_spec by (intros opts; apply Hnull; left; done).
    unfold specEntries, rejectedItems. simpl.
    destruct (specEntry item) as [[questionId opts']|] eqn:Hentry.
    + rewrite bool_decide_true by eauto.
      destruct (specEntry_binding _ _ _ Hentry) as (opts & -> & -> & ->).
      rewrite IH by done. done.
    + rewrite bool_decide_false by (intros [? ?]; done).
      rewrite IH by done. simpl. rewrite <- app_assoc. done.
Qed.

Lemma trim_nil : trim [] = [].
Proof. reflexivity. Qed.

Lemma truthy_trim (s : jsstring) :
  truthy_string (trim s) = true -> truthy_string s = true.
Proof. destruct s; [done|reflexivity]. Qed.

(** Bindings of a map, as list members. *)
Lemma Map_get_In {K V : Type} `{EqDecision K} (m : jsmap K V) k v :
  Map_get k m = Some v -> In (k, v) m.
Proof.
  induction m as [|[k0 v0] m IH]; simpl; [done|].
  case_decide as Heq; [intros [= ->]; subst; left; done|].
  intros Hget. right. apply IH. done.
Qed.

Lemma Map_set_In {K V : Type} `{EqDecision K} (m : jsmap K V) k v kv :
  In kv (Map_set k v m) -> kv = (k, v) \/ In kv m.
Proof.
  induction m as [|[k0 v0] m IH]; simpl.
  - intros [<-|[]]. left. done.
  - case_decide as Heq; simpl.
    + intros [<-|Hin]; [left; done|right; right; done].
    + intros [<-|Hin]; [right; left; done|].
      destruct (IH Hin) as [->|Hin']; [left; done|right; right; done].
Qed.

Lemma lastEntry_In {V : Type} (entries : list (Z * V)) k v :
  lastEntry k entries = Some v -> In (k, v) entries.
Proof.
  induction entries as [|[k0 v0] entries IH]; simpl; [done|].
  destruct (lastEntry k entries) as [v'|].
  - intros [= ->]. right. apply IH. done.
  - case_decide as Heq; [|done]. intros [= ->]. subst. left. done.
Qed.

(** Where a binding of the collected map comes from: the map the loop
    started with, or an entry of the response whose options were read. *)
Lemma collectOptions_provenance (results : list json) :
  forall optionsMap console optionsMap' console',
    collectOptions results optionsMap console = (Returned optionsMap', console') ->
    forall questionId opts,
      In (questionId, opts) optionsMap' ->
      In (questionId, opts) optionsMap \/
      exists item optsJ,
        In item results /\ optionsOf item = Some optsJ /\
        asGeneratedOptions optsJ = opts.
Proof.
  induction results as [|item rest IH];
    intros optionsMap console optionsMap' console' Hrun questionId opts Hget.
  - simpl in Hrun. injection Hrun as <- <-. left. done.
  - assert (Hlater : forall m c,
      collectOptions rest m c = (Returned optionsMap', console') ->
      In (questionId, opts) m \/
      exists it oj, In it (item :: rest) /\ optionsOf it = Some oj /\
                    asGeneratedOptions oj = opts).
    { intros m c Hrun'.
      destruct (IH _ _ _ _ Hrun' _ _ Hget) as [Hold|(it & oj & Hin & Hoj & Has)];
        [left; done|].
      right. exists it, oj. repeat split; [right|..]; done. }
    simpl in Hrun. destruct (itemIsValid item) as [[|]|e]; [| |done].
    + destruct (questionIdOf item) as [k|] eqn:Hk;
        [destruct (optionsOf item) as [optsJ|] eqn:Ho|]; eauto.
      destruct (Hlater _ _ Hrun) as [Hold|Hnew]; [|right; done].
      apply Map_set_In in Hold as [[= -> ->]|Hold]; [|left; done].
      right. exists item, optsJ. repeat split; [left|..]; done.
    + eauto.
Qed.

(** An option in the typed view of an array is the view of an element, and
    carries that element's text and score. *)
Lemma asGeneratedOptions_elem (optsJ : list json) (g : GeneratedOption.t) :
  In g (asGeneratedOptions optsJ) ->
  exists opt,
    In opt optsJ /\
    getProp opt (lit "score") = Returned (Some (JNum (GeneratedOption.score g))) /\
    getProp opt (lit "text") = Returned (Some (JStr (GeneratedOption.text g))).
Proof.
  unfold asGeneratedOptions. intros Hin.
  apply list_elem_of_In, list_elem_of_omap in Hin as (opt & Hopt & Hg).
  exists opt. split; [apply list_elem_of_In; done|].
  destruct opt as [| | | | |props]; try done.
  unfold asGeneratedOption in Hg. simpl in *.
  destruct (lookup_prop (lit "text") props) as [[]|]; try done.
  destruct (lookup_prop (lit "score") props) as [[]|]; try done.
  injection Hg as <-. done.
Qed.

Lemma optionsFromResults_returned requested results optionsMap console :
  optionsFromResults requested results = (Returned optionsMap, console) ->
  exists console0,
    collectOptions results Map_empty [] = (Returned optionsMap, console0).
Proof.
  unfold optionsFromResults.
  destruct (collectOptions results Map_empty []) as [[m|e] c]; [|done].
  intros [= <- <-]. eauto.
Qed.

(** C8, as the code has it.  The fetch checks the type of a score, not its
    range: when every score the response carries lies between 0 and 5, so
    does the score of every option that the fetch merges into the cache.  A
    binding of the merged cache is an old one or such a new one. *)
Theorem merged_scores_in_range
    (requested : Z) (results : list json)
    (optionsMap : options_map) (console : list console_entry)
    (prev : options_map) :
  scoresInRange results ->
  optionsFromResults requested results = (Returned optionsMap, console) ->
  forall questionId opts,
    Map_get questionId (mergeOptions prev optionsMap) = Some opts ->
    Map_get questionId prev = Some opts \/
    (In (questionId, opts) optionsMap /\
     forall g, In g opts -> 0 <= GeneratedOption.score g <= 5).
Proof.
  intros Hrange Hrun questionId opts Hget.
  unfold mergeOptions in Hget. rewrite Map_get_fold_set in Hget.
  destruct (lastEntry questionId optionsMap) as [opts'|] eqn:Hlast;
    [|left; done].
  injection Hget as ->. right. apply lastEntry_In in Hlast.
  split; [done|]. intros g Hg.
  destruct (optionsFromResults_returned _ _ _ _ Hrun) as (console0 & Hcollect).
  destruct (collectOptions_provenance _ _ _ _ _ Hcollect _ _ Hlast)
    as [[]|(item & optsJ & Hitem & Hopts & <-)].
  apply asGeneratedOptions_elem in Hg as (opt & Hopt & Hscore & _).
  eapply Hrange; eauto.
Qed.

Section BatchFetchFacts.
Context {Language W E : Type}.
Variable t : jsstring -> Language -> jsstring.
Variable JSON_parse : jsstring -> option json.
Variable toString : E -> jsstring.
Variable isSyntaxError : E -> bool.
Variable generateContent :
  Language -> jsstring -> W -> result E (option jsstring) * W.
Variable random : nat -> Q.
Variable apiKey : option jsstring.

(** With nothing to ask, nothing is requested. *)
Lemma generateBatchQuestionOptions_empty (lang : Language) (w : W) :
  generateBatchQuestionOptions t JSON_parse toString isSyntaxError
    generateContent random apiKey [] lang w
  = Some (Returned Map_empty, [], w).
Proof. reflexivity. Qed.

(** The fetch always settles. *)
Lemma generateBatchQuestionOptions_total questions (lang : Language) (w : W) :
  is_Some (generateBatchQuestionOptions t JSON_parse toString isSyntaxError
             generateContent random apiKey questions lang w).
Proof.
  unfold generateBatchQuestionOptions.
  destruct questions as [|q questions]; [eauto|].
  destruct apiKey as [key|]; [|eauto].
  destruct (negb (truthy_string key)); [eauto|].
  destruct (withRetry_total toString
              (generateContent lang (batchPrompt (q :: questions))) random
              3 1000 w) as [[[r w'] l] Hr].
  unfold withRetry_default. rewrite Hr.
  destruct (catchFetch t isSyntaxError lang _). eauto.
Qed.

(** C4, as the code has it.  For a non-empty batch, an API key and a
    response text that parses to an array without [null] options, the fetch
    returns a map and raises no error.  The map binds each id to the
    options of the last response entry that has a numeric [questionId] and
    an [options] array of objects with a string [text] and a numeric
    [score]; every other entry is dropped with a warning.  One more warning
    is logged exactly when the size of the map differs from the number of
    requested questions, and the map is returned in either case. *)
Theorem generateBatchQuestionOptions_accepted_entries
    (questions : list (Z * jsstring)) (lang : Language) (w w' : W)
    (key text : jsstring) (rlog : retry_log) (results : list json) :
  questions <> [] ->
  apiKey = Some key ->
  truthy_string key = true ->
  withRetry_default toString (generateContent lang (batchPrompt questions))
    random w = Some (Returned (Some text), w', rlog) ->
  truthy_string (trim text) = true ->
  JSON_parse (extractArrayText (trim text)) = Some (JArr results) ->
  nullFreeOptions results ->
  exists optionsMap,
    generateBatchQuestionOptions t JSON_parse toString isSyntaxError
      generateContent random apiKey questions lang w
    = Some (Returned optionsMap,
            List.map WarnInvalidItem (rejectedItems results) ++
            (if Map_size optionsMap =? Z.of_nat (length questions) then []
             else [WarnIncomplete (Z.of_nat (length questions))
                     (Map_size optionsMap)]),
            w') /\
    forall questionId,
      Map_get questionId optionsMap = lastEntry questionId (specEntries results).
Proof.
  intros Hq Hkey Hkey' Hcall Htext Hparse Hnull.
  exists (Map_new (specEntries results)). split; [|apply Map_get_new].
  unfold generateBatchQuestionOptions.
  destruct questions as [|q questions]; [done|].
  rewrite Hkey, Hkey'. simpl negb. cbv iota.
  rewrite Hcall. unfold readResponse.
  rewrite (truthy_trim _ Htext), Htext. simpl negb. cbv iota.
  rewrite Hparse. unfold optionsFromResults.
  rewrite collectOptions_spec by done.
  unfold catchFetch, warnIfIncomplete, Map_new. simpl app.
  destruct (Map_size _ =? _); [rewrite app_nil_r|]; reflexivity.
Qed.

End BatchFetchFacts.

(** C4 at [responseMixed]: the malformed second entry is dropped with a
    warning and both requested questions get their options. *)
Lemma generateBatchQuestionOptions_accepted_entries_witness :
  exists optionsMap,
    generateBatchQuestionOptions englishKeys (parses (JArr responseMixed)) id
      (fun _ => false) (answersWith (JSON_stringify (JArr responseMixed)))
      noJitter (Some (lit "key")) twoQuestions tt tt
    = Some (Returned optionsMap,
            List.map WarnInvalidItem (rejectedItems responseMixed) ++
            (if Map_size optionsMap =? Z.of_nat (length twoQuestions) then []
             else [WarnIncomplete (Z.of_nat (length twoQuestions))
                     (Map_size optionsMap)]),
            tt) /\
    forall questionId,
      Map_get questionId optionsMap
      = lastEntry questionId (specEntries responseMixed).
Proof.
  apply (generateBatchQuestionOptions_accepted_entries englishKeys
           (parses (JArr responseMixed)) id (fun _ => false)
           (answersWith (JSON_stringify (JArr responseMixed))) noJitter
           (Some (lit "key")) twoQuestions tt tt tt (lit "key")
           (JSON_stringify (JArr responseMixed)) (RetryLog 1 []) responseMixed).
  - discriminate.
  - reflexivity.
  - reflexivity.
  - reflexivity.
  - vm_compute. reflexivity.
  - vm_compute. reflexivity.
  - intros item opts Hin Hopts Hnull. simpl in Hin.
    destruct Hin as [<-|[<-|[<-|[]]]]; vm_compute in Hopts;
      injection Hopts as <-; simpl in Hnull; intuition discriminate.
Defined.

(** C4 as stated fails.  Two questions are requested; the response answers
    question 1 twice and question 3, which was not asked, all well-formed.
    The first entry for question 1 is accepted by the check but is not in
    the returned map, and the map lacks the requested question 2 although
    no warning is logged. *)
Lemma generateBatchQuestionOptions_counterexample :
  generateBatchQuestionOptions englishKeys (parses (JArr responseRepeated)) id
    (fun _ => false) (answersWith (JSON_stringify (JArr responseRepeated)))
    noJitter (Some (lit "key")) twoQuestions tt tt
  = Some (Returned [ (1, [GeneratedOption.mk (lit "b") 2]);
                     (3, [GeneratedOption.mk (lit "c") 3]) ],
          [], tt) /\
  itemIsValid (responseItem 1 [responseOption "a" 1]) = Returned true /\
  Map_get 1 [ (1, [GeneratedOption.mk (lit "b") 2]);
              (3, [GeneratedOption.mk (lit "c") 3]) ]
  <> Some [GeneratedOption.mk (lit "a") 1] /\
  Map_get 2 [ (1, [GeneratedOption.mk (lit "b") 2]);
              (3, [GeneratedOption.mk (lit "c") 3]) ]
  = (None : option (list GeneratedOption.t)).
Proof.
  split; [vm_compute; reflexivity|].
  split; [vm_compute; reflexivity|].
  split; [vm_compute; discriminate|vm_compute; reflexivity].
Qed.

(** A [null] among the options of an entry is not dropped: reading its
    [text] throws, and the whole fetch fails with the generic error. *)
Lemma generateBatchQuestionOptions_null_option_throws :
  generateBatchQuestionOptions englishKeys (parses (JArr responseNullOption)) id
    (fun _ => false) (answersWith (JSON_stringify (JArr responseNullOption)))
    noJitter (Some (lit "key")) twoQuestions tt tt
  = Some (Threw (Error (lit "error_api_generation")),
          [ErrorGeneratingOptions], tt).
Proof. vm_compute. reflexivity. Qed.

(** C8 at [responseMixed], merged into an empty cache. *)
Lemma merged_scores_in_range_witness :
  Map_get 1 (@Map_empty Z (list GeneratedOption.t))
  = Some [GeneratedOption.mk (lit "a") 1; GeneratedOption.mk (lit "b") 4] \/
  (In (1, [GeneratedOption.mk (lit "a") 1; GeneratedOption.mk (lit "b") 4])
      [ (1, [GeneratedOption.mk (lit "a") 1; GeneratedOption.mk (lit "b") 4]);
        (2, [GeneratedOption.mk (lit "c") 5]) ] /\
   forall g,
     In g [GeneratedOption.mk (lit "a") 1; GeneratedOption.mk (lit "b") 4] ->
     0 <= GeneratedOption.score g <= 5).
Proof.
  apply (merged_scores_in_range 2 responseMixed
           [ (1, [GeneratedOption.mk (lit "a") 1; GeneratedOption.mk (lit "b") 4]);
             (2, [GeneratedOption.mk (lit "c") 5]) ]
           [WarnInvalidItem
              (JObj [(lit "questionId", JStr (lit "2")); (lit "options", JArr [])])]
           Map_empty).
  - intros item opts opt n Hin Hopts Hopt Hscore. simpl in Hin.
    destruct Hin as [<-|[<-|[<-|[]]]]; vm_compute in Hopts;
      injection Hopts as <-; simpl in Hopt;
      repeat (destruct Hopt as [<-|Hopt]; [vm_compute in Hscore;
                injection Hscore as <-; lia|]);
      destruct Hopt.
  - vm_compute. reflexivity.
  - vm_compute. reflexivity.
Defined.

(** C8 as stated fails: a response with a score of 42 is accepted, and the
    option is merged into the cache with that score. *)
Lemma merged_score_counterexample :
  optionsFromResults 1 responseScore42
  = (Returned [(1, [GeneratedOption.mk (lit "a") 42])], []) /\
  Map_get 1 (mergeOptions Map_empty [(1, [GeneratedOption.mk (lit "a") 42])])
  = Some [GeneratedOption.mk (lit "a") 42] /\
  ~ (0 <= GeneratedOption.score (GeneratedOption.mk (lit "a") 42) <= 5).
Proof.
  split; [vm_compute; reflexivity|].
  split; [vm_compute; reflexivity|]. simpl. lia.
Qed.

(** ** Starting the quiz *)

(** The question list of questions.ts has 140 entries, with the ids 1 to
    140 in order. *)
Lemma initialQuestions_length : length initialQuestions = 140%nat.
Proof. reflexivity. Qed.

Lemma initialQuestions_ids :
  List.map Question.id initialQuestions = idsFrom 1 140.
Proof. reflexivity. Qed.

Lemma arrayGet_Some {A : Type} (array : list A) (i : Z) :
  0 <= i < Z.of_nat (length array) -> is_Some (arrayGet array i).
Proof.
  intros Hi. unfold arrayGet. destruct (Z.leb_spec 0 i); [|lia].
  apply lookup_lt_is_Some. lia.
Qed.

Lemma arrayGet_None {A : Type} (array : list A) (i : Z) :
  i < 0 \/ Z.of_nat (length array) <= i -> arrayGet array i = None.
Proof.
  intros Hi. unfold arrayGet. destruct (Z.leb_spec 0 i); [|done].
  apply lookup_ge_None. lia.
Qed.

(** A swap inside the array succeeds and permutes it. *)
Lemma swap_Permutation {A : Type} (array : list A) (i j : Z) :
  0 <= i < Z.of_nat (length array) ->
  0 <= j < Z.of_nat (length array) ->
  exists array',
    swap array i j = Some array' /\
    Permutation array' array /\
    length array' = length array.
Proof.
  intros Hi Hj. unfold swap.
  destruct (arrayGet_Some array j Hj) as [aj Haj].
  destruct (arrayGet_Some array i Hi) as [ai Hai].
  rewrite Haj, Hai. eexists. split; [reflexivity|].
  unfold arrayGet in *.
  destruct (Z.leb_spec 0 i); [|lia]. destruct (Z.leb_spec 0 j); [|lia].
  split.
  - apply Permutation_insert_swap; done.
  - rewrite !length_insert. done.
Qed.

Section ShuffleFacts.
Variable random : nat -> Q.
Hypothesis random_unit : forall k, (0 <= random k /\ random k < 1)%Q.

(** [Math.floor(Math.random() * (i + 1))] is an index between 0 and [i]. *)
Lemma randomIndex_range (k : nat) (i : Z) :
  0 <= i -> 0 <= randomIndex random k i <= i.
Proof using random_unit.
  intros Hi. unfold randomIndex.
  destruct (random_unit k) as [H0 H1].
  assert (Hpos : (0 < inject_Z (i + 1))%Q).
  { change 0%Q with (inject_Z 0). rewrite <- Zlt_Qlt. lia. }
  split.
  - change 0 with (Qfloor 0). apply Qfloor_resp_le.
    apply Qmult_le_0_compat; [done|]. apply Qlt_le_weak. done.
  - assert (Hlt : (random k * inject_Z (i + 1) < inject_Z (i + 1))%Q).
    { rewrite <- (Qmult_1_l (inject_Z (i + 1))) at 2.
      apply Qmult_lt_compat_r; done. }
    pose proof (Qfloor_le (random k * inject_Z (i + 1))) as Hfl.
    assert (Hz : (inject_Z (Qfloor (random k * inject_Z (i + 1)))
                  < inject_Z (i + 1))%Q)
      by (eapply Qle_lt_trans; eauto).
    rewrite <- Zlt_Qlt in Hz. lia.
Qed.

(** The loop runs to its end and returns a permutation. *)
Lemma shuffleFrom_Permutation {A : Type} (i : nat) :
  forall (k : nat) (array : list A),
    (i < length array)%nat ->
    exists array',
      shuffleFrom random i k array = Some array' /\ Permutation array' array.
Proof using random_unit.
  induction i as [|i IH]; intros k array Hi; simpl.
  - eauto.
  - pose proof (randomIndex_range k (Z.of_nat (S i)) ltac:(lia)) as Hj.
    destruct (swap_Permutation array (Z.of_nat (S i))
                (randomIndex random k (Z.of_nat (S i))))
      as (array1 & -> & Hperm & Hlen); [lia|lia|].
    destruct (IH (S k) array1) as (array' & -> & Hperm'); [lia|].
    exists array'. split; [done|]. etransitivity; eauto.
Qed.

Lemma shuffle_Permutation {A : Type} (array : list A) :
  exists array', shuffle random array = Some array' /\ Permutation array' array.
Proof using random_unit.
  unfold shuffle. destruct array as [|x array]; [simpl; eauto|].
  apply shuffleFrom_Permutation. simpl. lia.
Qed.

(** C5.  After [handleStartQuiz], whatever the state before: the answers,
    the options cache and the image history are empty, the saved progress
    record is gone from the storage, the current question index is 0, and
    the shuffled questions are a permutation of the 140 initial questions. *)
Theorem handleStartQuiz_resets {Language : Type} (st : App Language) :
  exists st',
    handleStartQuiz random st = Some st' /\
    answers (quizState st') = Map_empty /\
    optionsCache (quizState st') = Map_empty /\
    worldviewImageHistory (quizState st') = [] /\
    getItem quizProgressKey (localStorage st') = None /\
    currentQuestionIndex (quizState st') = 0 /\
    Permutation (shuffledQuestions (quizState st')) initialQuestions /\
    length (shuffledQuestions (quizState st')) = 140%nat.
Proof using random_unit.
  unfold handleStartQuiz.
  destruct (shuffle_Permutation initialQuestions) as (array & -> & Hperm).
  eexists. split; [reflexivity|]. simpl.
  repeat split; try done.
  - unfold getItem, removeItem. apply lookup_delete_eq.
  - rewrite (Permutation_length Hperm). reflexivity.
Qed.

End ShuffleFacts.

(** C5 at a session in the middle of a quiz. *)
Lemma handleStartQuiz_resets_witness :
  exists st',
    handleStartQuiz halfJitter midQuiz = Some st' /\
    answers (quizState st') = Map_empty /\
    optionsCache (quizState st') = Map_empty /\
    worldviewImageHistory (quizState st') = [] /\
    getItem quizProgressKey (localStorage st') = None /\
    currentQuestionIndex (quizState st') = 0 /\
    Permutation (shuffledQuestions (quizState st')) initialQuestions /\
    length (shuffledQuestions (quizState st')) = 140%nat.
Proof.
  apply (handleStartQuiz_resets halfJitter).
  intros k. unfold halfJitter. split; [discriminate|reflexivity].
Defined.

(** ** The question card *)

Section ComponentFacts.
Context {Language : Type}.
Variable t : jsstring -> Language -> jsstring.

Lemma handleAnswer_get (answer : Answer.t) (st : App Language) :
  Map_get (Answer.questionId answer) (answers (quizState (handleAnswer answer st)))
  = Some answer.
Proof. simpl. apply Map_get_set_eq. Qed.

Lemma handleNextQuestion_advanced (st : App Language) :
  advanced (quizState st) (quizState (handleNextQuestion st)).
Proof.
  unfold advanced, handleNextQuestion.
  destruct (_ <? _); simpl; done.
Qed.

(** C9.  With no option selected: a remark that is not empty after
    trimming is submitted as an answer with score 0, the localized
    custom-answer text and the trimmed remark, and the quiz moves on; an
    empty one submits nothing and the quiz stays where it is. *)
Theorem handleNext_without_selection
    (question : Question.t) (language : Language) (remark : jsstring)
    (st : App Language) :
  let custom :=
    Answer.mk (Question.id question) 0
      (t (lit "custom_answer_text") language) (trim remark) in
  let actions := handleNext t question language None remark in
  let st' := runCardActions actions st in
  (trim remark <> [] ->
     actions = [OnAnswer custom; OnNext] /\
     Map_get (Question.id question) (answers (quizState st')) = Some custom /\
     advanced (quizState st) (quizState st')) /\
  (trim remark = [] ->
     actions = [CardAlert (t (lit "alert_select_option") language)] /\
     quizState st' = quizState st).
Proof.
  intros custom actions st'. subst actions st'. unfold handleNext. split.
  - intros Hremark.
    assert (Htruthy : truthy_string (trim remark) = true)
      by (destruct (trim remark); done).
    rewrite Htruthy. fold custom. split; [reflexivity|].
    unfold runCardActions. simpl fold_left. split.
    + unfold handleNextQuestion.
      destruct (_ <? _); simpl; apply Map_get_set_eq.
    + apply (handleNextQuestion_advanced (handleAnswer custom st)).
  - intros ->. simpl. done.
Qed.

(** ** Voice answers *)

Lemma cleanupAudioResources_released (st : App Language) :
  audioReleased (refs (cleanupAudioResources st)).
Proof.
  unfold audioReleased, cleanupAudioResources. simpl.
  repeat split;
    [destruct (inputAudioContextRef (refs st)) as [[]|]
    |destruct (outputAudioContextRef (refs st)) as [[]|]]; done.
Qed.

Lemma cleanupAudioResources_quiz (st : App Language) :
  quizState (cleanupAudioResources st) = quizState st.
Proof. reflexivity. Qed.

Lemma handleCloseVoiceModal_quiz (st : App Language) :
  quizState (handleCloseVoiceModal st) = quizState st.
Proof.
  unfold handleCloseVoiceModal. simpl.
  destruct (liveSessionRef (refs st)); reflexivity.
Qed.

Lemma handleCloseVoiceModal_closes (st : App Language) :
  isVoiceModalOpen (voice (handleCloseVoiceModal st)) = false /\
  chatHistory (voice (handleCloseVoiceModal st)) = [] /\
  isAiSpeaking (voice (handleCloseVoiceModal st)) = false /\
  audioReleased (refs (handleCloseVoiceModal st)).
Proof.
  unfold handleCloseVoiceModal. simpl. repeat split.
  all: apply cleanupAudioResources_released.
Qed.

(** The calls that closing the modal makes, in their order. *)
Lemma handleCloseVoiceModal_calls (st : App Language) :
  deviceCalls (handleCloseVoiceModal st)
  = deviceCalls st
    ++ match liveSessionRef (refs st) with
       | Some _ => [SessionClose]
       | None => []
       end
    ++ match mediaStreamRef (refs st) with
       | Some tracks => List.map (fun _ => TrackStop) tracks
       | None => []
       end
    ++ match audioProcessorNodeRef (refs st) with
       | Some _ => [ProcessorDisconnect]
       | None => []
       end
    ++ match mediaStreamSourceRef (refs st) with
       | Some _ => [SourceDisconnect]
       | None => []
       end
    ++ match inputAudioContextRef (refs st) with
       | Some suspended | Some running => [InputContextClose]
       | Some closed | None => []
       end
    ++ match outputAudioContextRef (refs st) with
       | Some suspended | Some running => [OutputContextClose]
       | Some closed | None => []
       end.
Proof.
  unfold handleCloseVoiceModal, cleanupAudioResources, call, contextOpen.
  destruct (liveSessionRef (refs st)); simpl; rewrite <- ?app_assoc;
    destruct (inputAudioContextRef (refs st)) as [[]|];
    destruct (outputAudioContextRef (refs st)) as [[]|]; reflexivity.
Qed.

(** Closing the modal does not look at the quiz state. *)
Lemma handleCloseVoiceModal_frame (st1 st2 : App Language) :
  voice st1 = voice st2 -> refs st1 = refs st2 ->
  localStorage st1 = localStorage st2 -> deviceCalls st1 = deviceCalls st2 ->
  voice (handleCloseVoiceModal st1) = voice (handleCloseVoiceModal st2) /\
  refs (handleCloseVoiceModal st1) = refs (handleCloseVoiceModal st2) /\
  localStorage (handleCloseVoiceModal st1)
  = localStorage (handleCloseVoiceModal st2) /\
  deviceCalls (handleCloseVoiceModal st1) = deviceCalls (handleCloseVoiceModal st2).
Proof.
  intros Hv Hr Hl Hd. unfold handleCloseVoiceModal, cleanupAudioResources, call.
  rewrite Hv, Hr. destruct (liveSessionRef (refs st2)); simpl;
    rewrite ?Hr, ?Hl, ?Hd; done.
Qed.

(** C10.  A [submitAnswer] call whose index names no option of the current
    question records no answer: the quiz state, and with it the answers
    map, is unchanged.  The voice modal is closed, the chat history is
    cleared and the audio resources are released: after the farewell, if
    there is one, the session is closed if there is one, every track of
    the media stream is stopped, the processor node and the source node
    are disconnected, and each audio context that is not closed yet is
    closed; nothing else is called.  What happens outside the quiz state
    is the same as for the call with any other index. *)
Theorem onToolCall_unknown_option
    (currentQuestion : Question.t) (currentOptions : list GeneratedOption.t)
    (language : Language) (fc : FunctionCall) (st : App Language) :
  name fc = lit "submitAnswer" ->
  arrayGet currentOptions (selectedOptionIndex fc) = None ->
  let st' := onToolCall currentQuestion currentOptions language [fc] st in
  answers (quizState st') = answers (quizState st) /\
  quizState st' = quizState st /\
  isVoiceModalOpen (voice st') = false /\
  chatHistory (voice st') = [] /\
  isAiSpeaking (voice st') = false /\
  audioReleased (refs st') /\
  deviceCalls st'
  = deviceCalls st
    ++ (if truthy_string (farewell fc)
        then [Speak (farewell fc) language] else [])
    ++ match liveSessionRef (refs st) with
       | Some _ => [SessionClose]
       | None => []
       end
    ++ match mediaStreamRef (refs st) with
       | Some tracks => List.map (fun _ => TrackStop) tracks
       | None => []
       end
    ++ match audioProcessorNodeRef (refs st) with
       | Some _ => [ProcessorDisconnect]
       | None => []
       end
    ++ match mediaStreamSourceRef (refs st) with
       | Some _ => [SourceDisconnect]
       | None => []
       end
    ++ match inputAudioContextRef (refs st) with
       | Some suspended | Some running => [InputContextClose]
       | Some closed | None => []
       end
    ++ match outputAudioContextRef (refs st) with
       | Some suspended | Some running => [OutputContextClose]
       | Some closed | None => []
       end /\
  forall index,
    let st'' := onToolCall currentQuestion currentOptions language
                  [mkCall (name fc) index (comment fc) (farewell fc)] st in
    voice st' = voice st'' /\
    refs st' = refs st'' /\
    localStorage st' = localStorage st'' /\
    deviceCalls st' = deviceCalls st''.
Proof.
  intros Hname Hnone st'. subst st'. unfold onToolCall. simpl fold_left.
  unfold onFunctionCall. simpl name. simpl farewell. simpl selectedOptionIndex.
  rewrite Hname, Hnone. rewrite bool_decide_true by done.
  assert (Hquiz : forall s : App Language,
    quizState (handleCloseVoiceModal
      (if truthy_string (farewell fc)
       then call (Speak (farewell fc) language) s else s)) = quizState s).
  { intros s. rewrite handleCloseVoiceModal_quiz.
    destruct (truthy_string (farewell fc)); reflexivity. }
  split; [rewrite Hquiz; done|]. split; [apply Hquiz|].
  destruct (handleCloseVoiceModal_closes
              (if truthy_string (farewell fc)
               then call (Speak (farewell fc) language) st else st))
    as (Hopen & Hchat & Hspeaking & Hreleased).
  repeat (split; [done|]).
  split.
  { rewrite handleCloseVoiceModal_calls.
    destruct (truthy_string (farewell fc)); simpl;
      rewrite <- ?app_assoc; reflexivity. }
  intros index. simpl.
  apply handleCloseVoiceModal_frame;
    destruct (truthy_string (farewell fc));
    destruct (arrayGet currentOptions index); reflexivity.
Qed.

End ComponentFacts.

(** C9 at a remark of blanks around a word, on the last but one of three
    questions, and at a remark of blanks only. *)
Lemma handleNext_without_selection_witness :
  (let st' := runCardActions
                (handleNext englishKeys question7 tt None (lit "  why not "))
                midQuiz in
   handleNext englishKeys question7 tt None (lit "  why not ")
   = [OnAnswer (Answer.mk 7 0 (lit "custom_answer_text") (lit "why not")); OnNext] /\
   Map_get 7 (answers (quizState st'))
   = Some (Answer.mk 7 0 (lit "custom_answer_text") (lit "why not")) /\
   advanced (quizState midQuiz) (quizState st')) /\
  (let st' := runCardActions
                (handleNext englishKeys question7 tt None (lit "   "))
                midQuiz in
   handleNext englishKeys question7 tt None (lit "   ")
   = [CardAlert (lit "alert_select_option")] /\
   quizState st' = quizState midQuiz).
Proof.
  split.
  - apply (handleNext_without_selection englishKeys question7 tt
             (lit "  why not ") midQuiz). discriminate.
  - apply (handleNext_without_selection englishKeys question7 tt
             (lit "   ") midQuiz). reflexivity.
Defined.

(** C10 at index 5 of a question with two options. *)
Lemma onToolCall_unknown_option_witness :
  let st' := onToolCall question7 options7 tt [callOutOfRange] midQuiz in
  answers (quizState st') = answers (quizState midQuiz) /\
  quizState st' = quizState midQuiz /\
  isVoiceModalOpen (voice st') = false /\
  chatHistory (voice st') = [] /\
  isAiSpeaking (voice st') = false /\
  audioReleased (refs st') /\
  deviceCalls st'
  = [ Speak (lit "bye") tt; SessionClose; TrackStop; ProcessorDisconnect;
      SourceDisconnect; InputContextClose; OutputContextClose ] /\
  forall index,
    let st'' := onToolCall question7 options7 tt
                  [mkCall (name callOutOfRange) index (comment callOutOfRange)
                     (farewell callOutOfRange)] midQuiz in
    voice st' = voice st'' /\
    refs st' = refs st'' /\
    localStorage st' = localStorage st'' /\
    deviceCalls st' = deviceCalls st''.
Proof.
  apply (onToolCall_unknown_option question7 options7 tt callOutOfRange midQuiz);
    reflexivity.
Defined.

(** ** Saving results *)

Section SavingFacts.
Context {Language : Type}.
Variable t : jsstring -> Language -> jsstring.
Variable JSON_parse : jsstring -> option json.

Lemma sameAnswers_saved (current : jsstring) (r : SavedResult.t) :
  sameAnswers current (jsonOfSavedResult r)
  = Returned (bool_decide
                (JSON_stringify (jsonOfEntries (SavedResult.answers r)) = current)).
Proof. reflexivity. Qed.

Lemma some_cons {A : Type} (f : A -> result js_exn bool) (x : A) (l : list A) :
  some f (x :: l)
  = match f x with
    | Returned true => Returned true
    | Returned false => some f l
    | Threw e => Threw e
    end.
Proof. simpl. destruct (f x) as [[]|]; reflexivity. Qed.

(** The search through well-formed saved results finds equal answers. *)
Lemma some_sameAnswers_found (answers : answers_map)
    (saved : list SavedResult.t) :
  (exists res, In res saved /\ SavedResult.answers res = Map_entries answers) ->
  some (sameAnswers (JSON_stringify (jsonOfEntries (Map_entries answers))))
    (List.map jsonOfSavedResult saved)
  = Returned true.
Proof.
  intros (res & Hin & Hsame). induction saved as [|r saved IH]; [done|].
  rewrite map_cons, some_cons, sameAnswers_saved.
  case_bool_decide as Heq; [done|].
  destruct Hin as [->|Hin]; [|apply IH; done].
  rewrite Hsame in Heq. done.
Qed.


(** A save either stores the result and remembers that, or fails and
    leaves the storage as it was. *)
Lemma handleSaveResults_outcome answers url (language : Language) now st :
  let st' := handleSaveResults t JSON_parse answers url language now st in
  isSaved st' = true \/ store st' = store st.
Proof.
  unfold handleSaveResults. destruct (isSaved st) eqn:Hsaved; [left; done|].
  destruct (readSavedResults JSON_parse (store st)) as [[]|]; simpl; auto.
Qed.



End SavingFacts.



(** ** Sharing results *)

(** A map read back from its own entries is the same map: [new Map] over
    the entries of a [Map] restores it, order included. *)
Lemma Map_set_fresh {K V : Type} `{EqDecision K} (m : jsmap K V) k v :
  ~ In k (List.map fst m) -> Map_set k v m = m ++ [(k, v)].
Proof.
  induction m as [|[k0 v0] m IH]; simpl; [done|].
  intros Hfresh. case_decide as Heq; [subst; tauto|].
  rewrite IH by tauto. done.
Qed.

Lemma Map_new_entries {K V : Type} `{EqDecision K} (m : jsmap K V) :
  List.NoDup (List.map fst m) -> Map_new (Map_entries m) = m.
Proof.
  unfold Map_new, Map_entries, Map_empty.
  assert (Hgen : forall acc : jsmap K V,
    List.NoDup (List.map fst (acc ++ m)) ->
    fold_left (fun m kv => Map_set (fst kv) (snd kv) m) m acc = acc ++ m).
  { induction m as [|[k v] m IH]; intros acc Hnd; simpl.
    - rewrite app_nil_r. done.
    - rewrite Map_set_fresh.
      + rewrite IH; rewrite <- app_assoc; done.
      + rewrite map_app in Hnd. simpl in Hnd.
        apply List.NoDup_remove_2 in Hnd. intros Hin. apply Hnd.
        apply in_or_app. left. done. }
  intros Hnd. apply (Hgen []). done.
Qed.

(** The scores are functions of the answers map alone. *)
Lemma scores_of_restored_map (answers : answers_map) :
  List.NoDup (List.map fst answers) ->
  totalScore (Map_new (Map_entries answers)) = totalScore answers /\
  categoryData (Map_new (Map_entries answers)) = categoryData answers.
Proof. intros Hnd. rewrite Map_new_entries by done. done. Qed.

(** Printing keeps every code unit above U+00FF that is not a surrogate. *)
Lemma escapeUnit_above_latin1 (c : N) : (255 < c)%N -> escapeUnit c = [c].
Proof.
  intros Hc. unfold escapeUnit.
  repeat match goal with
         | |- context [(c =? ?n)%N] => destruct (N.eqb_spec c n); [lia|]
         end.
  destruct (N.ltb_spec c 32); [lia|done].
Qed.

Lemma quoteBody_keeps (c : N) :
  (255 < c)%N -> isHighSurrogate c = false -> isLowSurrogate c = false ->
  forall (n : nat) (s : jsstring),
    (length s <= n)%nat -> In c s -> In c (quoteBody s).
Proof.
  intros Hc Hhigh Hlow n. induction n as [|n IH]; intros s Hlen Hin.
  - destruct s; [destruct Hin|simpl in Hlen; lia].
  - destruct s as [|a s']; [destruct Hin|]. simpl in Hlen. cbn [quoteBody].
    destruct (isHighSurrogate a) eqn:Ha.
    + destruct Hin as [->|Hin]; [congruence|].
      destruct s' as [|d s'']; [destruct Hin|].
      destruct (isLowSurrogate d) eqn:Hd.
      * destruct Hin as [->|Hin]; [congruence|].
        right. right. apply IH; [simpl in Hlen; lia|done].
      * apply in_or_app. right. apply IH; [lia|done].
    + destruct (isLowSurrogate a) eqn:Ha'.
      * destruct Hin as [->|Hin]; [congruence|].
        apply in_or_app. right. apply IH; [lia|done].
      * apply in_or_app. destruct Hin as [->|Hin].
        -- left. rewrite escapeUnit_above_latin1 by done. left. done.
        -- right. apply IH; [lia|done].
Qed.

Lemma quoteJSONString_keeps (c : N) (s : jsstring) :
  (255 < c)%N -> isHighSurrogate c = false -> isLowSurrogate c = false ->
  In c s -> In c (quoteJSONString s).
Proof.
  intros Hc Hhigh Hlow Hin. unfold quoteJSONString.
  apply in_or_app. right. apply in_or_app. left.
  apply (quoteBody_keeps c Hc Hhigh Hlow (length s)); done.
Qed.

Lemma joinWith_keeps (c : N) (sep : jsstring) (parts : list jsstring) :
  (exists p, In p parts /\ In c p) -> In c (joinWith sep parts).
Proof.
  intros (p & Hp & Hc). induction parts as [|q parts IH]; [destruct Hp|].
  simpl. destruct parts as [|q' parts'].
  - destruct Hp as [->|[]]. done.
  - apply in_or_app. destruct Hp as [->|Hp]; [left; done|].
    right. apply in_or_app. right. apply IH. done.
Qed.

Lemma JSON_stringify_array_keeps (c : N) (items : list json) :
  (exists item, In item items /\ In c (JSON_stringify item)) ->
  In c (JSON_stringify (JArr items)).
Proof.
  intros (item & Hitem & Hc).
  change (In c (lit "[" ++ joinWith (lit ",") (List.map JSON_stringify items)
                 ++ lit "]")).
  apply in_or_app. right. apply in_or_app. left.
  apply joinWith_keeps. exists (JSON_stringify item).
  split; [apply in_map; done|done].
Qed.

Lemma JSON_stringify_object_keeps (c : N) (props : list (jsstring * json)) :
  (exists k v, In (k, v) props /\ In c (JSON_stringify v)) ->
  In c (JSON_stringify (JObj props)).
Proof.
  intros (k & v & Hkv & Hc).
  change (In c (lit "{" ++
                joinWith (lit ",")
                  (List.map (fun kv => quoteJSONString (fst kv) ++ lit ":" ++
                                       JSON_stringify (snd kv)) props)
                ++ lit "}")).
  apply in_or_app. right. apply in_or_app. left.
  apply joinWith_keeps.
  exists (quoteJSONString k ++ lit ":" ++ JSON_stringify v). split.
  - apply (in_map (fun kv => quoteJSONString (fst kv) ++ lit ":" ++
                             JSON_stringify (snd kv)) props (k, v)). done.
  - apply in_or_app. right. apply in_or_app. right. done.
Qed.

Lemma btoa_throws (s : jsstring) (c : N) :
  In c s -> (255 < c)%N -> btoa s = Threw InvalidCharacterError.
Proof.
  intros Hin Hc. unfold btoa.
  destruct (forallb (fun c => c <=? 255)%N s) eqn:Hall; [|done].
  rewrite forallb_forall in Hall. specialize (Hall c Hin).
  apply N.leb_le in Hall. lia.
Qed.

(** Sharing fails for every answers map with a character outside Latin-1
    in an option text or a remark: [btoa] throws and no URL is made. *)
Lemma handleShare_throws_outside_latin1
    (origin pathname : jsstring) (answers : answers_map)
    (url : option jsstring) (k : Z) (a : Answer.t) (c : N) :
  In (k, a) answers ->
  In c (Answer.optionText a) \/ In c (Answer.remark a) ->
  (255 < c)%N -> isHighSurrogate c = false -> isLowSurrogate c = false ->
  handleShare origin pathname answers url = Threw InvalidCharacterError.
Proof.
  intros Hka Htext Hc Hhigh Hlow. unfold handleShare.
  rewrite (btoa_throws _ c); [done| |done].
  apply JSON_stringify_object_keeps.
  exists (lit "answers"), (jsonOfEntries (Map_entries answers)).
  split; [left; done|].
  apply JSON_stringify_array_keeps.
  exists (JArr [JNum k; jsonOfAnswer a]). split.
  { apply (in_map (fun kv => JArr [JNum (fst kv); jsonOfAnswer (snd kv)])
             answers (k, a)). done. }
  apply JSON_stringify_array_keeps. exists (jsonOfAnswer a).
  split; [right; left; done|].
  apply JSON_stringify_object_keeps. destruct Htext as [Ht|Hr].
  - exists (lit "optionText"), (JStr (Answer.optionText a)).
    split; [right; right; left; done|].
    apply quoteJSONString_keeps; done.
  - exists (lit "remark"), (JStr (Answer.remark a)).
    split; [right; right; right; left; done|].
    apply quoteJSONString_keeps; done.
Qed.

(** C6 fails on the code.  A session with one answer whose option text is
    Russian cannot be shared: the JSON text holds the Cyrillic letters as
    they are, [btoa] throws InvalidCharacterError on them, and the handler
    ends before any URL exists that could be loaded. *)
Theorem handleShare_russian_answers_throw :
  includes
    (JSON_stringify
       (JObj [ (lit "answers", jsonOfEntries (Map_entries answersRussian));
               (lit "worldviewImageUrl", jsonOfImageUrl None) ]))
    [1044; 1072]%N = true /\
  handleShare (lit "https://quiz.example") (lit "/") answersRussian None
  = Threw InvalidCharacterError.
Proof. split; vm_compute; reflexivity. Qed.

(** The same session in English is shared. *)
Lemma handleShare_english_answers :
  exists encoded,
    btoa (JSON_stringify
            (JObj [ (lit "answers", jsonOfEntries (Map_entries answersEnglish));
                    (lit "worldviewImageUrl", jsonOfImageUrl None) ]))
    = Returned encoded /\
    handleShare (lit "https://quiz.example") (lit "/") answersEnglish None
    = Returned (lit "https://quiz.example/?r=" ++ encoded).
Proof. eexists. split; vm_compute; reflexivity. Qed.

(* ===================================================================== *)
(** * Part II, continued: properties of the rest of the code              *)
(* ===================================================================== *)

(** ** The retry wrapper, in general *)

Section WithRetryInGeneral.
Context {W E T : Type}.
Variable toString : E -> jsstring.
Variable apiCall : W -> result E T * W.
Variable random : nat -> Q.

(** What one run of the loop adds to the log, and how it can end. *)
Lemma withRetry_loop_accounting (fuel : nat) :
  forall maxRetries initialDelay attempt w l r w' l',
    withRetry_loop toString apiCall random fuel maxRetries initialDelay
      attempt w l = Some (r, w', l') ->
    (maxRetries <= attempt /\ r = Threw MaxRetriesReached /\ l' = l) \/
    (exists c : nat,
        (1 <= c)%nat /\ attempt + Z.of_nat c <= maxRetries /\
        calls l' = (calls l + c)%nat /\
        length (sleeps l') = (length (sleeps l) + (c - 1))%nat /\
        r <> Threw MaxRetriesReached /\
        forall e, r = Threw (Rethrown e) ->
                  isRateLimitError toString e = true ->
                  attempt + Z.of_nat c = maxRetries).
Proof.
  induction fuel as [|fuel IH];
    intros maxRetries initialDelay attempt w l r w' l' Hrun; [done|].
  simpl in Hrun. destruct (Z.ltb_spec attempt maxRetries) as [Hlt|Hge].
  - right. destruct (apiCall w) as [[v|e] w1].
    + injection Hrun as <- <- <-. exists 1%nat. simpl.
      repeat split; try lia; try done.
    + destruct (isRateLimitError toString e) eqn:Hrl; simpl in Hrun.
      * destruct (Z.ltb_spec attempt (maxRetries - 1)) as [Hlt'|Hge'].
        -- apply IH in Hrun as [(Hle & _ & _)|(c & Hc & Hatt & Hcalls & Hsleeps & Hr & Hex)];
             [lia|].
           exists (S c). simpl in *. rewrite length_app in Hsleeps. simpl in Hsleeps.
           repeat split; try lia; try done.
           intros e' He' Hrl'. specialize (Hex e' He' Hrl'). lia.
        -- injection Hrun as <- <- <-. exists 1%nat. simpl.
           repeat split; try lia; try done.
      * injection Hrun as <- <- <-. exists 1%nat. simpl.
        repeat split; try lia; try done.
        intros e' [= <-] Hrl'. congruence.
  - left. injection Hrun as <- <- <-. done.
Qed.

(** X1.  Whatever the operation does, [withRetry] ends; it has invoked the
    operation at most [maxRetries] times (never, for a budget below one),
    and has waited once between two invocations, never after the last. *)
Theorem withRetry_invocations_bounded (maxRetries : Z) (initialDelay : Q) (w : W) :
  exists r w' log,
    withRetry toString apiCall random maxRetries initialDelay w
    = Some (r, w', log) /\
    Z.of_nat (calls log) <= Z.max 0 maxRetries /\
    length (sleeps log) = (calls log - 1)%nat.
Proof.
  destruct (withRetry_total toString apiCall random maxRetries initialDelay w)
    as [[[r w'] log] Hrun].
  exists r, w', log. split; [done|].
  apply withRetry_loop_accounting in Hrun
    as [(Hle & _ & ->)|(c & Hc & Hatt & Hcalls & Hsleeps & _)]; simpl in *; lia.
Qed.

(** X2.  The generic "max retries reached" error is thrown exactly when
    the budget is below one; with a budget of at least one attempt the
    outcome is a value or an error of the operation itself. *)
Theorem withRetry_generic_error_iff_no_budget
    (maxRetries : Z) (initialDelay : Q) (w w' : W)
    (r : result (retry_error E) T) (log : retry_log) :
  withRetry toString apiCall random maxRetries initialDelay w
  = Some (r, w', log) ->
  (r = Threw MaxRetriesReached <-> maxRetries <= 0).
Proof.
  intros Hrun. split.
  - intros ->. apply withRetry_loop_accounting in Hrun
      as [(Hle & _)|(c & _ & _ & _ & _ & Hr & _)]; [lia|done].
  - intros Hle. rewrite withRetry_no_budget in Hrun by done.
    injection Hrun as <- _ _. done.
Qed.

(** X3.  A rate-limit-shaped error reaches the caller only when the budget
    is used up: the operation has then been invoked [maxRetries] times. *)
Theorem withRetry_rate_limit_only_when_exhausted
    (maxRetries : Z) (initialDelay : Q) (w w' : W) (e : E) (log : retry_log) :
  withRetry toString apiCall random maxRetries initialDelay w
  = Some (Threw (Rethrown e), w', log) ->
  isRateLimitError toString e = true ->
  Z.of_nat (calls log) = maxRetries.
Proof.
  intros Hrun Hrl. apply withRetry_loop_accounting in Hrun
    as [(_ & [=] & _)|(c & _ & _ & Hcalls & _ & _ & Hex)].
  specialize (Hex e eq_refl Hrl). simpl in *. lia.
Qed.

(** The loop, entered before a success that comes after [k] rate-limited
    failures. *)
Lemma withRetry_loop_success_after maxRetries initialDelay :
  forall (k fuel : nat) attempt w l v w',
    (k < fuel)%nat ->
    attempt + Z.of_nat k < maxRetries ->
    (forall i, (i < k)%nat ->
       exists e, fst (apiCall (Nat.iter i (fun w => snd (apiCall w)) w)) = Threw e /\
                 isRateLimitError toString e = true) ->
    apiCall (Nat.iter k (fun w => snd (apiCall w)) w) = (Returned v, w') ->
    exists l',
      withRetry_loop toString apiCall random fuel maxRetries initialDelay
        attempt w l = Some (Returned v, w', l') /\
      calls l' = (calls l + S k)%nat /\
      length (sleeps l') = (length (sleeps l) + k)%nat.
Proof.
  intros k. induction k as [|k IH]; intros fuel attempt w l v w' Hfuel Hatt Hfail Hok.
  - destruct fuel as [|fuel]; [lia|]. simpl in *.
    destruct (Z.ltb_spec attempt maxRetries); [|lia].
    rewrite Hok. eexists. split; [done|]. simpl. lia.
  - destruct fuel as [|fuel]; [lia|]. simpl.
    destruct (Z.ltb_spec attempt maxRetries); [|lia].
    destruct (Hfail 0%nat ltac:(lia)) as (e & He & Hrl). simpl in He.
    destruct (apiCall w) as [r1 w1] eqn:Hcall. simpl in He. subst r1.
    rewrite Hrl. simpl.
    destruct (Z.ltb_spec attempt (maxRetries - 1)); [|lia].
    rewrite Nat.iter_succ_r in Hok. rewrite Hcall in Hok. simpl in Hok.
    edestruct (IH fuel (attempt + 1) w1) as (l' & Hrun & Hc & Hs);
      [lia|lia| |exact Hok|].
    + intros i Hi. specialize (Hfail (S i) ltac:(lia)).
      rewrite Nat.iter_succ_r in Hfail. rewrite Hcall in Hfail. exact Hfail.
    + exists l'. split; [exact Hrun|]. simpl in *.
      rewrite length_app in Hs. simpl in Hs. lia.
Qed.

(** X4.  When the operation fails [k] times with rate-limit-shaped errors
    and then succeeds, and [k] is below the budget, [withRetry] returns
    that success after [k + 1] invocations and [k] delays. *)
Theorem withRetry_success_after_failures
    (maxRetries : Z) (initialDelay : Q) (k : nat) (w w' : W) (v : T) :
  Z.of_nat k < maxRetries ->
  (forall i, (i < k)%nat ->
     exists e, fst (apiCall (Nat.iter i (fun w => snd (apiCall w)) w)) = Threw e /\
               isRateLimitError toString e = true) ->
  apiCall (Nat.iter k (fun w => snd (apiCall w)) w) = (Returned v, w') ->
  exists log,
    withRetry toString apiCall random maxRetries initialDelay w
    = Some (Returned v, w', log) /\
    calls log = S k /\
    length (sleeps log) = k.
Proof.
  intros Hk Hfail Hok.
  destruct (withRetry_loop_success_after maxRetries initialDelay k
              (S (Z.to_nat maxRetries)) 0 w (RetryLog 0 []) v w')
    as (l' & Hrun & Hc & Hs); [lia|lia|done|done|].
  exists l'. split; [exact Hrun|]. simpl in *. lia.
Qed.

End WithRetryInGeneral.

Section BackoffDelays.
Context {W E T : Type}.
Variable toString : E -> jsstring.
Variable apiCall : W -> result E T * W.
Variable random : nat -> Q.




End BackoffDelays.

(** X2 at a budget of zero. *)
Lemma withRetry_generic_error_iff_no_budget_witness :
  (Threw MaxRetriesReached = (Threw MaxRetriesReached : result (retry_error jsstring) Z))
  <-> 0 <= 0.
Proof.
  apply (withRetry_generic_error_iff_no_budget id failsTwice noJitter
           0 1000 0%nat 0%nat (Threw MaxRetriesReached) (RetryLog 0 [])).
  reflexivity.
Defined.

(** X3 at [alwaysRateLimited], with the default budget. *)
Lemma withRetry_rate_limit_only_when_exhausted_witness :
  Z.of_nat (calls (RetryLog 3 [backoffDelay 1000 1 0; backoffDelay 1000 2 0])) = 3.
Proof.
  apply (withRetry_rate_limit_only_when_exhausted id alwaysRateLimited noJitter
           3 1000 0%nat 3%nat error429); reflexivity.
Defined.

(** X4 at [failsTwice], with a budget of five. *)
Lemma withRetry_success_after_failures_witness :
  exists log,
    withRetry id failsTwice noJitter 5 1000 0%nat = Some (Returned 7, 3%nat, log) /\
    calls log = 3%nat /\
    length (sleeps log) = 2%nat.
Proof.
  apply (withRetry_success_after_failures id failsTwice noJitter 5 1000 2 0%nat
           3%nat 7); [lia| |reflexivity].
  intros i Hi. exists error429.
  destruct i as [|[|i]]; [split; reflexivity|split; reflexivity|lia].
Defined.


(** ** The audio helpers: base64 there and back *)

#[local] Ltac Zify.zify_post_hook ::= Z.to_euclidean_division_equations.

(** Bounds of the elements of a literal list. *)
Ltac forall_bounds :=
  repeat first [apply List.Forall_nil | apply List.Forall_cons]; try lia.

(** Lists, three elements at a time. *)
Lemma list_ind3 {A : Type} (P : list A -> Prop) :
  P [] -> (forall a, P [a]) -> (forall a b, P [a; b]) ->
  (forall a b c l, P l -> P (a :: b :: c :: l)) ->
  forall l, P l.
Proof.
  intros H0 H1 H2 H3 l.
  assert (Hall : P l /\ (forall a, P (a :: l)) /\ (forall a b, P (a :: b :: l))).
  { induction l as [|x l (IH0 & IH1 & IH2)]; [auto|].
    split; [apply IH1|]. split; [intros a; apply IH2|].
    intros a b. apply H3. exact IH0. }
  apply Hall.
Qed.

Lemma base64_sextets (bytes : list N) :
  base64 bytes = List.map base64Char (sextets bytes) ++ padding bytes.
Proof.
  induction bytes as [|a|a b|a b c rest IH] using list_ind3; try reflexivity.
  change (base64 (a :: b :: c :: rest))
    with ([base64Char (a / 4); base64Char (a mod 4 * 16 + b / 16);
           base64Char (b mod 16 * 4 + c / 64); base64Char (c mod 64)]%N
          ++ base64 rest).
  change (sextets (a :: b :: c :: rest))
    with ([a / 4; a mod 4 * 16 + b / 16; b mod 16 * 4 + c / 64; c mod 64]%N
          ++ sextets rest).
  rewrite IH, map_app, <- app_assoc. f_equal. f_equal.
  unfold padding. simpl length.
  replace (S (S (S (length rest)))) with (length rest + 1 * 3)%nat by lia.
  rewrite Nat.Div0.mod_add. done.
Qed.

Lemma sextets_range (bytes : list N) :
  Forall (fun b => b <= 255)%N bytes -> Forall (fun s => s < 64)%N (sextets bytes).
Proof.
  induction bytes as [|a|a b|a b c rest IH] using list_ind3; intros Hb.
  - constructor.
  - inversion_clear Hb. simpl. forall_bounds.
  - inversion_clear Hb as [|? ? ? Hb']. inversion_clear Hb'.
    simpl. forall_bounds.
  - inversion_clear Hb as [|? ? ? Hb1]. inversion_clear Hb1 as [|? ? ? Hb2].
    inversion_clear Hb2.
    change (sextets (a :: b :: c :: rest))
      with ([a / 4; a mod 4 * 16 + b / 16; b mod 16 * 4 + c / 64; c mod 64]%N
            ++ sextets rest).
    apply Forall_app. split; [forall_bounds|auto].
Qed.

Lemma length_sextets_mod (bytes : list N) :
  (length (sextets bytes) mod 4)%nat <> 1%nat /\
  ((length (sextets bytes) + length (padding bytes)) mod 4)%nat = 0%nat.
Proof.
  induction bytes as [|a|a b|a b c rest IH] using list_ind3; try (simpl; lia).
  change (sextets (a :: b :: c :: rest))
    with ([a / 4; a mod 4 * 16 + b / 16; b mod 16 * 4 + c / 64; c mod 64]%N
          ++ sextets rest).
  assert (Hpad : padding (a :: b :: c :: rest) = padding rest).
  { unfold padding. simpl length.
    replace (S (S (S (length rest)))) with (length rest + 1 * 3)%nat by lia.
    rewrite Nat.Div0.mod_add. done. }
  rewrite Hpad, length_app. simpl length.
  replace (4 + length (sextets rest))%nat
    with (length (sextets rest) + 1 * 4)%nat by lia.
  replace (length (sextets rest) + 1 * 4 + length (padding rest))%nat
    with (length (sextets rest) + length (padding rest) + 1 * 4)%nat by lia.
  rewrite !Nat.Div0.mod_add. exact IH.
Qed.

Lemma base64Value_Char (n : N) : (n < 64)%N -> base64Value (base64Char n) = Some n.
Proof.
  intros Hn. unfold base64Char, base64Value.
  repeat match goal with
         | |- context [(?x <? ?y)%N] => destruct (N.ltb_spec x y)
         | |- context [(?x <=? ?y)%N] => destruct (N.leb_spec x y)
         | |- context [(?x =? ?y)%N] => destruct (N.eqb_spec x y)
         end; simpl; try (f_equal; lia); try lia.
Qed.

Lemma base64Char_alphabet (n : N) :
  (43 <= base64Char n <= 122)%N /\ base64Char n <> 61%N.
Proof.
  unfold base64Char.
  repeat match goal with
         | |- context [(?x <? ?y)%N] => destruct (N.ltb_spec x y)
         | |- context [(?x =? ?y)%N] => destruct (N.eqb_spec x y)
         end; lia.
Qed.

Lemma base64Char_not_special (n : N) :
  (base64Char n =? 61)%N = false /\ isAsciiWhitespace (base64Char n) = false.
Proof.
  destruct (base64Char_alphabet n) as [Hrange Hne].
  split; [apply N.eqb_neq; done|].
  unfold isAsciiWhitespace.
  repeat match goal with
         | |- context [(base64Char n =? ?y)%N] =>
           destruct (N.eqb_spec (base64Char n) y); [lia|]
         end.
  done.
Qed.

Lemma mapM_base64Value (values : list N) :
  Forall (fun s => s < 64)%N values ->
  mapM base64Value (List.map base64Char values) = Some values.
Proof.
  induction 1 as [|s values Hs _ IH]; [done|].
  simpl. rewrite base64Value_Char by done. simpl. rewrite IH. done.
Qed.

Lemma stripPadding_base64 (bytes : list N) :
  stripPadding (List.map base64Char (sextets bytes) ++ padding bytes)
  = List.map base64Char (sextets bytes).
Proof.
  unfold stripPadding. rewrite rev_app_distr.
  assert (Hbody : forall body : list N,
    match rev (List.map base64Char body) with
    | [] => True
    | c :: _ => (c =? 61)%N = false
    end).
  { intros body. rewrite <- map_rev. destruct (rev body); simpl; [done|].
    apply base64Char_not_special. }
  specialize (Hbody (sextets bytes)).
  unfold padding. destruct (length bytes mod 3)%nat as [|[|]]; simpl.
  - destruct (rev (List.map base64Char (sextets bytes))); [|rewrite Hbody].
    + rewrite app_nil_r. done.
    + rewrite app_nil_r. done.
  - rewrite rev_involutive. done.
  - destruct (rev (List.map base64Char (sextets bytes))) as [|c r] eqn:Hrev.
    + simpl. apply (f_equal (@rev N)) in Hrev. rewrite rev_involutive in Hrev.
      done.
    + rewrite Hbody. rewrite <- Hrev, rev_involutive. done.
Qed.

Lemma decodeSextets_sextets (bytes : list N) :
  Forall (fun b => b <= 255)%N bytes -> decodeSextets (sextets bytes) = bytes.
Proof.
  induction bytes as [|a|a b|a b c rest IH] using list_ind3; intros Hb.
  - done.
  - inversion_clear Hb. simpl. f_equal. lia.
  - inversion_clear Hb as [|? ? ? Hb']. inversion_clear Hb'.
    simpl. f_equal; [lia|f_equal; lia].
  - inversion_clear Hb as [|? ? ? Hb1]. inversion_clear Hb1 as [|? ? ? Hb2].
    inversion_clear Hb2.
    change (decodeSextets (sextets (a :: b :: c :: rest)))
      with ([a / 4 * 4 + (a mod 4 * 16 + b / 16) / 16;
             (a mod 4 * 16 + b / 16) mod 16 * 16 + (b mod 16 * 4 + c / 64) / 4;
             (b mod 16 * 4 + c / 64) mod 4 * 64 + c mod 64]%N
            ++ decodeSextets (sextets rest)).
    rewrite IH by done. simpl. f_equal; [lia|f_equal; [lia|f_equal; lia]].
Qed.

(** [atob] undoes [base64] on bytes. *)
Lemma atob_base64 (bytes : list N) :
  Forall (fun b => b <= 255)%N bytes -> atob (base64 bytes) = Returned bytes.
Proof.
  intros Hb. unfold atob. rewrite base64_sextets.
  assert (Hfilter : List.filter (fun c => negb (isAsciiWhitespace c))
                      (List.map base64Char (sextets bytes) ++ padding bytes)
                    = List.map base64Char (sextets bytes) ++ padding bytes).
  { apply forallb_filter_id. rewrite forallb_app. apply andb_true_iff. split.
    - apply forallb_forall. intros c Hc. apply in_map_iff in Hc as (n & <- & _).
      destruct (base64Char_not_special n) as [_ ->]. done.
    - unfold padding. destruct (length bytes mod 3)%nat as [|[|]]; done. }
  rewrite Hfilter. destruct (length_sextets_mod bytes) as [Hne Hzero].
  rewrite length_app, length_map, Hzero, Nat.eqb_refl.
  rewrite stripPadding_base64, length_map.
  destruct (Nat.eqb_spec (length (sextets bytes) mod 4)%nat 1); [done|].
  rewrite mapM_base64Value by (apply sextets_range; done).
  rewrite decodeSextets_sextets by done. done.
Qed.

Lemma map_id_on {A : Type} (P : A -> Prop) (f : A -> A) (l : list A) :
  (forall x, P x -> f x = x) -> Forall P l -> List.map f l = l.
Proof.
  intros Hf. induction 1 as [|x l Hx _ IH]; [done|].
  rewrite map_cons, IH, Hf by done. done.
Qed.

(** X6.  [encode] never throws on the bytes of a [Uint8Array], and
    [decode] gives the bytes back from what [encode] returns. *)
Theorem decode_encode (bytes : list N) :
  Forall (fun b => b <= 255)%N bytes ->
  exists text,
    encode bytes = Returned text /\ decode text = Returned bytes.
Proof.
  intros Hb.
  assert (Hmap : List.map fromCharCode bytes = bytes).
  { apply (map_id_on (fun b => b <= 255)%N); [|done].
    intros b Hle. unfold fromCharCode. apply N.mod_small. lia. }
  assert (Hmod : List.map (fun c => c mod 256)%N bytes = bytes).
  { apply (map_id_on (fun b => b <= 255)%N); [|done].
    intros b Hle. apply N.mod_small. lia. }
  exists (base64 bytes). unfold encode, decode, btoa. rewrite Hmap.
  assert (Hall : forallb (fun c => c <=? 255)%N bytes = true).
  { apply forallb_forall. intros c Hc. apply N.leb_le.
    rewrite Forall_forall in Hb. apply Hb. apply list_elem_of_In. done. }
  rewrite Hall. split; [done|].
  rewrite atob_base64 by done. simpl. unfold mret, result_ret.
  rewrite Hmod. done.
Qed.

(** X6 at a chunk of four bytes. *)
Lemma decode_encode_witness :
  exists text,
    encode [0; 255; 62; 63]%N = Returned text /\
    decode text = Returned [0; 255; 62; 63]%N.
Proof.
  apply (decode_encode [0; 255; 62; 63]%N). forall_bounds.
Defined.

(** ** The batched option fetch, in general *)

Section BatchFetchInGeneral.
Context {Language W E : Type}.
Variable t : jsstring -> Language -> jsstring.
Variable JSON_parse : jsstring -> option json.
Variable toString : E -> jsstring.
Variable isSyntaxError : E -> bool.
Variable generateContent :
  Language -> jsstring -> W -> result E (option jsstring) * W.
Variable random : nat -> Q.
Variable apiKey : option jsstring.

Lemma catchFetch_threw (lang : Language) r console e console' :
  catchFetch t isSyntaxError lang (r, console) = (Threw e, console') ->
  (e = Error (t (lit "error_json_parse") lang) \/
   e = Error (t (lit "error_api_generation") lang)) /\
  console' = console ++ [ErrorGeneratingOptions].
Proof.
  unfold catchFetch. destruct r as [m|e0]; [done|].
  intros [= <- <-]. split; [|done].
  destruct (instanceofSyntaxError isSyntaxError e0); auto.
Qed.

(** X7.  Whatever goes wrong in a fetch, the caller sees one of three
    errors: the missing-key message, thrown before anything is requested
    or logged, or, after the failure has been logged, the localized
    JSON-parse or API-generation message.  No TypeError, SyntaxError or
    error object of the API escapes. *)
Theorem generateBatchQuestionOptions_failures
    (questions : list (Z * jsstring)) (lang : Language) (w w' : W)
    (e : js_exn) (console : list console_entry) :
  generateBatchQuestionOptions t JSON_parse toString isSyntaxError
    generateContent random apiKey questions lang w
  = Some (Threw e, console, w') ->
  (e = Error apiKeyMissingMessage /\ console = [] /\ w' = w) \/
  ((e = Error (t (lit "error_json_parse") lang) \/
    e = Error (t (lit "error_api_generation") lang)) /\
   last console = Some ErrorGeneratingOptions).
Proof.
  unfold generateBatchQuestionOptions.
  destruct questions as [|q questions]; [done|].
  destruct apiKey as [key|]; [|intros [= <- <- <-]; left; done].
  destruct (negb (truthy_string key)); [intros [= <- <- <-]; left; done|].
  destruct (withRetry_default _ _ _ _) as [[[response w1] rlog]|]; [|done].
  destruct (readResponse JSON_parse _ response) as [r0 console0].
  destruct (catchFetch t isSyntaxError lang (r0, console0)) as [r1 console1] eqn:Hcatch.
  intros [= -> -> ->]. right.
  apply catchFetch_threw in Hcatch as [He ->]. split; [done|].
  rewrite last_snoc. done.
Qed.

End BatchFetchInGeneral.

(** X7 at a response whose options hold [null]. *)
Lemma generateBatchQuestionOptions_failures_witness :
  (Error (lit "error_api_generation") = Error apiKeyMissingMessage /\
   [ErrorGeneratingOptions] = [] /\ tt = tt) \/
  ((Error (lit "error_api_generation")
    = Error (englishKeys (lit "error_json_parse") tt) \/
    Error (lit "error_api_generation")
    = Error (englishKeys (lit "error_api_generation") tt)) /\
   last [ErrorGeneratingOptions] = Some ErrorGeneratingOptions).
Proof.
  apply (generateBatchQuestionOptions_failures englishKeys
           (parses (JArr responseNullOption)) id (fun _ => false)
           (answersWith (JSON_stringify (JArr responseNullOption)))
           noJitter (Some (lit "key")) twoQuestions tt tt tt).
  vm_compute. reflexivity.
Defined.

(** The keys of a map stay distinct under [set]. *)
Lemma Map_set_keys_perm {K V : Type} `{EqDecision K} (m : jsmap K V) k v :
  List.map fst (Map_set k v m)
  = if Map_has k m then List.map fst m else List.map fst m ++ [k].
Proof.
  unfold Map_has. induction m as [|[k0 v0] m IH]; simpl; [done|].
  case_decide as Heq; simpl.
  - subst. done.
  - rewrite IH. destruct (Map_get k m); done.
Qed.

Lemma Map_has_In {K V : Type} `{EqDecision K} (m : jsmap K V) k :
  Map_has k m = true <-> In k (List.map fst m).
Proof.
  unfold Map_has. induction m as [|[k0 v0] m IH]; simpl; [split; [done|tauto]|].
  case_decide as Heq; [subst; split; auto|].
  rewrite IH. split; [auto|]. intros [?|?]; [congruence|done].
Qed.

Lemma Map_set_NoDup {K V : Type} `{EqDecision K} (m : jsmap K V) k v :
  List.NoDup (List.map fst m) -> List.NoDup (List.map fst (Map_set k v m)).
Proof.
  intros Hnd. rewrite Map_set_keys_perm.
  destruct (Map_has k m) eqn:Hhas; [done|].
  apply NoDup_ListNoDup, NoDup_app. apply NoDup_ListNoDup in Hnd.
  split; [done|]. split; [|apply NoDup_singleton].
  intros x Hx Hx'. apply list_elem_of_singleton in Hx'. subst x.
  apply list_elem_of_In, Map_has_In in Hx. congruence.
Qed.

Lemma Map_set_length {K V : Type} `{EqDecision K} (m : jsmap K V) k v :
  length (Map_set k v m) = if Map_has k m then length m else S (length m).
Proof.
  rewrite <- (length_map fst), Map_set_keys_perm.
  destruct (Map_has k m); rewrite ?length_app, !length_map; simpl; lia.
Qed.

(** The loop keeps the keys distinct, adds at most one binding per entry,
    and binds only ids of entries that passed the check. *)
Lemma collectOptions_invariant (results : list json) :
  forall optionsMap console optionsMap' console',
    collectOptions results optionsMap console = (Returned optionsMap', console') ->
    List.NoDup (List.map fst optionsMap) ->
    List.NoDup (List.map fst optionsMap') /\
    (length optionsMap' <= length optionsMap + length results)%nat /\
    forall k, In k (List.map fst optionsMap') ->
      In k (List.map fst optionsMap) \/
      exists item, In item results /\ itemIsValid item = Returned true /\
                   questionIdOf item = Some k.
Proof.
  induction results as [|item rest IH];
    intros optionsMap console optionsMap' console' Hrun Hnd.
  - simpl in Hrun. injection Hrun as <- <-. simpl. split; [done|]. split; [lia|auto].
  - simpl in Hrun.
    assert (Hkeep : forall m c,
      collectOptions rest m c = (Returned optionsMap', console') ->
      List.NoDup (List.map fst m) ->
      (length m <= S (length optionsMap))%nat ->
      (forall k, In k (List.map fst m) ->
         In k (List.map fst optionsMap) \/
         exists it, In it (item :: rest) /\ itemIsValid it = Returned true /\
                    questionIdOf it = Some k) ->
      List.NoDup (List.map fst optionsMap') /\
      (length optionsMap' <= length optionsMap + length (item :: rest))%nat /\
      forall k, In k (List.map fst optionsMap') ->
        In k (List.map fst optionsMap) \/
        exists it, In it (item :: rest) /\ itemIsValid it = Returned true /\
                   questionIdOf it = Some k).
    { intros m c Hrun' Hnd' Hlen Hkeys.
      destruct (IH _ _ _ _ Hrun' Hnd') as (Hnd'' & Hlen' & Hkeys').
      split; [done|]. split; [simpl; lia|].
      intros k Hk. destruct (Hkeys' k Hk) as [Hm|(it & Hin & Hv & Hq)].
      - apply Hkeys. done.
      - right. exists it. split; [right; done|done]. }
    destruct (itemIsValid item) as [[|]|e] eqn:Hvalid; [| |done].
    + destruct (questionIdOf item) as [k0|] eqn:Hk0;
        [destruct (optionsOf item) as [optsJ|] eqn:Ho|].
      * apply (Hkeep _ _ Hrun).
        -- apply Map_set_NoDup. done.
        -- rewrite Map_set_length. destruct (Map_has k0 optionsMap); lia.
        -- intros k Hk. rewrite Map_set_keys_perm in Hk.
           destruct (Map_has k0 optionsMap); [left; done|].
           apply in_app_or in Hk as [Hk|[<-|[]]]; [left; done|].
           right. exists item. split; [left; done|done].
      * apply (Hkeep _ _ Hrun); [done|lia|auto].
      * apply (Hkeep _ _ Hrun); [done|lia|auto].
    + apply (Hkeep _ _ Hrun); [done|lia|auto].
Qed.

(** X8.  A map that the fetch returns has one binding per id, no more
    bindings than the response has entries, and binds only ids of response
    entries that passed the check. *)
Theorem optionsFromResults_keys
    (requested : Z) (results : list json) (optionsMap : options_map)
    (console : list console_entry) :
  optionsFromResults requested results = (Returned optionsMap, console) ->
  List.NoDup (List.map fst optionsMap) /\
  Map_size optionsMap <= Z.of_nat (length results) /\
  forall k, Map_has k optionsMap = true ->
    exists item, In item results /\ itemIsValid item = Returned true /\
                 questionIdOf item = Some k.
Proof.
  intros Hrun. apply optionsFromResults_returned in Hrun as (console0 & Hrun).
  apply collectOptions_invariant in Hrun as (Hnd & Hlen & Hkeys);
    [|constructor].
  split; [done|]. split; [unfold Map_size; simpl in Hlen; lia|].
  intros k Hk. apply Map_has_In in Hk.
  destruct (Hkeys k Hk) as [[]|Hitem]. done.
Qed.

(** X8 at [responseRepeated]. *)
Lemma optionsFromResults_keys_witness :
  List.NoDup (List.map fst [ (1, [GeneratedOption.mk (lit "b") 2]);
                             (3, [GeneratedOption.mk (lit "c") 3]) ]) /\
  Map_size [ (1, [GeneratedOption.mk (lit "b") 2]);
             (3, [GeneratedOption.mk (lit "c") 3]) ]
  <= Z.of_nat (length responseRepeated) /\
  forall k, Map_has k [ (1, [GeneratedOption.mk (lit "b") 2]);
                        (3, [GeneratedOption.mk (lit "c") 3]) ] = true ->
    exists item, In item responseRepeated /\ itemIsValid item = Returned true /\
                 questionIdOf item = Some k.
Proof.
  apply (optionsFromResults_keys 2 responseRepeated
           [ (1, [GeneratedOption.mk (lit "b") 2]);
             (3, [GeneratedOption.mk (lit "c") 3]) ] []).
  vm_compute. reflexivity.
Defined.

(** ** Extracting the array from the response text *)

Lemma indexOf_from_absent (c : N) (s : jsstring) (i : Z) :
  ~ In c s -> indexOf_from c s i = -1.
Proof.
  revert i. induction s as [|d s IH]; intros i Hc; simpl; [done|].
  destruct (N.eqb_spec d c) as [->|_]; [destruct Hc; left; done|].
  apply IH. intros Hin. apply Hc. right. done.
Qed.

Lemma indexOf_from_first (c : N) (pre rest : jsstring) (i : Z) :
  ~ In c pre ->
  indexOf_from c (pre ++ c :: rest) i = i + Z.of_nat (length pre).
Proof.
  revert i. induction pre as [|d pre IH]; intros i Hc; simpl.
  - rewrite N.eqb_refl. lia.
  - destruct (N.eqb_spec d c) as [->|_]; [destruct Hc; left; done|].
    rewrite IH by (intros Hin; apply Hc; right; done). lia.
Qed.

Lemma lastIndexOf_from_absent (c : N) (s : jsstring) (i found : Z) :
  ~ In c s -> lastIndexOf_from c s i found = found.
Proof.
  revert i found. induction s as [|d s IH]; intros i found Hc; simpl; [done|].
  destruct (N.eqb_spec d c) as [->|_]; [destruct Hc; left; done|].
  apply IH. intros Hin. apply Hc. right. done.
Qed.

Lemma lastIndexOf_from_last (c : N) (pre post : jsstring) (i found : Z) :
  ~ In c post ->
  lastIndexOf_from c (pre ++ c :: post) i found = i + Z.of_nat (length pre).
Proof.
  revert i found. induction pre as [|d pre IH]; intros i found Hc; simpl.
  - rewrite N.eqb_refl, lastIndexOf_from_absent by done. lia.
  - rewrite IH by done. lia.
Qed.

Lemma substring_middle (a b c : jsstring) (x y : Z) :
  x = Z.of_nat (length a) -> y = Z.of_nat (length a + length b) ->
  substring (a ++ b ++ c) x y = b.
Proof.
  intros -> ->. unfold substring. cbv zeta. rewrite !length_app.
  match goal with
  | |- firstn (Z.to_nat ?h) (skipn (Z.to_nat ?l) _) = _ =>
    replace (Z.to_nat h) with (length b) by lia;
    replace (Z.to_nat l) with (length a) by lia
  end.
  rewrite drop_app_length, take_app_length. done.
Qed.

(** X9.  A JSON array wrapped in other text, as in a fenced code block, is
    recovered exactly: from the first opening bracket to the last closing
    one.  A text without an opening or without a closing bracket is left
    as it is. *)
Theorem extractArrayText_recovers (text pre mid post : jsstring) :
  (text = pre ++ 91%N :: mid ++ 93%N :: post ->
   ~ In 91%N pre -> ~ In 93%N post ->
   extractArrayText text = 91%N :: mid ++ [93%N]) /\
  (~ In 91%N text \/ ~ In 93%N text -> extractArrayText text = text).
Proof.
  split.
  - intros -> Hpre Hpost. unfold extractArrayText, indexOf, lastIndexOf.
    rewrite indexOf_from_first by done.
    replace (pre ++ 91%N :: mid ++ 93%N :: post)
      with ((pre ++ 91%N :: mid) ++ 93%N :: post)
      by (rewrite <- app_assoc; done).
    rewrite lastIndexOf_from_last by done.
    rewrite length_app. simpl length.
    destruct (Z.eqb_spec (0 + Z.of_nat (length pre)) (-1)); [lia|].
    destruct (Z.eqb_spec (0 + Z.of_nat (length pre + S (length mid))) (-1)); [lia|].
    simpl negb. cbv iota.
    replace ((pre ++ 91%N :: mid) ++ 93%N :: post)
      with (pre ++ (91%N :: mid ++ [93%N]) ++ post)
      by (simpl; rewrite <- !app_assoc; done).
    apply substring_middle; [lia|].
    simpl length. rewrite length_app. simpl length. lia.
  - intros Hno. unfold extractArrayText, indexOf, lastIndexOf.
    destruct Hno as [Hno|Hno].
    + rewrite indexOf_from_absent by done. done.
    + rewrite (lastIndexOf_from_absent _ _ _ _ Hno).
      rewrite andb_false_r. done.
Qed.

(** X9 at a fenced block and at a text without brackets. *)
Lemma extractArrayText_recovers_witness :
  extractArrayText (lit "Here: [1,2] done.") = 91%N :: lit "1,2" ++ [93%N] /\
  extractArrayText (lit "no array") = lit "no array".
Proof.
  split.
  - apply (extractArrayText_recovers (lit "Here: [1,2] done.") (lit "Here: ")
             (lit "1,2") (lit " done.")).
    + reflexivity.
    + vm_compute. intuition discriminate.
    + vm_compute. intuition discriminate.
  - apply (extractArrayText_recovers (lit "no array") [] [] []).
    left. vm_compute. intuition discriminate.
Defined.

(** ** Merging fetched options into the cache *)

Lemma lastEntry_NoDup {V : Type} (entries : list (Z * V)) (k : Z) :
  List.NoDup (List.map fst entries) -> lastEntry k entries = Map_get k entries.
Proof.
  induction entries as [|[k0 v0] entries IH]; intros Hnd; simpl; [done|].
  inversion_clear Hnd as [|? ? Hnotin Hnd']. rewrite IH by done.
  case_decide as Heq; [|destruct (Map_get k entries); done].
  subst k0. destruct (Map_get k entries) as [v|] eqn:Hget; [|done].
  apply Map_get_In in Hget. destruct Hnotin.
  apply (in_map fst) in Hget. done.
Qed.

Lemma fold_set_NoDup {K V : Type} `{EqDecision K} (entries : list (K * V)) :
  forall m : jsmap K V,
    List.NoDup (List.map fst m) ->
    List.NoDup (List.map fst
      (fold_left (fun m kv => Map_set (fst kv) (snd kv) m) entries m)).
Proof.
  induction entries as [|[k v] entries IH]; intros m Hnd; simpl; [done|].
  apply IH, Map_set_NoDup. done.
Qed.

(** X10.  Merging a fetched map into the cache is a union in which the
    fetched bindings win: a question keeps the options it had unless new
    ones were fetched for it, so no cached question ever loses its
    options, and the keys stay distinct. *)
Theorem mergeOptions_union (prev generated : options_map) :
  List.NoDup (List.map fst prev) ->
  List.NoDup (List.map fst generated) ->
  List.NoDup (List.map fst (mergeOptions prev generated)) /\
  (forall k, Map_get k (mergeOptions prev generated)
             = match Map_get k generated with
               | Some opts => Some opts
               | None => Map_get k prev
               end) /\
  (forall k, Map_has k prev = true ->
             Map_has k (mergeOptions prev generated) = true).
Proof.
  intros Hprev Hgen.
  assert (Hget : forall k, Map_get k (mergeOptions prev generated)
             = match Map_get k generated with
               | Some opts => Some opts
               | None => Map_get k prev
               end).
  { intros k. unfold mergeOptions. rewrite Map_get_fold_set, lastEntry_NoDup; done. }
  split; [apply fold_set_NoDup; done|]. split; [done|].
  intros k. unfold Map_has. rewrite Hget.
  destruct (Map_get k generated), (Map_get k prev); done.
Qed.

(** X10 at a cache with question 3 and a fetch of questions 1 and 3. *)
Lemma mergeOptions_union_witness :
  let prev : options_map := [(3, [GeneratedOption.mk (lit "a") 4])] in
  let generated : options_map :=
    [ (1, [GeneratedOption.mk (lit "b") 2]);
      (3, [GeneratedOption.mk (lit "c") 3]) ] in
  List.NoDup (List.map fst (mergeOptions prev generated)) /\
  (forall k, Map_get k (mergeOptions prev generated)
             = match Map_get k generated with
               | Some opts => Some opts
               | None => Map_get k prev
               end) /\
  (forall k, Map_has k prev = true ->
             Map_has k (mergeOptions prev generated) = true).
Proof.
  apply (mergeOptions_union [(3, [GeneratedOption.mk (lit "a") 4])]
           [ (1, [GeneratedOption.mk (lit "b") 2]);
             (3, [GeneratedOption.mk (lit "c") 3]) ]).
  - repeat constructor; simpl; intuition discriminate.
  - repeat constructor; simpl; intuition discriminate.
Defined.

(** ** The windows of the batched fetch *)

Lemma slice_take_drop {A : Type} (l : list A) (s e : Z) :
  0 <= s <= e -> e <= Z.of_nat (length l) ->
  slice l s e = take (Z.to_nat (e - s)) (drop (Z.to_nat s) l).
Proof.
  intros Hs He. unfold slice. cbv zeta.
  destruct (Z.ltb_spec s 0); [lia|]. destruct (Z.ltb_spec e 0); [lia|].
  rewrite !Z.min_l by lia. done.
Qed.

Lemma slice_length {A : Type} (l : list A) (s e : Z) :
  0 <= s <= e -> e <= Z.of_nat (length l) ->
  length (slice l s e) = Z.to_nat (e - s).
Proof.
  intros Hs He. rewrite slice_take_drop by done.
  rewrite length_take, length_drop. lia.
Qed.

Lemma slice_lookup {A : Type} (l : list A) (s e i : Z) (x : A) :
  0 <= s <= e -> e <= Z.of_nat (length l) -> s <= i < e ->
  arrayGet l i = Some x -> In x (slice l s e).
Proof.
  intros Hs He Hi Hget. rewrite slice_take_drop by done.
  unfold arrayGet in Hget. destruct (Z.leb_spec 0 i); [|lia].
  apply list_elem_of_In, list_elem_of_lookup. exists (Z.to_nat (i - s)).
  rewrite lookup_take_lt by lia. rewrite lookup_drop.
  replace (Z.to_nat s + Z.to_nat (i - s))%nat with (Z.to_nat i) by lia. done.
Qed.

(** Two adjacent windows are consecutive pieces of the array. *)
Lemma slice_adjacent {A : Type} (l : list A) (s e e' : Z) :
  0 <= s <= e -> e <= e' -> e' <= Z.of_nat (length l) ->
  exists pre post, l = pre ++ slice l s e ++ slice l e e' ++ post.
Proof.
  intros Hs He He'. rewrite !slice_take_drop by lia.
  exists (take (Z.to_nat s) l), (drop (Z.to_nat e') l).
  rewrite <- (take_drop (Z.to_nat s) l) at 1. f_equal.
  rewrite <- (take_drop (Z.to_nat (e - s)) (drop (Z.to_nat s) l)) at 1. f_equal.
  rewrite drop_drop.
  replace (Z.to_nat s + Z.to_nat (e - s))%nat with (Z.to_nat e) by lia.
  rewrite <- (take_drop (Z.to_nat (e' - e)) (drop (Z.to_nat e) l)) at 1. f_equal.
  rewrite drop_drop. f_equal. lia.
Qed.

Lemma notCached_In (optionsCache : options_map) (questions : list Question.t)
    (k : Z) (s : jsstring) :
  In (k, s) (notCached optionsCache questions) <->
  exists q, In q questions /\ Question.id q = k /\ Question.text q = s /\
            Map_has k optionsCache = false.
Proof.
  unfold notCached. rewrite in_map_iff. split.
  - intros (q & [= <- <-] & Hq). apply filter_In in Hq as [Hq Hc].
    exists q. apply negb_true_iff in Hc. done.
  - intros (q & Hq & <- & <- & Hc). exists q. split; [done|].
    apply filter_In. split; [done|]. apply negb_true_iff. done.
Qed.

Lemma notCached_length (optionsCache : options_map) (questions : list Question.t) :
  (length (notCached optionsCache questions) <= length questions)%nat.
Proof.
  unfold notCached. rewrite length_map. apply List.filter_length_le.
Qed.

Lemma batch_window (currentQuestionIndex len : Z) :
  0 <= currentQuestionIndex < len ->
  0 <= batchStartIndex currentQuestionIndex <= currentQuestionIndex /\
  currentQuestionIndex < batchEndIndex currentQuestionIndex len <= len /\
  batchEndIndex currentQuestionIndex len - batchStartIndex currentQuestionIndex
  <= BATCH_SIZE.
Proof. unfold batchEndIndex, batchStartIndex, BATCH_SIZE. lia. Qed.

(** X11.  During the quiz, for a current question that is in the list and
    not yet cached: the batch to fetch holds the current question, the
    batch and the prefetch hold at most five questions each and only
    questions without cached options, and, the ids of the questions being
    distinct, no id is in both. *)
Theorem fetchPlan_windows (questions : list Question.t)
    (optionsCache : options_map) (currentQuestionIndex : Z)
    (currentQuestion : Question.t) :
  List.NoDup (List.map Question.id questions) ->
  arrayGet questions currentQuestionIndex = Some currentQuestion ->
  Map_has (Question.id currentQuestion) optionsCache = false ->
  exists batch prefetch,
    fetchPlan quiz questions optionsCache currentQuestionIndex
    = Returned (Fetch batch prefetch) /\
    In (Question.id currentQuestion, Question.text currentQuestion) batch /\
    Z.of_nat (length batch) <= BATCH_SIZE /\
    Z.of_nat (length prefetch) <= BATCH_SIZE /\
    (forall k s, In (k, s) (batch ++ prefetch) -> Map_has k optionsCache = false) /\
    (forall k, In k (List.map fst batch) -> ~ In k (List.map fst prefetch)).
Proof.
  intros Hnd Hget Hnew.
  assert (Hidx : 0 <= currentQuestionIndex < Z.of_nat (length questions)).
  { unfold arrayGet in Hget. destruct (Z.leb_spec 0 currentQuestionIndex); [|done].
    apply lookup_lt_Some in Hget. lia. }
  assert (Hplan : fetchPlan quiz questions optionsCache currentQuestionIndex
    = Returned (Fetch (batchToFetch questions optionsCache currentQuestionIndex)
                  (batchToPrefetch questions optionsCache currentQuestionIndex))).
  { unfold fetchPlan. destruct questions; [simpl in Hidx; lia|].
    rewrite Hget, Hnew. done. }
  destruct (batch_window _ _ Hidx) as (Hstart & Hend & Hsize).
  set (len := Z.of_nat (length questions)) in *.
  set (s := batchStartIndex currentQuestionIndex) in *.
  set (e := batchEndIndex currentQuestionIndex len) in *.
  exists (batchToFetch questions optionsCache currentQuestionIndex),
         (batchToPrefetch questions optionsCache currentQuestionIndex).
  assert (Hpre : batchToPrefetch questions optionsCache currentQuestionIndex
                 = notCached optionsCache (slice questions e (Z.min (e + BATCH_SIZE) len))).
  { unfold batchToPrefetch. cbv zeta. fold len. fold e.
    destruct (Z.ltb_spec e len); [done|].
    assert (e = len) as -> by lia.
    rewrite slice_take_drop by (unfold BATCH_SIZE, len; lia).
    unfold len. rewrite Nat2Z.id, drop_all, take_nil. done. }
  split; [exact Hplan|].
  rewrite Hpre. unfold batchToFetch. fold len. fold s. fold e.
  split.
  { apply notCached_In. exists currentQuestion.
    split; [|done]. apply (slice_lookup _ _ _ currentQuestionIndex); lia || done. }
  split.
  { pose proof (notCached_length optionsCache (slice questions s e)) as Hle.
    rewrite slice_length in Hle by lia. lia. }
  split.
  { pose proof (notCached_length optionsCache
                  (slice questions e (Z.min (e + BATCH_SIZE) len))) as Hle.
    rewrite slice_length in Hle by (unfold BATCH_SIZE; lia).
    unfold BATCH_SIZE in *. lia. }
  split.
  { intros k s0 Hin. apply in_app_or in Hin as [Hin|Hin];
      apply notCached_In in Hin as (q & _ & _ & _ & Hc); done. }
  intros k Hk Hk'.
  apply in_map_iff in Hk as ([k1 s1] & Hk1 & Hin1). simpl in Hk1. subst k1.
  apply in_map_iff in Hk' as ([k2 s2] & Hk2 & Hin2). simpl in Hk2. subst k2.
  apply notCached_In in Hin1 as (q1 & Hq1 & Hid1 & _).
  apply notCached_In in Hin2 as (q2 & Hq2 & Hid2 & _).
  destruct (slice_adjacent questions s e (Z.min (e + BATCH_SIZE) len))
    as (pre & post & Hsplit); [lia|unfold BATCH_SIZE; lia|lia|].
  rewrite Hsplit in Hnd. rewrite !map_app in Hnd.
  apply NoDup_ListNoDup in Hnd.
  apply NoDup_app in Hnd as (_ & _ & Hnd).
  apply NoDup_app in Hnd as (_ & Hdisj & _).
  apply (Hdisj k).
  - apply list_elem_of_In. rewrite <- Hid1. apply in_map. done.
  - apply list_elem_of_In, in_or_app. left. rewrite <- Hid2. apply in_map. done.
Qed.

(** X11 at the seventh of the 140 questions, with an empty cache. *)
Lemma fetchPlan_windows_witness :
  exists batch prefetch,
    fetchPlan quiz initialQuestions Map_empty 6
    = Returned (Fetch batch prefetch) /\
    In (Question.id (Question.mk 7 [] (lit "A") []),
        Question.text (Question.mk 7 [] (lit "A") [])) batch /\
    Z.of_nat (length batch) <= BATCH_SIZE /\
    Z.of_nat (length prefetch) <= BATCH_SIZE /\
    (forall k s, In (k, s) (batch ++ prefetch) ->
                 Map_has k (Map_empty : options_map) = false) /\
    (forall k, In k (List.map fst batch) -> ~ In k (List.map fst prefetch)).
Proof.
  apply (fetchPlan_windows initialQuestions Map_empty 6
           (Question.mk 7 [] (lit "A") [])).
  - rewrite initialQuestions_ids. unfold idsFrom.
    apply NoDup_ListNoDup, NoDup_fmap_2; [intros x y; lia|apply NoDup_seq].
  - reflexivity.
  - reflexivity.
Defined.

(** ** Moving through the quiz *)

(** X12.  Next and previous keep the current question index inside the
    question list; going on and back, or back and on, returns to the same
    quiz state, and on the last question "next" leaves the index alone and
    shows the results. *)
Theorem navigation_in_bounds {Language : Type} (st : App Language) :
  indexInBounds (quizState st) ->
  indexInBounds (quizState (handleNextQuestion st)) /\
  indexInBounds (quizState (handlePreviousQuestion st)) /\
  (currentQuestionIndex (quizState st)
   < Z.of_nat (length (shuffledQuestions (quizState st))) - 1 ->
   quizState (handlePreviousQuestion (handleNextQuestion st)) = quizState st) /\
  (0 < currentQuestionIndex (quizState st) ->
   quizState (handleNextQuestion (handlePreviousQuestion st)) = quizState st) /\
  (currentQuestionIndex (quizState st)
   = Z.of_nat (length (shuffledQuestions (quizState st))) - 1 ->
   appState (quizState (handleNextQuestion st)) = results /\
   currentQuestionIndex (quizState (handleNextQuestion st))
   = currentQuestionIndex (quizState st)).
Proof.
  destruct st as [[a i ans c sq er h va vi] v r s d].
  unfold indexInBounds, handleNextQuestion, handlePreviousQuestion. simpl.
  intros Hi. repeat split.
  - destruct (Z.ltb_spec i (Z.of_nat (length sq) - 1)); simpl; lia.
  - destruct (Z.ltb_spec i (Z.of_nat (length sq) - 1)); simpl; lia.
  - destruct (Z.ltb_spec 0 i); simpl; lia.
  - destruct (Z.ltb_spec 0 i); simpl; lia.
  - intros Hlt. destruct (Z.ltb_spec i (Z.of_nat (length sq) - 1)); [|lia].
    simpl. destruct (Z.ltb_spec 0 (i + 1)); [|lia]. simpl.
    unfold setCurrentQuestionIndex. simpl. f_equal; lia.
  - intros Hpos. destruct (Z.ltb_spec 0 i); [|lia]. simpl.
    destruct (Z.ltb_spec (i - 1) (Z.of_nat (length sq) - 1)); [|lia]. simpl.
    unfold setCurrentQuestionIndex. simpl. f_equal; lia.
  - destruct (Z.ltb_spec i (Z.of_nat (length sq) - 1)); [lia|done].
  - destruct (Z.ltb_spec i (Z.of_nat (length sq) - 1)); [lia|done].
Qed.

(** X12 in the middle of a quiz. *)
Lemma navigation_in_bounds_witness :
  indexInBounds (quizState (handleNextQuestion midQuiz)) /\
  indexInBounds (quizState (handlePreviousQuestion midQuiz)) /\
  (currentQuestionIndex (quizState midQuiz)
   < Z.of_nat (length (shuffledQuestions (quizState midQuiz))) - 1 ->
   quizState (handlePreviousQuestion (handleNextQuestion midQuiz))
   = quizState midQuiz) /\
  (0 < currentQuestionIndex (quizState midQuiz) ->
   quizState (handleNextQuestion (handlePreviousQuestion midQuiz))
   = quizState midQuiz) /\
  (currentQuestionIndex (quizState midQuiz)
   = Z.of_nat (length (shuffledQuestions (quizState midQuiz))) - 1 ->
   appState (quizState (handleNextQuestion midQuiz)) = results /\
   currentQuestionIndex (quizState (handleNextQuestion midQuiz))
   = currentQuestionIndex (quizState midQuiz)).
Proof.
  apply (navigation_in_bounds midQuiz). unfold indexInBounds. simpl. lia.
Defined.

(** X13.  An answer replaces the earlier answer to the same question and
    adds to the count only for a question not answered before; the other
    answers stay as they are and the ids stay distinct. *)
Theorem handleAnswer_one_per_question {Language : Type}
    (answer : Answer.t) (st : App Language) :
  List.NoDup (List.map fst (answers (quizState st))) ->
  let st' := handleAnswer answer st in
  List.NoDup (List.map fst (answers (quizState st'))) /\
  Map_get (Answer.questionId answer) (answers (quizState st')) = Some answer /\
  (forall k, k <> Answer.questionId answer ->
     Map_get k (answers (quizState st')) = Map_get k (answers (quizState st))) /\
  Map_size (answers (quizState st'))
  = (if Map_has (Answer.questionId answer) (answers (quizState st))
     then Map_size (answers (quizState st))
     else Map_size (answers (quizState st)) + 1).
Proof.
  intros Hnd st'. subst st'. simpl. split; [apply Map_set_NoDup; done|].
  split; [apply Map_get_set_eq|]. split; [intros k Hk; apply Map_get_set_ne; done|].
  unfold Map_size. rewrite Map_set_length.
  destruct (Map_has _ _); lia.
Qed.

(** X13 at a second answer to question 3 in the middle of a quiz. *)
Lemma handleAnswer_one_per_question_witness :
  let answer := Answer.mk 3 1 (lit "c") [] in
  let st' := handleAnswer answer midQuiz in
  List.NoDup (List.map fst (answers (quizState st'))) /\
  Map_get (Answer.questionId answer) (answers (quizState st')) = Some answer /\
  (forall k, k <> Answer.questionId answer ->
     Map_get k (answers (quizState st')) = Map_get k (answers (quizState midQuiz))) /\
  Map_size (answers (quizState st'))
  = (if Map_has (Answer.questionId answer) (answers (quizState midQuiz))
     then Map_size (answers (quizState midQuiz))
     else Map_size (answers (quizState midQuiz)) + 1).
Proof.
  apply (handleAnswer_one_per_question (Answer.mk 3 1 (lit "c") []) midQuiz).
  simpl. repeat constructor; simpl; intuition discriminate.
Defined.

(** ** Leaving and restarting, with the persistence effect *)

(** X14.  After [confirmExit], from any state, the answers, the options
    cache and the image history are empty and the index is 0, while the
    order of the questions is kept; the persistence effect that follows
    leaves no progress record in the storage. *)
Theorem confirmExit_forgets_progress {Language : Type} (st : App Language) :
  let st' := persistProgress (confirmExit st) in
  appState (quizState st') = introduction /\
  currentQuestionIndex (quizState st') = 0 /\
  answers (quizState st') = Map_empty /\
  optionsCache (quizState st') = Map_empty /\
  worldviewImageHistory (quizState st') = [] /\
  shuffledQuestions (quizState st') = shuffledQuestions (quizState st) /\
  getItem quizProgressKey (localStorage st') = None.
Proof.
  simpl. repeat split.
  unfold getItem, removeItem.
  destruct (viewingAnswers (quizState st)); rewrite ?lookup_delete_eq; done.
Qed.

(** X15.  [handleStartQuiz] removes the progress record, and the
    persistence effect that follows the state change writes a new one: the
    JSON text of the fresh quiz state. *)
Theorem handleStartQuiz_then_persist {Language : Type}
    (random : nat -> Q) (st : App Language) :
  (forall k, (0 <= random k)%Q /\ (random k < 1)%Q) ->
  exists st',
    handleStartQuiz random st = Some st' /\
    getItem quizProgressKey (localStorage st') = None /\
    getItem quizProgressKey (localStorage (persistProgress st'))
    = Some (JSON_stringify (jsonOfProgress (quizState st'))) /\
    answers (quizState (persistProgress st')) = Map_empty.
Proof.
  intros Hrandom. unfold handleStartQuiz.
  destruct (shuffle_Permutation random Hrandom initialQuestions)
    as (array & -> & _).
  eexists. split; [done|]. simpl. unfold getItem, setItem, removeItem.
  rewrite lookup_delete_eq, lookup_insert_eq. done.
Qed.

(** X15 in the middle of a quiz. *)
Lemma handleStartQuiz_then_persist_witness :
  exists st',
    handleStartQuiz halfJitter midQuiz = Some st' /\
    getItem quizProgressKey (localStorage st') = None /\
    getItem quizProgressKey (localStorage (persistProgress st'))
    = Some (JSON_stringify (jsonOfProgress (quizState st'))) /\
    answers (quizState (persistProgress st')) = Map_empty.
Proof.
  apply (handleStartQuiz_then_persist halfJitter midQuiz).
  intros k. split; [discriminate|reflexivity].
Defined.

(** ** What every reachable state satisfies *)

Lemma initialQuestions_nonempty (l : list Question.t) :
  Permutation l initialQuestions -> 0 < Z.of_nat (length l).
Proof.
  intros Hperm. rewrite (Permutation_length Hperm), initialQuestions_length. lia.
Qed.

Lemma wellFormed_handleAnswer {Language : Type} (answer : Answer.t)
    (st : App Language) :
  In (Answer.questionId answer) (List.map Question.id initialQuestions) ->
  wellFormedQuiz (quizState st) ->
  wellFormedQuiz (quizState (handleAnswer answer st)).
Proof.
  intros Hid (Hperm & Hidx & Hnd & Hkeys & Hview).
  unfold wellFormedQuiz, indexInBounds. simpl.
  split; [done|]. split; [done|]. split; [apply Map_set_NoDup; done|].
  split; [|done].
  intros k a Hin. apply Map_set_In in Hin as [[= -> ->]|Hin]; [done|].
  apply Hkeys. done.
Qed.

Lemma wellFormed_handleNextQuestion {Language : Type} (st : App Language) :
  wellFormedQuiz (quizState st) ->
  wellFormedQuiz (quizState (handleNextQuestion st)).
Proof.
  destruct st as [[a i ans c sq er h va vi] v r s d].
  intros (Hperm & Hidx & Hnd & Hkeys & Hview).
  unfold wellFormedQuiz, indexInBounds, handleNextQuestion in *. simpl in *.
  destruct (Z.ltb_spec i (Z.of_nat (length sq) - 1)); simpl.
  - split; [done|]. split; [lia|]. done.
  - split; [done|]. split; [lia|]. split; [done|]. split; [done|]. done.
Qed.

Lemma wellFormed_same_quiz (q q' : QuizState) :
  q' = q -> wellFormedQuiz q -> wellFormedQuiz q'.
Proof. intros ->. done. Qed.

Lemma wellFormed_onFunctionCall {Language : Type}
    (currentQuestion : Question.t) (currentOptions : list GeneratedOption.t)
    (language : Language) (fc : FunctionCall) (st : App Language) :
  In (Question.id currentQuestion) (List.map Question.id initialQuestions) ->
  wellFormedQuiz (quizState st) ->
  wellFormedQuiz
    (quizState (onFunctionCall currentQuestion currentOptions language fc st)).
Proof.
  intros Hid Hwf. unfold onFunctionCall.
  destruct (bool_decide _); [|done].
  rewrite handleCloseVoiceModal_quiz.
  assert (Hanswered : wellFormedQuiz (quizState
    match arrayGet currentOptions (selectedOptionIndex fc) with
    | Some option =>
      handleAnswer
        (Answer.mk (Question.id currentQuestion) (GeneratedOption.score option)
           (GeneratedOption.text option)
           (if truthy_string (comment fc) then comment fc else [])) st
    | None => st
    end)).
  { destruct (arrayGet currentOptions (selectedOptionIndex fc)); [|done].
    apply wellFormed_handleAnswer; done. }
  destruct (truthy_string (farewell fc)); done.
Qed.

Lemma localized_id {Language : Type} (t : jsstring -> Language -> jsstring)
    (language : Language) (questions : list Question.t) (i : Z)
    (q : Question.t) :
  arrayGet (localizedShuffledQuestions t language questions) i = Some q ->
  In (Question.id q) (List.map Question.id questions).
Proof.
  unfold arrayGet, localizedShuffledQuestions. destruct (0 <=? i); [|done].
  rewrite list_lookup_fmap. destruct (questions !! Z.to_nat i) as [q0|] eqn:Hq0; [|done].
  intros [= <-]. simpl. apply in_map, list_elem_of_In.
  eapply list_elem_of_lookup_2. done.
Qed.

Section ReachableStates.
Context {Language : Type}.
Variable t : jsstring -> Language -> jsstring.

Lemma wellFormed_step (st st' : App Language) :
  step t st st' -> wellFormedQuiz (quizState st) -> wellFormedQuiz (quizState st').
Proof.
  intros Hstep Hwf.
  destruct Hstep as [random st st' Hrandom Hstart
                    |language selected remark question st Hquiz Hcurrent
                    |st|language question options calls st Hid|st|result st|st|st].
  - unfold handleStartQuiz in Hstart.
    destruct (shuffle_Permutation random Hrandom initialQuestions)
      as (array & Hshuffle & Hperm).
    rewrite Hshuffle in Hstart. injection Hstart as <-.
    unfold wellFormedQuiz, indexInBounds. simpl.
    split; [done|]. split; [pose proof (initialQuestions_nonempty _ Hperm); lia|].
    split; [constructor|]. split; [intros k a []|done].
  - assert (Hid : In (Question.id question) (List.map Question.id initialQuestions)).
    { apply localized_id in Hcurrent. destruct Hwf as (Hperm & _).
      eapply Permutation_in; [|exact Hcurrent].
      apply Permutation_map. done. }
    unfold handleNext.
    destruct selected as [option|];
      [|destruct (truthy_string (trim remark))].
    + apply wellFormed_handleNextQuestion, wellFormed_handleAnswer; done.
    + apply wellFormed_handleNextQuestion, wellFormed_handleAnswer; done.
    + done.
  - destruct st as [[a i ans c sq er h va vi] v r s d].
    destruct Hwf as (Hperm & Hidx & Hnd & Hkeys & Hview).
    unfold wellFormedQuiz, indexInBounds, handlePreviousQuestion in *.
    simpl in *. destruct (Z.ltb_spec 0 i); simpl; [|done].
    split; [done|]. split; [lia|]. done.
  - unfold onToolCall. revert st Hwf.
    induction calls as [|fc calls IH]; intros st Hwf; simpl; [done|].
    apply IH, wellFormed_onFunctionCall; done.
  - destruct Hwf as (Hperm & Hidx & Hnd & Hkeys & Hview).
    unfold wellFormedQuiz, indexInBounds. simpl.
    split; [done|]. split; [pose proof (initialQuestions_nonempty _ Hperm); lia|].
    split; [constructor|]. split; [intros k a []|done].
  - destruct Hwf as (Hperm & Hidx & Hnd & Hkeys & Hview).
    unfold wellFormedQuiz, indexInBounds. simpl. done.
  - destruct Hwf as (Hperm & Hidx & Hnd & Hkeys & Hview).
    unfold wellFormedQuiz, indexInBounds. simpl. done.
  - done.
Qed.

(** X16.  In every state that the handlers reach from a fresh start: the
    questions are a permutation of the 140 initial ones, the current index
    points at one of them, there is at most one answer per question, every
    answer is stored under its own question id, which is the id of one of
    the questions, and no saved result is being viewed during the quiz. *)
Theorem reachable_wellFormed (st : App Language) :
  reachable t st -> wellFormedQuiz (quizState st).
Proof.
  induction 1 as [v r s d|st st' _ IH Hstep].
  - unfold wellFormedQuiz, indexInBounds.
    split; [done|].
    split; [vm_compute; split; [discriminate|reflexivity]|].
    split; [constructor|]. split; [intros k a []|done].
  - eapply wellFormed_step; done.
Qed.

End ReachableStates.

(** X16 at a fresh start followed by a start of the quiz, a typed answer
    and a step back. *)
Lemma reachable_wellFormed_witness :
  exists st : App unit,
    reachable englishKeys st /\
    appState (quizState st) = quiz /\
    Map_size (answers (quizState st)) = 1 /\
    wellFormedQuiz (quizState st).
Proof.
  set (st0 := mkApp defaultQuizState (voice midQuiz) (refs midQuiz) ∅ []
              : App unit).
  destruct (handleStartQuiz halfJitter st0) as [st1|] eqn:Hstart;
    [|vm_compute in Hstart; discriminate].
  assert (H1 : reachable englishKeys st1).
  { apply (reachable_step englishKeys st0); [constructor|].
    apply (step_start englishKeys halfJitter); [|done].
    intros k. split; [discriminate|reflexivity]. }
  destruct (arrayGet (localizedShuffledQuestions englishKeys tt
                        (shuffledQuestions (quizState st1)))
                     (currentQuestionIndex (quizState st1)))
    as [question|] eqn:Hquestion;
    [|vm_compute in Hstart; injection Hstart as <-;
      vm_compute in Hquestion; discriminate].
  set (st2 := runCardActions
                (handleNext englishKeys question tt None (lit "it depends")) st1).
  assert (H2 : reachable englishKeys st2).
  { apply (reachable_step englishKeys st1); [done|].
    apply step_card; [|done].
    vm_compute in Hstart. injection Hstart as <-. reflexivity. }
  exists (handlePreviousQuestion st2).
  assert (H3 : reachable englishKeys (handlePreviousQuestion st2)).
  { apply (reachable_step englishKeys st2); [done|]. apply step_previous. }
  split; [done|].
  split; [|split; [|apply (reachable_wellFormed englishKeys); done]].
  - subst st2. vm_compute in Hstart. injection Hstart as <-. reflexivity.
  - subst st2. vm_compute in Hstart. injection Hstart as <-. reflexivity.
Defined.

(** ** The worldview image *)


(** A well-formed quiz state has at most 140 answers. *)
Lemma wellFormed_answer_count (q : QuizState) :
  wellFormedQuiz q -> 0 <= Map_size (answers q) <= 140.
Proof.
  intros (_ & _ & Hnd & Hkeys & _). unfold Map_size. split; [lia|].
  assert (Hle : (length (List.map fst (answers q))
                 <= length (List.map Question.id initialQuestions))%nat).
  { apply List.NoDup_incl_length; [done|]. intros k Hk.
    apply in_map_iff in Hk as ([k' a] & <- & Hin). apply (Hkeys k' a). done. }
  rewrite !length_map, initialQuestions_length in Hle. lia.
Qed.

(** X17.  In a well-formed quiz state with at least one answer, the stage
    that [updateWorldviewImage] draws is one of the fourteen prompts, it is
    the index the effect has looked at, and at a multiple of ten answers it
    is the number of tens less one: each of the fourteen prompts is used
    for one block of ten answers. *)
Theorem imageStage_in_range (q : QuizState) :
  wellFormedQuiz q ->
  1 <= Map_size (answers q) ->
  let n := Map_size (answers q) in
  0 <= imageStage n <= promptCount - 1 /\
  imageStage n = currentStageIndex n /\
  (Z.rem n 10 = 0 -> imageStage n = n / 10 - 1).
Proof.
  intros Hwf Hn n. pose proof (wellFormed_answer_count q Hwf) as Hcount.
  fold n in Hcount, Hn.
  unfold imageStage, currentStageIndex, promptCount. lia.
Qed.

Lemma midQuiz_wellFormed : wellFormedQuiz (quizState midQuiz).
Proof.
  unfold wellFormedQuiz, indexInBounds. simpl.
  split; [apply Permutation_sym, Permutation_rev|].
  split; [vm_compute; split; [discriminate|reflexivity]|].
  split; [repeat constructor; simpl; intuition discriminate|].
  split; [|done].
  intros k a [[= <- <-]|[[= <- <-]|[]]]; (split; [done|]);
    repeat (first [left; reflexivity | right]).
Qed.

(** X17 in the middle of a quiz, with two answers. *)
Lemma imageStage_in_range_witness :
  let n := Map_size (answers (quizState midQuiz)) in
  0 <= imageStage n <= promptCount - 1 /\
  imageStage n = currentStageIndex n /\
  (Z.rem n 10 = 0 -> imageStage n = n / 10 - 1).
Proof.
  apply (imageStage_in_range (quizState midQuiz)).
  - apply midQuiz_wellFormed.
  - vm_compute. discriminate.
Defined.

Lemma find_app_found {A : Type} (f : A -> bool) (l1 l2 : list A) (x : A) :
  List.find f l1 = Some x -> List.find f (l1 ++ l2) = Some x.
Proof.
  induction l1 as [|y l1 IH]; simpl; [done|]. destruct (f y); auto.
Qed.

(** X18.  Storing an image at a stage puts it there and leaves every other
    entry as it was; a stage past the end grows the history, with holes in
    between; and a non-empty image stored at or past the end is the latest
    image from then on. *)
Theorem setImage_lookup (history : list (option jsstring)) (stage : nat)
    (imageUrl : jsstring) :
  setImage history stage imageUrl !! stage = Some (Some imageUrl) /\
  (forall i, i <> stage ->
     setImage history stage imageUrl !! i
     = if (i <? length history)%nat then history !! i
       else if (i <? stage)%nat then Some None else None) /\
  length (setImage history stage imageUrl) = Nat.max (length history) (S stage) /\
  (truthy_string imageUrl = true -> (length history <= S stage)%nat ->
   latestImage (setImage history stage imageUrl) = Some imageUrl).
Proof.
  unfold setImage. destruct (Nat.ltb_spec stage (length history)) as [Hlt|Hge].
  - split; [apply list_lookup_insert_eq; done|].
    split.
    { intros i Hi. rewrite list_lookup_insert_ne by done.
      destruct (Nat.ltb_spec i (length history)); [done|].
      rewrite lookup_ge_None_2 by lia.
      destruct (Nat.ltb_spec i stage); [lia|done]. }
    split; [rewrite length_insert; lia|].
    intros Hurl Hlen. assert (length history = S stage) as Hlast by lia.
    unfold latestImage.
    assert (Hsplit : <[stage := Some imageUrl]> history
                     = take stage history ++ [Some imageUrl]).
    { rewrite insert_take_drop by done.
      rewrite (drop_ge history (S stage)) by lia. done. }
    rewrite Hsplit, rev_app_distr. simpl. rewrite Hurl. done.
  - split.
    { rewrite lookup_app_r by lia.
      rewrite lookup_app_r by (rewrite length_replicate; lia).
      rewrite length_replicate.
      replace (stage - length history - (stage - length history))%nat
        with 0%nat by lia. done. }
    split.
    { intros i Hi. destruct (Nat.ltb_spec i (length history)) as [Hi'|Hi'].
      - rewrite lookup_app_l by done. done.
      - rewrite lookup_app_r by done.
        destruct (Nat.ltb_spec i stage) as [Hi''|Hi''].
        + rewrite lookup_app_l by (rewrite length_replicate; lia).
          apply lookup_replicate_2. lia.
        + rewrite lookup_app_r by (rewrite length_replicate; lia).
          rewrite length_replicate. apply lookup_ge_None_2. simpl. lia. }
    split; [rewrite !length_app, length_replicate; simpl; lia|].
    intros Hurl _. unfold latestImage.
    rewrite app_assoc, rev_app_distr. simpl. rewrite Hurl. done.
Qed.

(** ** Scores of the results page *)

Lemma fold_left_sum {A : Type} (f : A -> Z) (l : list A) (a : Z) :
  fold_left (fun s x => s + f x) l a = a + sumZ (List.map f l).
Proof.
  revert a. induction l as [|x l IH]; intros a; simpl; [lia|].
  rewrite IH. lia.
Qed.


Lemma totalScore_sum (answers : answers_map) :
  totalScore answers = sumZ (List.map (fun kv => Answer.score (snd kv)) answers).
Proof. unfold totalScore, Map_entries. rewrite fold_left_sum. lia. Qed.

Lemma userCategoryScore_sum (answers : answers_map) (questions : list Z) :
  userCategoryScore answers questions
  = sumZ (List.map (scoreOf answers) questions).
Proof.
  unfold userCategoryScore.
  assert (Hgen : forall acc,
    fold_left (fun score q => match Map_get q answers with
                              | Some a => score + Answer.score a
                              | None => score
                              end) questions acc
    = acc + sumZ (List.map (scoreOf answers) questions)).
  { induction questions as [|q qs IH]; intros acc; simpl; [lia|].
    rewrite IH. unfold scoreOf. destruct (Map_get q answers); lia. }
  rewrite Hgen. lia.
Qed.









Lemma sumZ_bounds (l : list Z) (lo hi : Z) :
  Forall (fun x => lo <= x <= hi) l ->
  lo * Z.of_nat (length l) <= sumZ l <= hi * Z.of_nat (length l).
Proof. induction 1 as [|x l Hx _ IH]; simpl length; simpl sumZ; lia. Qed.

(** X20.  When every answer has a score between 0 and 5, and the answers
    have distinct ids of the question list: the total score is between 0
    and five times the number of answers, hence at most the maximal score
    of 700, and every category score is between 0 and the maximal score of
    its category. *)
Theorem scores_within_maximum (answers : answers_map) :
  List.NoDup (List.map fst answers) ->
  (forall k, In k (List.map fst answers) ->
             In k (List.map Question.id initialQuestions)) ->
  (forall k a, In (k, a) answers -> 0 <= Answer.score a <= 5) ->
  0 <= totalScore answers <= MAX_SCORE_PER_QUESTION * Map_size answers /\
  totalScore answers <= maxScore /\
  maxScore = 700 /\
  Forall (fun c => 0 <= snd (fst c) <= snd c) (categoryData answers).
Proof.
  intros Hnd Hsub Hrange.
  assert (Htotal : 0 <= totalScore answers
                   <= MAX_SCORE_PER_QUESTION * Map_size answers).
  { rewrite totalScore_sum. unfold MAX_SCORE_PER_QUESTION, Map_size.
    pose proof (sumZ_bounds (List.map (fun kv => Answer.score (snd kv)) answers) 0 5)
      as Hb.
    rewrite length_map in Hb. apply Hb.
    apply Forall_forall. intros x Hx.
    apply list_elem_of_In, in_map_iff in Hx as ([k a] & <- & Hin).
    apply (Hrange k a). done. }
  assert (Hsize : Map_size answers <= 140).
  { unfold Map_size.
    assert (Hle : (length (List.map fst answers)
                   <= length (List.map Question.id initialQuestions))%nat)
      by (apply List.NoDup_incl_length; done).
    rewrite !length_map, initialQuestions_length in Hle. lia. }
  split; [done|]. split; [unfold MAX_SCORE_PER_QUESTION in *; change maxScore with 700; lia|].
  split; [reflexivity|].
  unfold categoryData. apply Forall_forall. intros c Hc.
  apply list_elem_of_In, in_map_iff in Hc as ([key questions] & <- & _).
  simpl. rewrite userCategoryScore_sum.
  pose proof (sumZ_bounds (List.map (scoreOf answers) questions) 0 5) as Hb.
  rewrite length_map in Hb. unfold MAX_SCORE_PER_QUESTION.
  assert (Hall : Forall (fun x => 0 <= x <= 5) (List.map (scoreOf answers) questions)).
  { apply Forall_forall. intros x Hx.
    apply list_elem_of_In, in_map_iff in Hx as (q & <- & _).
    unfold scoreOf. destruct (Map_get q answers) as [a|] eqn:Hget; [|lia].
    apply (Hrange q a), Map_get_In. done. }
  specialize (Hb Hall). lia.
Qed.

(** X20 at the two answers in the middle of a quiz. *)
Lemma scores_within_maximum_witness :
  0 <= totalScore (answers (quizState midQuiz))
  <= MAX_SCORE_PER_QUESTION * Map_size (answers (quizState midQuiz)) /\
  totalScore (answers (quizState midQuiz)) <= maxScore /\
  maxScore = 700 /\
  Forall (fun c => 0 <= snd (fst c) <= snd c)
    (categoryData (answers (quizState midQuiz))).
Proof.
  apply (scores_within_maximum (answers (quizState midQuiz))).
  - simpl. repeat constructor; simpl; intuition discriminate.
  - intros k [<-|[<-|[]]]; repeat (first [left; reflexivity | right]).
  - intros k a [[= <- <-]|[[= <- <-]|[]]]; simpl; lia.
Defined.

(** ** The personality type *)









(** ** The question card *)

Lemma truthy_string_nonempty (s : jsstring) :
  truthy_string s = true <-> s <> [].
Proof. destruct s; simpl; split; intros; congruence. Qed.

Section Card.
Context {Language : Type}.
Variable t : jsstring -> Language -> jsstring.

(** X22.  A click on the Next button, which is enabled only with an option
    selected or a remark that is not blank, records one answer to the
    question shown and moves on; the alert that asks for an option is
    never raised through the button. *)
Theorem next_button_never_alerts
    (question : Question.t) (language : Language) (c : Card.t)
    (isLoading : bool) (error : option jsstring) :
  nextDisabled c isLoading error = false ->
  let actions :=
    handleNext t question language (Card.selectedOption c) (Card.remark c) in
  (exists answer,
     actions = [OnAnswer answer; OnNext] /\
     Answer.questionId answer = Question.id question /\
     (forall option, Card.selectedOption c = Some option ->
        Answer.score answer = GeneratedOption.score option /\
        Answer.optionText answer = GeneratedOption.text option /\
        Answer.remark answer = Card.remark c) /\
     (Card.selectedOption c = None ->
        Answer.score answer = 0 /\
        Answer.remark answer = trim (Card.remark c) /\
        Answer.remark answer <> [])) /\
  forall message, ~ In (CardAlert message) actions.
Proof.
  intros Henabled actions. subst actions.
  unfold nextDisabled in Henabled.
  apply orb_false_iff in Henabled as [Henabled _].
  apply orb_false_iff in Henabled as [Henabled _].
  unfold handleNext. destruct (Card.selectedOption c) as [option|] eqn:Hsel.
  - split.
    + eexists. split; [reflexivity|]. simpl. split; [reflexivity|].
      split; [|discriminate].
      intros option' Heq. injection Heq as <-. done.
    + intros message [Hin|[Hin|[]]]; discriminate.
  - simpl in Henabled. apply negb_false_iff in Henabled.
    rewrite Henabled. split.
    + eexists. split; [reflexivity|]. simpl. split; [reflexivity|].
      split; [discriminate|]. intros _.
      split; [reflexivity|]. split; [reflexivity|].
      apply truthy_string_nonempty. exact Henabled.
    + intros message [Hin|[Hin|[]]]; discriminate.
Qed.

End Card.

(** X22 for a card with only a remark typed in. *)
Lemma next_button_never_alerts_witness :
  let c := Card.mk None (lit " it depends ") in
  let actions :=
    handleNext englishKeys question7 tt (Card.selectedOption c) (Card.remark c) in
  (exists answer,
     actions = [OnAnswer answer; OnNext] /\
     Answer.questionId answer = Question.id question7 /\
     (forall option, Card.selectedOption c = Some option ->
        Answer.score answer = GeneratedOption.score option /\
        Answer.optionText answer = GeneratedOption.text option /\
        Answer.remark answer = Card.remark c) /\
     (Card.selectedOption c = None ->
        Answer.score answer = 0 /\
        Answer.remark answer = trim (Card.remark c) /\
        Answer.remark answer <> [])) /\
  forall message, ~ In (CardAlert message) actions.
Proof.
  apply (next_button_never_alerts englishKeys question7 tt
           (Card.mk None (lit " it depends ")) false None).
  vm_compute. reflexivity.
Defined.

Lemma find_text_first (options : list GeneratedOption.t) (text : jsstring) :
  (exists option, In option options /\ GeneratedOption.text option = text) ->
  exists found,
    List.find (fun opt => bool_decide (GeneratedOption.text opt = text)) options
    = Some found /\
    In found options /\ GeneratedOption.text found = text.
Proof.
  intros (option & Hin & Htext). induction options as [|o options IH]; [done|].
  simpl. case_bool_decide as Heq.
  - exists o. split; [reflexivity|]. split; [left; reflexivity|exact Heq].
  - destruct Hin as [->|Hin]; [done|].
    destruct (IH Hin) as (found & Hfind & Hfound & Hfoundtext).
    exists found. split; [exact Hfind|]. split; [right; exact Hfound|exact Hfoundtext].
Qed.

Lemma NoDup_text_inj (options : list GeneratedOption.t)
    (o1 o2 : GeneratedOption.t) :
  List.NoDup (List.map GeneratedOption.text options) ->
  In o1 options -> In o2 options ->
  GeneratedOption.text o1 = GeneratedOption.text o2 -> o1 = o2.
Proof.
  induction options as [|o options IH]; [done|].
  simpl. intros Hnd [->|Hin1] [->|Hin2] Htext; try reflexivity.
  - inversion_clear Hnd as [|? ? Hnotin _]. destruct Hnotin.
    rewrite Htext. apply in_map. exact Hin2.
  - inversion_clear Hnd as [|? ? Hnotin _]. destruct Hnotin.
    rewrite <- Htext. apply in_map. exact Hin1.
  - inversion_clear Hnd as [|? ? _ Hnd']. apply IH; done.
Qed.

Lemma find_text_none (options : list GeneratedOption.t) (text : jsstring) :
  (forall option, In option options -> GeneratedOption.text option <> text) ->
  List.find (fun opt => bool_decide (GeneratedOption.text opt = text)) options
  = None.
Proof.
  induction options as [|o options IH]; [done|]. intros Hnone. simpl.
  rewrite bool_decide_false by (apply Hnone; left; reflexivity).
  apply IH. intros option Hin. apply Hnone. right. exact Hin.
Qed.

Section CardRoundTrip.
Context {Language : Type}.
Variable t : jsstring -> Language -> jsstring.

Lemma runCardActions_answer (answer : Answer.t) (st : App Language) :
  Map_get (Answer.questionId answer)
    (answers (quizState (runCardActions [OnAnswer answer; OnNext] st)))
  = Some answer.
Proof.
  unfold runCardActions. simpl fold_left. unfold handleNextQuestion.
  destruct (_ <? _); simpl; apply Map_get_set_eq.
Qed.

(** X23.  The card shown again for an answered question restores what was
    submitted.  After an option of the question was submitted with a
    remark, the card preselects the first option with the text of the
    submitted one, which is the submitted option itself when the texts of
    the options are distinct, and shows the remark again.  After a remark
    was submitted without an option, the card shows the trimmed remark and
    no option, unless an option has the text of the custom answer. *)
Theorem preselect_restores_card
    (question : Question.t) (language : Language)
    (options : list GeneratedOption.t) (remark : jsstring)
    (st : App Language) :
  (forall option, In option options ->
     let st' :=
       runCardActions (handleNext t question language (Some option) remark) st in
     let card :=
       preselect (Some options)
         (Map_get (Question.id question) (answers (quizState st'))) in
     Card.remark card = remark /\
     (exists shown,
        Card.selectedOption card = Some shown /\ In shown options /\
        GeneratedOption.text shown = GeneratedOption.text option) /\
     (List.NoDup (List.map GeneratedOption.text options) ->
      card = Card.mk (Some option) remark)) /\
  (trim remark <> [] ->
   (forall option, In option options ->
      GeneratedOption.text option <> t (lit "custom_answer_text") language) ->
   let st' :=
     runCardActions (handleNext t question language None remark) st in
   preselect (Some options)
     (Map_get (Question.id question) (answers (quizState st')))
   = Card.mk None (trim remark)).
Proof.
  split.
  - intros option Hin st' card. subst st' card. unfold handleNext.
    pose proof (runCardActions_answer
                  (Answer.mk (Question.id question)
                     (GeneratedOption.score option)
                     (GeneratedOption.text option) remark) st) as Hget.
    cbn [Answer.questionId] in Hget. rewrite Hget.
    unfold preselect, previouslySelectedOption. simpl.
    assert (Hremark : (if truthy_string remark then remark else []) = remark)
      by (destruct remark; reflexivity).
    rewrite Hremark.
    destruct (find_text_first options (GeneratedOption.text option))
      as (found & Hfind & Hfound & Htext); [exists option; done|].
    rewrite Hfind. split; [reflexivity|]. split.
    + exists found. done.
    + intros Hnd. f_equal. f_equal.
      apply (NoDup_text_inj options); done.
  - intros Hremark Hcustom st'. subst st'. unfold handleNext.
    apply truthy_string_nonempty in Hremark. rewrite Hremark.
    pose proof (runCardActions_answer
                  (Answer.mk (Question.id question) 0
                     (t (lit "custom_answer_text") language) (trim remark))
                  st) as Hget.
    cbn [Answer.questionId] in Hget. rewrite Hget.
    unfold preselect, previouslySelectedOption. simpl.
    rewrite find_text_none by exact Hcustom. rewrite Hremark. reflexivity.
Qed.

End CardRoundTrip.

(** X23 at the seventh question in the middle of a quiz. *)
Lemma preselect_restores_card_witness :
  (forall option, In option options7 ->
     let st' :=
       runCardActions
         (handleNext englishKeys question7 tt (Some option) (lit "sure")) midQuiz in
     let card :=
       preselect (Some options7)
         (Map_get (Question.id question7) (answers (quizState st'))) in
     Card.remark card = lit "sure" /\
     (exists shown,
        Card.selectedOption card = Some shown /\ In shown options7 /\
        GeneratedOption.text shown = GeneratedOption.text option) /\
     (List.NoDup (List.map GeneratedOption.text options7) ->
      card = Card.mk (Some option) (lit "sure"))) /\
  (trim (lit "sure") <> [] ->
   (forall option, In option options7 ->
      GeneratedOption.text option <> englishKeys (lit "custom_answer_text") tt) ->
   let st' :=
     runCardActions (handleNext englishKeys question7 tt None (lit "sure"))
       midQuiz in
   preselect (Some options7)
     (Map_get (Question.id question7) (answers (quizState st')))
   = Card.mk None (trim (lit "sure"))).
Proof.
  apply (preselect_restores_card englishKeys question7 tt options7 (lit "sure")
           midQuiz).
Defined.

(** ** Sharing answers in Latin-1 *)











(** ** Saving and finding the saved result again *)

Lemma JSON_stringify_array_truthy (items : list json) :
  truthy_string (JSON_stringify (JArr items)) = true.
Proof. reflexivity. Qed.

Section SavedAgain.
Context {Language : Type}.
Variable t : jsstring -> Language -> jsstring.
Variable JSON_parse : jsstring -> option json.

(** X25.  A save from a page that does not know the result as saved, over
    a storage whose saved-results list is read as the results [saved]
    (none, when the storage has no list), stores the list with the new
    result added at its end, every earlier result kept, and touches no
    other key.  When the stored text is parsed back as it was printed, a
    page opened later over that storage on the same answers finds them
    saved. *)
Theorem handleSaveResults_appends_and_is_found
    (answers : answers_map) (url : option jsstring) (language : Language)
    (now : Z) (st : ResultsState) (saved : list SavedResult.t) :
  isSaved st = false ->
  readSavedResults JSON_parse (store st)
  = Returned (JArr (List.map jsonOfSavedResult saved)) ->
  let st' := handleSaveResults t JSON_parse answers url language now st in
  let saved' := saved ++ [SavedResult.mk now (Map_entries answers) url] in
  let stored := JSON_stringify (JArr (List.map jsonOfSavedResult saved')) in
  isSaved st' = true /\
  getItem savedResultsKey (store st') = Some stored /\
  (forall key, key <> savedResultsKey ->
     getItem key (store st') = getItem key (store st)) /\
  (JSON_parse stored = Some (JArr (List.map jsonOfSavedResult saved')) ->
   forall later : ResultsState,
     store later = store st' ->
     isSaved (savedEffect t JSON_parse answers language later) = true).
Proof.
  intros Hsaved Hread st' saved' stored.
  assert (Hst' : st'
    = mkResults true (t (lit "results_saved_button") language)
        (setItem savedResultsKey stored (store st))).
  { subst st' stored saved'. unfold handleSaveResults.
    rewrite Hsaved, Hread. unfold mbind, result_bind, rbind. cbn [mret result_ret].
    rewrite List.map_app. reflexivity. }
  rewrite Hst'. cbn [isSaved store].
  split; [reflexivity|].
  split; [unfold getItem, setItem; apply lookup_insert_eq|].
  split.
  { intros key Hkey. unfold getItem, setItem.
    apply lookup_insert_ne. congruence. }
  intros Hparse later Hstore.
  unfold savedEffect, readSavedResults. rewrite Hstore.
  unfold getItem, setItem. rewrite lookup_insert_eq.
  subst stored. rewrite JSON_stringify_array_truthy, Hparse.
  unfold mbind, result_bind, rbind, alreadySaved.
  rewrite (some_sameAnswers_found answers saved'); [reflexivity|].
  exists (SavedResult.mk now (Map_entries answers) url). split; [|reflexivity].
  subst saved'. apply in_or_app. right. left. reflexivity.
Qed.

End SavedAgain.

(** X25 at a page on the two answers given in the other order, over the
    storage that holds them in the first order. *)
Lemma handleSaveResults_appends_and_is_found_witness :
  let parse :=
    fun s =>
      match parses (JArr (List.map jsonOfSavedResult savedOneTwo)) s with
      | Some v => Some v
      | None =>
        parses (JArr (List.map jsonOfSavedResult
                        (savedOneTwo ++
                         [SavedResult.mk 1700000000001
                            (Map_entries answersTwoOne) None]))) s
      end in
  let st' :=
    handleSaveResults englishKeys parse answersTwoOne None tt 1700000000001
      freshOneTwo in
  let saved' :=
    savedOneTwo ++ [SavedResult.mk 1700000000001 (Map_entries answersTwoOne) None] in
  let stored := JSON_stringify (JArr (List.map jsonOfSavedResult saved')) in
  isSaved st' = true /\
  getItem savedResultsKey (store st') = Some stored /\
  (forall key, key <> savedResultsKey ->
     getItem key (store st') = getItem key (store freshOneTwo)) /\
  (parse stored = Some (JArr (List.map jsonOfSavedResult saved')) ->
   forall later : ResultsState,
     store later = store st' ->
     isSaved (savedEffect englishKeys parse answersTwoOne tt later) = true).
Proof.
  apply (handleSaveResults_appends_and_is_found englishKeys _ answersTwoOne None
           tt 1700000000001 freshOneTwo savedOneTwo).
  - reflexivity.
  - vm_compute. reflexivity.
Defined.

(** ** The language and the speech setting *)

(** X26.  [loadLanguage] returns a supported language code whatever the
    storage holds, Russian when the item is missing or is no supported
    code; a supported language and the speech setting are read back as
    the effects stored them, neither effect disturbs the other setting,
    and removing or writing the quiz progress disturbs neither. *)
Theorem settings_round_trip (s : storage) (language : jsstring)
    (isTtsEnabled : bool) (progress : jsstring) :
  In language supportedLanguageCodes ->
  In (loadLanguage s) supportedLanguageCodes /\
  (~ (exists saved, getItem (lit "quizLanguage") s = Some saved /\
                    In saved supportedLanguageCodes) ->
   loadLanguage s = lit "ru") /\
  loadLanguage (persistLanguage language s) = language /\
  loadTtsSetting (persistTtsSetting isTtsEnabled s) = isTtsEnabled /\
  loadLanguage (persistTtsSetting isTtsEnabled s) = loadLanguage s /\
  loadTtsSetting (persistLanguage language s) = loadTtsSetting s /\
  loadLanguage (removeItem quizProgressKey s) = loadLanguage s /\
  loadTtsSetting (removeItem quizProgressKey s) = loadTtsSetting s /\
  loadLanguage (setItem quizProgressKey progress s) = loadLanguage s /\
  loadTtsSetting (setItem quizProgressKey progress s) = loadTtsSetting s.
Proof.
  intros Hlanguage.
  assert (Hexists : forall saved,
    existsb (fun code => bool_decide (code = saved)) supportedLanguageCodes = true
    <-> In saved supportedLanguageCodes).
  { intros saved. rewrite existsb_exists. split.
    - intros (code & Hin & Heq). apply bool_decide_eq_true in Heq. subst. done.
    - intros Hin. exists saved. split; [done|apply bool_decide_eq_true; done]. }
  split.
  { unfold loadLanguage. destruct (getItem _ s) as [saved|]; [|left; reflexivity].
    destruct (existsb _ _) eqn:Hsome; [apply Hexists; exact Hsome|left; reflexivity]. }
  split.
  { intros Hnone. unfold loadLanguage.
    destruct (getItem _ s) as [saved|] eqn:Hget; [|reflexivity].
    destruct (existsb _ _) eqn:Hsome; [|reflexivity].
    destruct Hnone. exists saved. split; [reflexivity|apply Hexists; exact Hsome]. }
  split.
  { unfold loadLanguage, persistLanguage, getItem, setItem.
    rewrite lookup_insert_eq.
    apply Hexists in Hlanguage. rewrite Hlanguage. reflexivity. }
  split.
  { unfold loadTtsSetting, persistTtsSetting, getItem, setItem.
    rewrite lookup_insert_eq. destruct isTtsEnabled; reflexivity. }
  unfold loadLanguage, loadTtsSetting, persistLanguage, persistTtsSetting,
    getItem, setItem, removeItem, quizProgressKey.
  repeat split;
    first [rewrite lookup_insert_ne by discriminate
          |rewrite lookup_delete_ne by discriminate]; reflexivity.
Qed.

(** X26 at Korean and speech on, over the storage in the middle of a
    quiz. *)
Lemma settings_round_trip_witness :
  In (loadLanguage (localStorage midQuiz)) supportedLanguageCodes /\
  (~ (exists saved,
        getItem (lit "quizLanguage") (localStorage midQuiz) = Some saved /\
        In saved supportedLanguageCodes) ->
   loadLanguage (localStorage midQuiz) = lit "ru") /\
  loadLanguage (persistLanguage (lit "ko") (localStorage midQuiz)) = lit "ko" /\
  loadTtsSetting (persistTtsSetting true (localStorage midQuiz)) = true /\
  loadLanguage (persistTtsSetting true (localStorage midQuiz))
  = loadLanguage (localStorage midQuiz) /\
  loadTtsSetting (persistLanguage (lit "ko") (localStorage midQuiz))
  = loadTtsSetting (localStorage midQuiz) /\
  loadLanguage (removeItem quizProgressKey (localStorage midQuiz))
  = loadLanguage (localStorage midQuiz) /\
  loadTtsSetting (removeItem quizProgressKey (localStorage midQuiz))
  = loadTtsSetting (localStorage midQuiz) /\
  loadLanguage (setItem quizProgressKey (lit "{}") (localStorage midQuiz))
  = loadLanguage (localStorage midQuiz) /\
  loadTtsSetting (setItem quizProgressKey (lit "{}") (localStorage midQuiz))
  = loadTtsSetting (localStorage midQuiz).
Proof.
  apply (settings_round_trip (localStorage midQuiz) (lit "ko") true (lit "{}")).
  simpl. tauto.
Defined.

(** ** The transcript of a voice turn *)

Lemma onServerContents_pieces (contents : list ServerContent)
    (buffers : Transcripts) (history : list ChatMessage) :
  Forall (fun content => turnComplete content = false) contents ->
  onServerContents contents (buffers, history)
  = (mkTranscripts
       (currentInputTranscription buffers ++
        concat (List.map (fun c => transcribed (inputTranscription c)) contents))
       (currentOutputTranscription buffers ++
        concat (List.map (fun c => transcribed (outputTranscription c)) contents)),
     history).
Proof.
  intros Hopen. revert buffers.
  induction Hopen as [|content contents Hcontent Hopen IH]; intros buffers.
  - simpl. rewrite !app_nil_r. destruct buffers; reflexivity.
  - unfold onServerContents in *. cbn [fold_left].
    unfold onServerContent at 2. rewrite Hcontent.
    rewrite IH. cbn [currentInputTranscription currentOutputTranscription].
    cbn [List.map concat].
    destruct (inputTranscription content), (outputTranscription content);
      cbn [transcribed]; rewrite <- ?app_assoc; reflexivity.
Qed.

(** X27.  From the start of a session or from the end of a turn, the
    messages up to and with the next one that completes the turn add to
    the chat history the user's words and then the model's words of that
    turn: each is the pieces of its transcription put together in their
    order and trimmed, and is left out when that is empty.  The buffers
    are empty again after the turn, and nothing enters the history before
    the turn is complete. *)
Theorem turn_transcript (contents : list ServerContent)
    (complete : ServerContent) (history : list ChatMessage) :
  Forall (fun content => turnComplete content = false) contents ->
  turnComplete complete = true ->
  let userInput :=
    trim (concat (List.map (fun c => transcribed (inputTranscription c))
                    (contents ++ [complete]))) in
  let modelOutput :=
    trim (concat (List.map (fun c => transcribed (outputTranscription c))
                    (contents ++ [complete]))) in
  snd (onServerContents contents (mkTranscripts [] [], history)) = history /\
  onServerContents (contents ++ [complete]) (mkTranscripts [] [], history)
  = (mkTranscripts [] [],
     history ++
     (if truthy_string userInput then [mkChat user userInput] else []) ++
     (if truthy_string modelOutput then [mkChat model modelOutput] else [])).
Proof.
  intros Hopen Hcomplete userInput modelOutput.
  split; [rewrite onServerContents_pieces by exact Hopen; reflexivity|].
  unfold onServerContents. rewrite fold_left_app.
  fold (onServerContents contents (mkTranscripts [] [], history)).
  rewrite onServerContents_pieces by exact Hopen.
  cbn [fold_left currentInputTranscription currentOutputTranscription app].
  unfold onServerContent. rewrite Hcomplete.
  cbn [currentInputTranscription currentOutputTranscription].
  assert (Hinput :
    match inputTranscription complete with
    | Some text =>
      concat (List.map (fun c => transcribed (inputTranscription c)) contents) ++ text
    | None =>
      concat (List.map (fun c => transcribed (inputTranscription c)) contents)
    end
    = concat (List.map (fun c => transcribed (inputTranscription c))
                (contents ++ [complete]))).
  { rewrite List.map_app, concat_app. cbn [List.map concat].
    destruct (inputTranscription complete); cbn [transcribed];
      rewrite ?app_nil_r; reflexivity. }
  assert (Houtput :
    match outputTranscription complete with
    | Some text =>
      concat (List.map (fun c => transcribed (outputTranscription c)) contents) ++ text
    | None =>
      concat (List.map (fun c => transcribed (outputTranscription c)) contents)
    end
    = concat (List.map (fun c => transcribed (outputTranscription c))
                (contents ++ [complete]))).
  { rewrite List.map_app, concat_app. cbn [List.map concat].
    destruct (outputTranscription complete); cbn [transcribed];
      rewrite ?app_nil_r; reflexivity. }
  rewrite Hinput, Houtput. fold userInput modelOutput.
  destruct (truthy_string userInput), (truthy_string modelOutput);
    cbn [app length]; rewrite ?app_nil_r; reflexivity.
Qed.

(** X27 at a turn in three messages. *)
Lemma turn_transcript_witness :
  let contents :=
    [ mkContent None (Some (lit " I think ")) false;
      mkContent (Some (lit "Noted")) (Some (lit "so ")) false ] in
  let complete := mkContent (Some (lit ". ")) None true in
  snd (onServerContents contents (mkTranscripts [] [], [])) = [] /\
  onServerContents (contents ++ [complete]) (mkTranscripts [] [], [])
  = (mkTranscripts [] [],
     [] ++
     (if truthy_string (lit "I think so")
      then [mkChat user (lit "I think so")] else []) ++
     (if truthy_string (lit "Noted.")
      then [mkChat model (lit "Noted.")] else [])).
Proof.
  apply (turn_transcript
           [ mkContent None (Some (lit " I think ")) false;
             mkContent (Some (lit "Noted")) (Some (lit "so ")) false ]
           (mkContent (Some (lit ". ")) None true) []).
  - repeat first [apply List.Forall_nil | apply List.Forall_cons]; reflexivity.
  - reflexivity.
Defined.
